(** * The concurrent self-play engine of cc/concurrent_selfplay.cc

    A shallow embedding of [SelfplayGame], [TreeSearcher], [SelfplayThread]
    and the parts of [Selfplayer] that create games and the inference cache.
    The collaborators the file only calls ([MctsTree], [MctsNode],
    [Position], [Random], [InferenceCache]) are interfaces; each method of
    the engine returns, besides its result and the new state, the list of
    calls it made on its collaborators, in program order. *)

From Stdlib Require Import ZArith QArith Qabs Lia.
From stdpp Require Import base option list strings.
From Equations Require Import Equations.

Local Open Scope Z_scope.

(** ** Scalars *)

(** [float] and [double] values are read as rationals: every finite
    floating-point number is one, and [<], [>=] on them agree with the
    rational order. *)
Definition Qlt_bool (x y : Q) : bool := negb (Qle_bool y x).
Definition Qge_bool (x y : Q) : bool := Qle_bool y x.

(** The two players and [OtherColor], which swaps them (cc/color.h). *)
Inductive Color := kBlack | kWhite.

Definition OtherColor (c : Color) : Color :=
  match c with kBlack => kWhite | kWhite => kBlack end.

(** [Coord] is an index into the board plus the two special moves. *)
Definition Coord := Z.

(** [symmetry::Symmetry], one of [kNumSymmetries] values. *)
Definition Symmetry := Z.
Definition kNumSymmetries : Z := 8.

Definition uint64 (x : Z) : Z := x mod 2 ^ 64.

(** What an [int] holds of a sum or difference of [int]s: the value
    wrapped into 32 bits, two's complement.  (The overflow of a signed
    integer is undefined in C++; the compiled code wraps.) *)
Definition int32 (x : Z) : Z := (x + 2 ^ 31) mod 2 ^ 32 - 2 ^ 31.

Record ModelOutput := { policy : list Q; value : Q }.

(** ** Collaborator interfaces *)

(** [Random] (cc/random.h): the generator each game and the [Selfplayer]
    own.  [rnd_uniform] is [operator()]. *)
Class RandomOps := {
  Random : Type;
  Random_new : Z -> Z -> Random;
  rnd_uniform : Random -> Q * Random;
  UniformUint64 : Random -> Z * Random;
  Dirichlet : Q -> Random -> list Q * Random;
  MixBits : Z -> Z;
  kLargePrime : Z
}.

(** [MctsTree::Options], as far as [Selfplayer::ParseFlags] sets them. *)
Record TreeOptions := {
  value_init_penalty : Q;
  policy_softmax_temp : Q;
  soft_pick_enabled : bool;
  restrict_in_bensons : bool
}.

(** [MctsTree], [MctsNode] and [Position] (cc/mcts_tree.h, cc/position.h).
    A node is a pointer into its tree, so what the source reads through a
    node ([leaf->game_over()], [leaf->position], ...) is read here from the
    tree that owns it. *)
Class MctsOps `{RandomOps} := {
  MctsTree : Type;
  MctsNode : Type;
  Position : Type;
  MctsNode_eq_dec :: EqDecision MctsNode;
  (* MctsNode *)
  node_game_over : MctsTree -> MctsNode -> bool;
  node_at_move_limit : MctsTree -> MctsNode -> bool;
  node_position : MctsTree -> MctsNode -> Position;
  node_parent : MctsTree -> MctsNode -> option MctsNode;
  node_move : MctsTree -> MctsNode -> Coord;
  node_canonical_symmetry : MctsTree -> MctsNode -> Symmetry;
  node_N : MctsTree -> MctsNode -> Z;
  node_Q : MctsTree -> MctsNode -> Q;
  node_Q_perspective : MctsTree -> MctsNode -> Q;
  (* Position *)
  Position_CalculateScore : Position -> Q -> Q;
  stone_hash : Position -> Z;
  (* MctsTree *)
  root : MctsTree -> MctsNode;
  SelectLeaf : bool -> MctsTree -> option MctsNode * MctsTree;
  IncorporateResults : MctsNode -> list Q -> Q -> MctsTree -> MctsTree;
  IncorporateEndGameResult : MctsNode -> Q -> MctsTree -> MctsTree;
  AddVirtualLoss : MctsNode -> MctsTree -> MctsTree;
  RevertVirtualLoss : MctsNode -> MctsTree -> MctsTree;
  InjectNoise : list Q -> Q -> MctsTree -> MctsTree;
  PickMove : Random -> MctsTree -> Coord * Random;
  CalculateSearchPi : MctsTree -> list Q;
  ReshapeFinalVisits : MctsTree -> MctsTree;
  PlayMove : Coord -> MctsTree -> MctsTree;
  ClearSubtrees : MctsTree -> MctsTree;
  at_move_limit : MctsTree -> bool;
  is_game_over : MctsTree -> bool;
  CalculateScore : MctsTree -> Q -> Q;
  to_play : MctsTree -> Color;
  (* constants and constructors the engine uses *)
  kResign : Coord;
  position_history_capacity : nat;
  MctsTree_new : Color -> TreeOptions -> MctsTree
}.

(** [InferenceCache::Key(move, canonical_symmetry, position)]. *)
Record Key `{MctsOps} := {
  key_move : Coord;
  key_canonical_symmetry : Symmetry;
  key_position : Position
}.

(** [InferenceCache] (cc/model/inference_cache.h): [TryGet] answers with the
    cached output on a hit; both calls may change the cache. *)
Class CacheOps `{MctsOps} := {
  InferenceCache : Type;
  CalculateCapacity : Z -> Z;
  TryGet : Key -> Symmetry -> Symmetry -> InferenceCache ->
           option ModelOutput * InferenceCache;
  Merge : Key -> Symmetry -> Symmetry -> ModelOutput -> InferenceCache ->
          InferenceCache
}.

(** ** Game *)

Module Game.
Section Game.
Context `{MctsOps}.

Record Options := {
  resign_enabled : bool;
  resign_threshold : Q;
  komi : Q
}.

Record Move := {
  color : Color;
  c : Coord;
  position : Position;
  comment : string;
  Q_ : Q;
  search_pi : list Q;
  trainable : bool
}.

Inductive GameOverReason :=
| kBothPassed (score : Q)
| kOpponentResigned (winner : Color)
| kMoveLimitReached (score : Q).

(** Modelled from the spec: [Game] (cc/game.h) is not among the sources.
    The spec gives it a move history to which a move is appended with its
    colour, coordinate, position, model annotation, Q and search policy, a
    mark for trainable moves, and three ways of ending a game. *)
Record t := {
  options : Options;
  moves : list Move;
  game_over_reason : option GameOverReason
}.

Definition new (black_name white_name : string) (o : Options) : t :=
  {| options := o; moves := []; game_over_reason := None |}.

Definition game_over (g : t) : bool :=
  match game_over_reason g with Some _ => true | None => false end.

Definition AddMove (col : Color) (co : Coord) (p : Position)
    (cmt : string) (q : Q) (pi : list Q) (g : t) : t :=
  {| options := options g;
     moves := moves g ++
       [{| color := col; c := co; position := p; comment := cmt;
           Q_ := q; search_pi := pi; trainable := false |}];
     game_over_reason := game_over_reason g |}.

Definition mark_trainable (m : Move) : Move :=
  {| color := color m; c := c m; position := position m;
     comment := comment m; Q_ := Q_ m; search_pi := search_pi m;
     trainable := true |}.

Definition MarkLastMoveAsTrainable (g : t) : t :=
  {| options := options g;
     moves := match List.rev (moves g) with
              | [] => []
              | m :: before => List.rev before ++ [mark_trainable m]
              end;
     game_over_reason := game_over_reason g |}.

Definition set_game_over (r : GameOverReason) (g : t) : t :=
  {| options := options g; moves := moves g; game_over_reason := Some r |}.

Definition SetGameOverBecauseOfResign (winner : Color) : t -> t :=
  set_game_over (kOpponentResigned winner).

Definition SetGameOverBecauseMoveLimitReached (score : Q) : t -> t :=
  set_game_over (kMoveLimitReached score).

Definition SetGameOverBecauseOfPasses (score : Q) : t -> t :=
  set_game_over (kBothPassed score).

End Game.
End Game.

(** ** Inferences and the calls made on collaborators *)

Record ModelInput `{MctsOps} := {
  sym : Symmetry;
  position_history : list Position
}.

(** Information required to run a single inference. *)
Record Inference `{MctsOps} := {
  cache_key : Key;
  leaf : MctsNode;
  input : ModelInput;
  output : ModelOutput
}.

Inductive LogLine := LogPosition | LogMove | LogDescribe | LogQ | LogPlayed.

(** One constructor per mutating call the engine makes on a game's tree,
    its [Game] and the log; a method's call list is its observable
    behaviour towards them. *)
Inductive Call `{MctsOps} :=
| SelectLeaf_call (allow_pass : bool) (selected : option MctsNode)
| IncorporateEndGameResult_call (leaf : MctsNode) (value : Q)
| IncorporateResults_call (leaf : MctsNode) (policy : list Q) (value : Q)
| AddVirtualLoss_call (leaf : MctsNode)
| RevertVirtualLoss_call (leaf : MctsNode)
| InjectNoise_call (noise : list Q) (mix : Q)
| PickMove_call (c : Coord)
| ReshapeFinalVisits_call
| PlayMove_call (c : Coord)
| ClearSubtrees_call
| AddMove_call (c : Coord)
| MarkLastMoveAsTrainable_call
| SetGameOverBecauseOfResign_call (winner : Color)
| SetGameOverBecauseMoveLimitReached_call (score : Q)
| SetGameOverBecauseOfPasses_call (score : Q)
| Log_call (line : LogLine).

(** The leaves that received [AddVirtualLoss], [RevertVirtualLoss], in call
    order, the number of [InjectNoise] calls, the number of [SelectLeaf]
    calls, whatever they answered, and the number of those that answered
    a leaf and not a null pointer. *)
Definition virtual_losses_added `{MctsOps} (calls : list Call) : list MctsNode :=
  omap (fun c => match c with AddVirtualLoss_call l => Some l | _ => None end) calls.

Definition virtual_losses_reverted `{MctsOps} (calls : list Call) : list MctsNode :=
  omap (fun c => match c with RevertVirtualLoss_call l => Some l | _ => None end) calls.

Definition is_InjectNoise `{MctsOps} (c : Call) : bool :=
  match c with InjectNoise_call _ _ => true | _ => false end.

Definition is_SelectLeaf `{MctsOps} (c : Call) : bool :=
  match c with SelectLeaf_call _ _ => true | _ => false end.

Definition noise_injections `{MctsOps} (calls : list Call) : nat :=
  length (List.filter is_InjectNoise calls).

Definition SelectLeaf_calls `{MctsOps} (calls : list Call) : nat :=
  length (List.filter is_SelectLeaf calls).



(** What a call does to the tree it is made on; the calls on the [Game]
    and on the log leave the tree alone, and so does [PickMove]. *)
Definition apply_call `{MctsOps} (c : Call) (tree : MctsTree) : MctsTree :=
  match c with
  | SelectLeaf_call allow_pass _ => snd (SelectLeaf allow_pass tree)
  | IncorporateEndGameResult_call leaf value =>
      IncorporateEndGameResult leaf value tree
  | IncorporateResults_call leaf policy value =>
      IncorporateResults leaf policy value tree
  | AddVirtualLoss_call leaf => AddVirtualLoss leaf tree
  | RevertVirtualLoss_call leaf => RevertVirtualLoss leaf tree
  | InjectNoise_call noise mix => InjectNoise noise mix tree
  | ReshapeFinalVisits_call => ReshapeFinalVisits tree
  | PlayMove_call c => PlayMove c tree
  | ClearSubtrees_call => ClearSubtrees tree
  | _ => tree
  end.

(** The tree after the calls have been made on it, one after the other. *)
Definition apply_calls `{MctsOps} (calls : list Call) (tree : MctsTree)
    : MctsTree :=
  fold_left (fun t c => apply_call c t) calls tree.

(** The calls on the move history and on the tree that playing a move
    consists of. *)
Definition is_move_call `{MctsOps} (c : Call) : bool :=
  match c with
  | PickMove_call _ | AddMove_call _ | PlayMove_call _
  | ReshapeFinalVisits_call | MarkLastMoveAsTrainable_call => true
  | _ => false
  end.

(** ** SelfplayGame *)

Module SelfplayGame.
Section SelfplayGame.
Context `{CacheOps}.

Record Options := {
  num_virtual_losses : Z;
  num_readouts : Z;
  fastplay_readouts : Z;
  fastplay_frequency : Q;
  dirichlet_alpha : Q;
  noise_mix : Q;
  is_holdout : bool;
  target_pruning : bool;
  verbose : bool;
  allow_pass : bool
}.

(** Holds all the state for a single selfplay game. *)
Record t := {
  options_ : Options;
  target_readouts_ : Z;
  game_ : Game.t;
  tree_ : MctsTree;
  use_ansi_colors_ : bool;
  start_time_ : Z;
  duration_ : Z;
  models_used_ : list string;
  rnd_ : Random;
  inference_symmetry_mix_ : Z;
  inject_noise_before_next_read_ : bool;
  fastplay_ : bool
}.

Definition set_target_readouts_ (v : Z) (g : t) : t :=
  {| options_ := options_ g; target_readouts_ := v; game_ := game_ g;
     tree_ := tree_ g; use_ansi_colors_ := use_ansi_colors_ g;
     start_time_ := start_time_ g; duration_ := duration_ g;
     models_used_ := models_used_ g; rnd_ := rnd_ g;
     inference_symmetry_mix_ := inference_symmetry_mix_ g;
     inject_noise_before_next_read_ := inject_noise_before_next_read_ g;
     fastplay_ := fastplay_ g |}.

Definition set_game_ (v : Game.t) (g : t) : t :=
  {| options_ := options_ g; target_readouts_ := target_readouts_ g;
     game_ := v;
     tree_ := tree_ g; use_ansi_colors_ := use_ansi_colors_ g;
     start_time_ := start_time_ g; duration_ := duration_ g;
     models_used_ := models_used_ g; rnd_ := rnd_ g;
     inference_symmetry_mix_ := inference_symmetry_mix_ g;
     inject_noise_before_next_read_ := inject_noise_before_next_read_ g;
     fastplay_ := fastplay_ g |}.

Definition set_tree_ (v : MctsTree) (g : t) : t :=
  {| options_ := options_ g; target_readouts_ := target_readouts_ g;
     game_ := game_ g;
     tree_ := v; use_ansi_colors_ := use_ansi_colors_ g;
     start_time_ := start_time_ g; duration_ := duration_ g;
     models_used_ := models_used_ g; rnd_ := rnd_ g;
     inference_symmetry_mix_ := inference_symmetry_mix_ g;
     inject_noise_before_next_read_ := inject_noise_before_next_read_ g;
     fastplay_ := fastplay_ g |}.

Definition set_duration_ (v : Z) (g : t) : t :=
  {| options_ := options_ g; target_readouts_ := target_readouts_ g;
     game_ := game_ g;
     tree_ := tree_ g; use_ansi_colors_ := use_ansi_colors_ g;
     start_time_ := start_time_ g; duration_ := v;
     models_used_ := models_used_ g; rnd_ := rnd_ g;
     inference_symmetry_mix_ := inference_symmetry_mix_ g;
     inject_noise_before_next_read_ := inject_noise_before_next_read_ g;
     fastplay_ := fastplay_ g |}.

Definition set_models_used_ (v : list string) (g : t) : t :=
  {| options_ := options_ g; target_readouts_ := target_readouts_ g;
     game_ := game_ g;
     tree_ := tree_ g; use_ansi_colors_ := use_ansi_colors_ g;
     start_time_ := start_time_ g; duration_ := duration_ g;
     models_used_ := v; rnd_ := rnd_ g;
     inference_symmetry_mix_ := inference_symmetry_mix_ g;
     inject_noise_before_next_read_ := inject_noise_before_next_read_ g;
     fastplay_ := fastplay_ g |}.

Definition set_rnd_ (v : Random) (g : t) : t :=
  {| options_ := options_ g; target_readouts_ := target_readouts_ g;
     game_ := game_ g;
     tree_ := tree_ g; use_ansi_colors_ := use_ansi_colors_ g;
     start_time_ := start_time_ g; duration_ := duration_ g;
     models_used_ := models_used_ g; rnd_ := v;
     inference_symmetry_mix_ := inference_symmetry_mix_ g;
     inject_noise_before_next_read_ := inject_noise_before_next_read_ g;
     fastplay_ := fastplay_ g |}.

Definition set_inject_noise_before_next_read_ (v : bool) (g : t) : t :=
  {| options_ := options_ g; target_readouts_ := target_readouts_ g;
     game_ := game_ g;
     tree_ := tree_ g; use_ansi_colors_ := use_ansi_colors_ g;
     start_time_ := start_time_ g; duration_ := duration_ g;
     models_used_ := models_used_ g; rnd_ := rnd_ g;
     inference_symmetry_mix_ := inference_symmetry_mix_ g;
     inject_noise_before_next_read_ := v;
     fastplay_ := fastplay_ g |}.

Definition set_fastplay_ (v : bool) (g : t) : t :=
  {| options_ := options_ g; target_readouts_ := target_readouts_ g;
     game_ := game_ g;
     tree_ := tree_ g; use_ansi_colors_ := use_ansi_colors_ g;
     start_time_ := start_time_ g; duration_ := duration_ g;
     models_used_ := models_used_ g; rnd_ := rnd_ g;
     inference_symmetry_mix_ := inference_symmetry_mix_ g;
     inject_noise_before_next_read_ := inject_noise_before_next_read_ g;
     fastplay_ := v |}.

(** The constructor.  [rnd_] is declared before [inference_symmetry_mix_],
    so the mix is the generator's first output; [fastplay_] and
    [inject_noise_before_next_read_] start [false]. *)
Definition new (options : Options) (game : Game.t) (tree : MctsTree)
    (ansi : bool) (now : Z) (seed stream : Z) : t :=
  let '(mix, rnd) := UniformUint64 (Random_new seed stream) in
  {| options_ := options;
     target_readouts_ := num_readouts options;
     game_ := game;
     tree_ := tree;
     use_ansi_colors_ := ansi;
     start_time_ := now;
     duration_ := 0;
     models_used_ := [];
     rnd_ := rnd;
     inference_symmetry_mix_ := mix;
     inject_noise_before_next_read_ := false;
     fastplay_ := false |}.

Definition root_N (g : t) : Z := node_N (tree_ g) (root (tree_ g)).

(** Randomly choose whether or not to fast play.  [&&] short-circuits: the
    generator is only advanced when the frequency is positive. *)
Definition ShouldFastplay (g : t) : bool * t :=
  if Qlt_bool 0 (fastplay_frequency (options_ g)) then
    let '(r, rnd) := rnd_uniform (rnd_ g) in
    (Qlt_bool r (fastplay_frequency (options_ g)), set_rnd_ rnd g)
  else (false, g).

(** Returns true if the predicted win rate is below [resign_threshold]. *)
Definition ShouldResign (g : t) : bool :=
  Game.resign_enabled (Game.options (game_ g)) &&
  Qlt_bool (node_Q_perspective (tree_ g) (root (tree_ g)))
           (Game.resign_threshold (Game.options (game_ g))).

(** Injects noise into the root. *)
Definition InjectNoise (g : t) : t * list Call :=
  let '(noise, rnd) := Dirichlet (dirichlet_alpha (options_ g)) (rnd_ g) in
  (set_tree_ (InjectNoise noise (noise_mix (options_ g)) (tree_ g))
             (set_rnd_ rnd g),
   [InjectNoise_call noise (noise_mix (options_ g))]).

Definition GetInferenceSymmetry (g : t) (node : MctsNode) : Symmetry :=
  let bits :=
    uint64 (MixBits (uint64 (stone_hash (node_position (tree_ g) node)
                               * kLargePrime
                             + inference_symmetry_mix_ g))) in
  bits mod kNumSymmetries.

(** The history buffer of an inference: the positions of the leaf and of
    its ancestors, at most [cap] of them. *)
Fixpoint fill_position_history (cap : nat) (tree : MctsTree)
    (node : MctsNode) : list Position :=
  match cap with
  | O => []
  | S cap' =>
      node_position tree node ::
      match node_parent tree node with
      | None => []
      | Some parent => fill_position_history cap' tree parent
      end
  end.

(** What [SelectLeaves] works on: the game, and the cache and inference
    vector it is passed by pointer. *)
Record LeafSearch := {
  ls_game : t;
  ls_cache : InferenceCache;
  ls_inferences : list Inference;
  ls_num_queued : Z;
  ls_calls : list Call
}.

Definition default_output : ModelOutput := {| policy := []; value := 0%Q |}.

(** Looks the leaf up in the inference cache: if found, propagates the
    cached result up the tree; if not, appends an inference for the leaf and
    adds a virtual loss.  Returns true if an inference was queued. *)
Definition MaybeQueueInference (leaf : MctsNode) (s : LeafSearch)
    : bool * LeafSearch :=
  let g := ls_game s in
  let inference_sym := GetInferenceSymmetry g leaf in
  let canonical := node_canonical_symmetry (tree_ g) leaf in
  let key := {| key_move := node_move (tree_ g) leaf;
                key_canonical_symmetry := canonical;
                key_position := node_position (tree_ g) leaf |} in
  match TryGet key canonical inference_sym (ls_cache s) with
  | (Some cached_output, cache) =>
      (false,
       {| ls_game := set_tree_ (IncorporateResults leaf (policy cached_output)
                                  (value cached_output) (tree_ g)) g;
          ls_cache := cache;
          ls_inferences := ls_inferences s;
          ls_num_queued := ls_num_queued s;
          ls_calls := ls_calls s ++
            [IncorporateResults_call leaf (policy cached_output)
                                     (value cached_output)] |})
  | (None, cache) =>
      let inference :=
        {| cache_key := key;
           leaf := leaf;
           input := {| sym := inference_sym;
                       position_history :=
                         fill_position_history position_history_capacity
                                               (tree_ g) leaf |};
           output := default_output |} in
      (true,
       {| ls_game := set_tree_ (AddVirtualLoss leaf (tree_ g)) g;
          ls_cache := cache;
          ls_inferences := ls_inferences s ++ [inference];
          ls_num_queued := ls_num_queued s;
          ls_calls := ls_calls s ++ [AddVirtualLoss_call leaf] |})
  end.

Inductive LoopControl := Break | Continue.

Definition with_game (g : t) (calls : list Call) (s : LeafSearch) : LeafSearch :=
  {| ls_game := g; ls_cache := ls_cache s; ls_inferences := ls_inferences s;
     ls_num_queued := ls_num_queued s; ls_calls := ls_calls s ++ calls |}.

Definition add_queued (queued : bool) (s : LeafSearch) : LeafSearch :=
  {| ls_game := ls_game s; ls_cache := ls_cache s;
     ls_inferences := ls_inferences s;
     ls_num_queued := if queued then ls_num_queued s + 1 else ls_num_queued s;
     ls_calls := ls_calls s |}.

(** One pass through the body of the loop of [SelectLeaves].  [Break] is a
    [break]; [Continue] is a [continue] or the end of the body, both of
    which go on to the loop test. *)
Definition SelectLeaves_body (s : LeafSearch) : LoopControl * LeafSearch :=
  let g := ls_game s in
  let allow := allow_pass (options_ g) in
  let '(selected, tree1) := SelectLeaf allow (tree_ g) in
  let s1 := with_game (set_tree_ tree1 g) [SelectLeaf_call allow selected] s in
  match selected with
  | None => (Break, s1)
  | Some leaf =>
      if node_game_over tree1 leaf || node_at_move_limit tree1 leaf then
        let score := Position_CalculateScore (node_position tree1 leaf)
                       (Game.komi (Game.options (game_ g))) in
        let value := if Qlt_bool 0 score then 1%Q else (-1)%Q in
        (Continue,
         with_game (set_tree_ (IncorporateEndGameResult leaf value tree1)
                              (ls_game s1))
                   [IncorporateEndGameResult_call leaf value] s1)
      else
        let '(queued, s2) := MaybeQueueInference leaf s1 in
        let s3 := add_queued queued s2 in
        if decide (leaf = root (tree_ (ls_game s3))) then
          (Break,
           if fastplay_ (ls_game s3) then s3
           else with_game (set_inject_noise_before_next_read_ true (ls_game s3))
                          [] s3)
        else (Continue, s3)
  end.

(** The test of the [do ... while] loop. *)
Definition SelectLeaves_test (s : LeafSearch) : bool :=
  (ls_num_queued s <? num_virtual_losses (options_ (ls_game s))) &&
  (root_N (ls_game s) <? target_readouts_ (ls_game s)).

(** The loop [do { body } while (test)], run for at most [fuel] passes.  The
    first component tells whether the loop was left within them; the state
    is the one reached in either case. *)
Fixpoint SelectLeaves_loop (fuel : nat) (s : LeafSearch) : bool * LeafSearch :=
  match fuel with
  | O => (false, s)
  | S fuel' =>
      match SelectLeaves_body s with
      | (Break, s') => (true, s')
      | (Continue, s') =>
          if SelectLeaves_test s' then SelectLeaves_loop fuel' s'
          else (true, s')
      end
  end.

Definition SelectLeaves_enter (cache : InferenceCache)
    (inferences : list Inference) (g : t) : LeafSearch :=
  let '(g1, calls) :=
    if inject_noise_before_next_read_ g then
      InjectNoise (set_inject_noise_before_next_read_ false g)
    else (g, []) in
  {| ls_game := g1; ls_cache := cache; ls_inferences := inferences;
     ls_num_queued := 0; ls_calls := calls |}.

(** Selects leaves to perform inference on.  [ls_num_queued] of the result
    is the value returned, [ls_calls] the calls made. *)
Definition SelectLeaves (fuel : nat) (cache : InferenceCache)
    (inferences : list Inference) (g : t) : bool * LeafSearch :=
  SelectLeaves_loop fuel (SelectLeaves_enter cache inferences g).

Definition record_model (model_name : string) (g : t) : t :=
  if decide (model_name = "") then g
  else
    match last (models_used_ g) with
    | None => set_models_used_ (models_used_ g ++ [model_name]) g
    | Some back =>
        if decide (model_name = back) then g
        else set_models_used_ (models_used_ g ++ [model_name]) g
    end.

Fixpoint incorporate_inferences (inferences : list Inference) (g : t)
    : t * list Call :=
  match inferences with
  | [] => (g, [])
  | inference :: rest =>
      let tree1 := IncorporateResults (leaf inference)
                     (policy (output inference)) (value (output inference))
                     (tree_ g) in
      let tree2 := RevertVirtualLoss (leaf inference) tree1 in
      let '(g', calls) := incorporate_inferences rest (set_tree_ tree2 g) in
      (g',
       IncorporateResults_call (leaf inference) (policy (output inference))
                               (value (output inference))
       :: RevertVirtualLoss_call (leaf inference) :: calls)
  end.

(** Processes the inferences selected by [SelectLeaves] once evaluated. *)
Definition ProcessInferences (model_name : string)
    (inferences : list Inference) (g : t) : t * list Call :=
  incorporate_inferences inferences (record_model model_name g).

Definition newline : string := String (Ascii.ascii_of_nat 10) EmptyString.

(** The [else] branch of the resignation test in [MaybePlayMove]: pick a
    move, add it to the game, play it on the tree and detect the end of the
    game. *)
Definition play_picked_move (g : t) : t * list Call :=
  let tree := tree_ g in
  let '(c, rnd) := PickMove (rnd_ g) tree in
  let log :=
    if verbose (options_ g) then
      [Log_call LogPosition; Log_call LogMove] ++
      (if fastplay_ g then [] else [Log_call LogDescribe]) ++
      [Log_call LogQ; Log_call LogPlayed]
    else [] in
  let model_str :=
    match last (models_used_ g) with
    | Some back => "model: " +:+ back +:+ newline
    | None => ""
    end in
  let search_pi := CalculateSearchPi tree in
  let game1 := Game.AddMove (to_play tree) c (node_position tree (root tree))
                 model_str (node_Q tree (root tree)) search_pi (game_ g) in
  let reshape := target_pruning (options_ g) && negb (fastplay_ g) in
  let tree1 := if reshape then ReshapeFinalVisits tree else tree in
  let tree2 := PlayMove c tree1 in
  let mark := negb (bool_decide (c = kResign)) && negb (fastplay_ g) in
  let game2 := if mark then Game.MarkLastMoveAsTrainable game1 else game1 in
  let komi := Game.komi (Game.options (game_ g)) in
  let '(game3, over) :=
    if at_move_limit tree2 then
      (Game.SetGameOverBecauseMoveLimitReached (CalculateScore tree2 komi) game2,
       [SetGameOverBecauseMoveLimitReached_call (CalculateScore tree2 komi)])
    else if is_game_over tree2 then
      (Game.SetGameOverBecauseOfPasses (CalculateScore tree2 komi) game2,
       [SetGameOverBecauseOfPasses_call (CalculateScore tree2 komi)])
    else (game2, []) in
  (set_game_ game3 (set_tree_ tree2 (set_rnd_ rnd g)),
   PickMove_call c :: log ++ [AddMove_call c] ++
   (if reshape then [ReshapeFinalVisits_call] else []) ++
   [PlayMove_call c] ++
   (if mark then [MarkLastMoveAsTrainable_call] else []) ++ over).

(** The branch of [MaybePlayMove] taken while the game is not over: choose
    whether the next move is a fast play and set its read target, which is
    an [int] as its two summands are. *)
Definition prepare_next_move (g : t) : t * list Call :=
  let '(fast, g1) := ShouldFastplay g in
  let g2 := set_inject_noise_before_next_read_ (negb fast)
              (set_fastplay_ fast g1) in
  let num_readouts :=
    if fast then fastplay_readouts (options_ g2)
    else num_readouts (options_ g2) in
  let g3 := set_target_readouts_ (int32 (root_N g2 + num_readouts)) g2 in
  if negb fast && Qlt_bool 0 (fastplay_frequency (options_ g3)) then
    (set_tree_ (ClearSubtrees (tree_ g3)) g3, [ClearSubtrees_call])
  else (g3, []).

Definition resign (g : t) : t * list Call :=
  let winner := OtherColor (to_play (tree_ g)) in
  (set_game_ (Game.SetGameOverBecauseOfResign winner (game_ g)) g,
   [SetGameOverBecauseOfResign_call winner]).

(** Plays a move if the necessary number of nodes have been read.  [now]
    is what [absl::Now()] answers. *)
Definition MaybePlayMove (now : Z) (g : t) : bool * t * list Call :=
  if root_N g <? target_readouts_ g then (false, g, [])
  else
    let '(g1, calls1) :=
      if ShouldResign g then resign g else play_picked_move g in
    let '(g2, calls2) :=
      if negb (Game.game_over (game_ g1)) then prepare_next_move g1
      else (set_duration_ (now - start_time_ g1) g1, []) in
    (true, g2, calls1 ++ calls2).

End SelfplayGame.
End SelfplayGame.

(** ** A game seen from its thread: sequences of method calls *)

Section Schedule.
Context `{CacheOps}.

(** A call of one of the three public methods of [SelfplayGame], with the
    arguments its thread passes. *)
Inductive Op :=
| SelectLeaves_op (fuel : nat) (cache : InferenceCache)
                  (inferences : list Inference)
| ProcessInferences_op (model_name : string) (inferences : list Inference)
| MaybePlayMove_op (now : Z).

(** What a call leaves behind: the game, the calls made on collaborators,
    whether [MaybePlayMove] answered true, and whether [SelectLeaves] left
    [inject_noise_before_next_read_] set. *)
Record Step := {
  st_game : SelfplayGame.t;
  st_calls : list Call;
  st_played : bool;
  st_armed : bool
}.

Definition step (op : Op) (g : SelfplayGame.t) : Step :=
  match op with
  | SelectLeaves_op fuel cache inferences =>
      let s := snd (SelfplayGame.SelectLeaves fuel cache inferences g) in
      {| st_game := SelfplayGame.ls_game s;
         st_calls := SelfplayGame.ls_calls s;
         st_played := false;
         st_armed := SelfplayGame.inject_noise_before_next_read_
                       (SelfplayGame.ls_game s) |}
  | ProcessInferences_op model_name inferences =>
      let '(g', calls) :=
        SelfplayGame.ProcessInferences model_name inferences g in
      {| st_game := g'; st_calls := calls;
         st_played := false; st_armed := false |}
  | MaybePlayMove_op now =>
      let '(played, g', calls) := SelfplayGame.MaybePlayMove now g in
      {| st_game := g'; st_calls := calls;
         st_played := played; st_armed := false |}
  end.

Fixpoint run (ops : list Op) (g : SelfplayGame.t) : SelfplayGame.t :=
  match ops with
  | [] => g
  | op :: ops' => run ops' (st_game (step op g))
  end.


(** The number of calls of [MaybePlayMove] that answered true. *)
Fixpoint moves_played (ops : list Op) (g : SelfplayGame.t) : nat :=
  match ops with
  | [] => 0
  | op :: ops' =>
      ((if st_played (step op g) then 1 else 0)
       + moves_played ops' (st_game (step op g)))%nat
  end.


End Schedule.

(** ** Flags *)

(** The command-line flags, which the source keeps in [FLAGS_] globals. *)
Record Flags := {
  FLAGS_engine : string;
  FLAGS_device : string;
  FLAGS_model : string;
  FLAGS_cache_size_mb : Z;
  FLAGS_cache_shards : Z;
  FLAGS_num_readouts : Z;
  FLAGS_fastplay_frequency : Q;
  FLAGS_fastplay_readouts : Z;
  FLAGS_virtual_losses : Z;
  FLAGS_dirichlet_alpha : Q;
  FLAGS_noise_mix : Q;
  FLAGS_value_init_penalty : Q;
  FLAGS_target_pruning : bool;
  FLAGS_policy_softmax_temp : Q;
  FLAGS_restrict_in_bensons : bool;
  FLAGS_allow_pass : bool;
  FLAGS_selfplay_threads : Z;
  FLAGS_parallel_search : Z;
  FLAGS_parallel_inference : Z;
  FLAGS_concurrent_games_per_thread : Z;
  FLAGS_seed : Z;
  FLAGS_resign_threshold : Q;
  FLAGS_disable_resign_pct : Q;
  FLAGS_num_games : Z;
  FLAGS_run_forever : bool;
  FLAGS_holdout_pct : Q;
  FLAGS_output_dir : string;
  FLAGS_holdout_dir : string;
  FLAGS_sgf_dir : string;
  FLAGS_wtf_trace : string;
  FLAGS_verbose : bool
}.

(** The flags of a run that sets [model], [num_games] and [cache_size_mb]
    and leaves the others at the values the [DEFINE_] lines give. *)
Definition flags_of_command_line (model : string)
    (num_games cache_size_mb : Z) : Flags :=
  {| FLAGS_engine := "tf";
     FLAGS_device := "";
     FLAGS_model := model;
     FLAGS_cache_size_mb := cache_size_mb;
     FLAGS_cache_shards := 8;
     FLAGS_num_readouts := 104;
     FLAGS_fastplay_frequency := 0%Q;
     FLAGS_fastplay_readouts := 20;
     FLAGS_virtual_losses := 8;
     FLAGS_dirichlet_alpha := (3 # 100)%Q;
     FLAGS_noise_mix := (1 # 4)%Q;
     FLAGS_value_init_penalty := 2%Q;
     FLAGS_target_pruning := false;
     FLAGS_policy_softmax_temp := (49 # 50)%Q;
     FLAGS_restrict_in_bensons := false;
     FLAGS_allow_pass := true;
     FLAGS_selfplay_threads := 3;
     FLAGS_parallel_search := 3;
     FLAGS_parallel_inference := 2;
     FLAGS_concurrent_games_per_thread := 1;
     FLAGS_seed := 0;
     FLAGS_resign_threshold := (- (999 # 1000))%Q;
     FLAGS_disable_resign_pct := (1 # 10)%Q;
     FLAGS_num_games := num_games;
     FLAGS_run_forever := false;
     FLAGS_holdout_pct := (3 # 100)%Q;
     FLAGS_output_dir := "";
     FLAGS_holdout_dir := "";
     FLAGS_sgf_dir := "";
     FLAGS_wtf_trace := "/tmp/minigo.wtf-trace";
     FLAGS_verbose := true |}.

(** The values the [DEFINE_] lines give. *)
Definition default_flags : Flags := flags_of_command_line "" 0 0.

Definition set_FLAGS_concurrent_games_per_thread (v : Z) (f : Flags) : Flags :=
  {| FLAGS_engine := FLAGS_engine f;
     FLAGS_device := FLAGS_device f;
     FLAGS_model := FLAGS_model f;
     FLAGS_cache_size_mb := FLAGS_cache_size_mb f;
     FLAGS_cache_shards := FLAGS_cache_shards f;
     FLAGS_num_readouts := FLAGS_num_readouts f;
     FLAGS_fastplay_frequency := FLAGS_fastplay_frequency f;
     FLAGS_fastplay_readouts := FLAGS_fastplay_readouts f;
     FLAGS_virtual_losses := FLAGS_virtual_losses f;
     FLAGS_dirichlet_alpha := FLAGS_dirichlet_alpha f;
     FLAGS_noise_mix := FLAGS_noise_mix f;
     FLAGS_value_init_penalty := FLAGS_value_init_penalty f;
     FLAGS_target_pruning := FLAGS_target_pruning f;
     FLAGS_policy_softmax_temp := FLAGS_policy_softmax_temp f;
     FLAGS_restrict_in_bensons := FLAGS_restrict_in_bensons f;
     FLAGS_allow_pass := FLAGS_allow_pass f;
     FLAGS_selfplay_threads := FLAGS_selfplay_threads f;
     FLAGS_parallel_search := FLAGS_parallel_search f;
     FLAGS_parallel_inference := FLAGS_parallel_inference f;
     FLAGS_concurrent_games_per_thread := v;
     FLAGS_seed := FLAGS_seed f;
     FLAGS_resign_threshold := FLAGS_resign_threshold f;
     FLAGS_disable_resign_pct := FLAGS_disable_resign_pct f;
     FLAGS_num_games := FLAGS_num_games f;
     FLAGS_run_forever := FLAGS_run_forever f;
     FLAGS_holdout_pct := FLAGS_holdout_pct f;
     FLAGS_output_dir := FLAGS_output_dir f;
     FLAGS_holdout_dir := FLAGS_holdout_dir f;
     FLAGS_sgf_dir := FLAGS_sgf_dir f;
     FLAGS_wtf_trace := FLAGS_wtf_trace f;
     FLAGS_verbose := FLAGS_verbose f |}.

(** The number of games the process plays at once: each of the
    [selfplay_threads] threads holds [concurrent_games_per_thread] slots. *)
Definition parallel_games (f : Flags) : Z :=
  FLAGS_concurrent_games_per_thread f * FLAGS_selfplay_threads f.

(** ** Selfplayer *)

(** Which cache [Selfplayer::Run] builds, and with which arguments. *)
Inductive CacheChoice :=
| ThreadSafeInferenceCache_new (capacity : Z) (num_shards : Z)
| NullInferenceCache_new.

Module Selfplayer.
Section Selfplayer.
Context `{CacheOps}.

(** [flags] stands for the [FLAGS_] globals, which [ParseFlags] writes;
    [streams_] counts the generators made so far, each of which asks for a
    stream of its own ([Random::kUniqueStream]). *)
Record t := {
  flags : Flags;
  game_options_ : Game.Options;
  tree_options_ : TreeOptions;
  num_games_remaining_ : Z;
  rnd_ : Random;
  win_stats_ : list (option Game.GameOverReason);
  model_name_ : string;
  output_queue_ : list (option SelfplayGame.t);
  streams_ : Z
}.

(** The clamp of [ParseFlags].  The flags are [int32]: the sum is
    computed in [int]s, and the division faults when the divisor is 0, or
    when the most negative [int] is divided by -1; [None] is that fault. *)
Definition clamp_concurrent_games_per_thread (f : Flags) : option Flags :=
  if FLAGS_run_forever f then Some f
  else
    let sum :=
      int32 (int32 (FLAGS_num_games f + FLAGS_selfplay_threads f) - 1) in
    if (FLAGS_selfplay_threads f =? 0)
       || ((sum =? - 2 ^ 31) && (FLAGS_selfplay_threads f =? -1))
    then None
    else
      let max_concurrent_games_per_thread :=
        Z.quot sum (FLAGS_selfplay_threads f) in
      Some (set_FLAGS_concurrent_games_per_thread
              (Z.min max_concurrent_games_per_thread
                     (FLAGS_concurrent_games_per_thread f)) f).

(** [ParseFlags]; [None] is a failed [MG_CHECK], or the fault of the
    division. *)
Definition ParseFlags (sp : t) : option t :=
  let f := flags sp in
  if negb (if FLAGS_run_forever f then FLAGS_num_games f =? 0
           else 0 <? FLAGS_num_games f) then None
  else if bool_decide (FLAGS_model f = "") then None
  else
    f' ← clamp_concurrent_games_per_thread f;
    Some {| flags := f';
            game_options_ :=
              {| Game.resign_enabled := Game.resign_enabled (game_options_ sp);
                 Game.resign_threshold := (- Qabs (FLAGS_resign_threshold f))%Q;
                 Game.komi := Game.komi (game_options_ sp) |};
            tree_options_ :=
              {| value_init_penalty := FLAGS_value_init_penalty f;
                 policy_softmax_temp := FLAGS_policy_softmax_temp f;
                 soft_pick_enabled := true;
                 restrict_in_bensons := FLAGS_restrict_in_bensons f |};
            num_games_remaining_ := FLAGS_num_games f;
            rnd_ := rnd_ sp;
            win_stats_ := win_stats_ sp;
            model_name_ := model_name_ sp;
            output_queue_ := output_queue_ sp;
            streams_ := streams_ sp |}.

(** The constructor: the members' initial values, then [ParseFlags]. *)
Definition new (f : Flags) (default_game_options : Game.Options)
    (default_tree_options : TreeOptions) : option t :=
  ParseFlags {| flags := f;
                game_options_ := default_game_options;
                tree_options_ := default_tree_options;
                num_games_remaining_ := 0;
                rnd_ := Random_new (FLAGS_seed f) 0;
                win_stats_ := [];
                model_name_ := "";
                output_queue_ := [];
                streams_ := 1 |}.

(** The first statement of [Run]: create the inference cache. *)
Definition Run_inference_cache (sp : t) : CacheChoice :=
  if 0 <? FLAGS_cache_size_mb (flags sp) then
    let capacity := CalculateCapacity (FLAGS_cache_size_mb (flags sp)) in
    ThreadSafeInferenceCache_new capacity (FLAGS_cache_shards (flags sp))
  else NullInferenceCache_new.

Definition take_game (sp : t) (rnd : Random) : t :=
  {| flags := flags sp;
     game_options_ := game_options_ sp;
     tree_options_ := tree_options_ sp;
     num_games_remaining_ :=
       if FLAGS_run_forever (flags sp) then num_games_remaining_ sp
       else num_games_remaining_ sp - 1;
     rnd_ := rnd;
     win_stats_ := win_stats_ sp;
     model_name_ := model_name_ sp;
     output_queue_ := output_queue_ sp;
     streams_ := streams_ sp + 1 |}.

(** [StartNewGame]; [None] is the null pointer returned when no game is
    left to play.  [now] and [ansi] are what the constructor of the game
    reads from the clock and from the terminal. *)
Definition StartNewGame (verbose : bool) (now : Z) (ansi : bool) (sp : t)
    : option SelfplayGame.t * t :=
  let f := flags sp in
  if negb (FLAGS_run_forever f) && (num_games_remaining_ sp =? 0) then
    (None, sp)
  else
    let '(r1, rnd1) := rnd_uniform (rnd_ sp) in
    let game_options :=
      {| Game.resign_enabled := Qge_bool r1 (FLAGS_disable_resign_pct f);
         Game.resign_threshold := Game.resign_threshold (game_options_ sp);
         Game.komi := Game.komi (game_options_ sp) |} in
    let '(r2, rnd2) := rnd_uniform rnd1 in
    let selfplay_options :=
      {| SelfplayGame.num_virtual_losses := FLAGS_virtual_losses f;
         SelfplayGame.num_readouts := FLAGS_num_readouts f;
         SelfplayGame.fastplay_readouts := FLAGS_fastplay_readouts f;
         SelfplayGame.fastplay_frequency := FLAGS_fastplay_frequency f;
         SelfplayGame.dirichlet_alpha := FLAGS_dirichlet_alpha f;
         SelfplayGame.noise_mix := FLAGS_noise_mix f;
         SelfplayGame.is_holdout := Qlt_bool r2 (FLAGS_holdout_pct f);
         SelfplayGame.target_pruning := FLAGS_target_pruning f;
         SelfplayGame.verbose := verbose;
         SelfplayGame.allow_pass := FLAGS_allow_pass f |} in
    let game := Game.new (model_name_ sp) (model_name_ sp) game_options in
    let tree := MctsTree_new kBlack (tree_options_ sp) in
    (Some (SelfplayGame.new selfplay_options game tree ansi now
                            (FLAGS_seed f) (streams_ sp)),
     take_game sp rnd2).

(** [EndGame]: account for the result and queue the game for output. *)
Definition EndGame (selfplay_game : SelfplayGame.t) (sp : t) : t :=
  {| flags := flags sp;
     game_options_ := game_options_ sp;
     tree_options_ := tree_options_ sp;
     num_games_remaining_ := num_games_remaining_ sp;
     rnd_ := rnd_ sp;
     win_stats_ := win_stats_ sp ++
       [Game.game_over_reason (SelfplayGame.game_ selfplay_game)];
     model_name_ := model_name_ sp;
     output_queue_ := output_queue_ sp ++ [Some selfplay_game];
     streams_ := streams_ sp |}.

End Selfplayer.
End Selfplayer.

(** ** TreeSearcher *)

Module TreeSearcher.
Section TreeSearcher.
Context `{CacheOps}.

(** The span of inferences requested for one game.  The source keeps a
    pointer to the game; here it is the index of the game's slot in the
    array of its thread. *)
Record InferenceSpan := {
  selfplay_game : nat;
  pos : nat;
  len : nat
}.

Record t := {
  inferences_ : list Inference;
  inference_spans_ : list InferenceSpan
}.

Definition cleared : t := {| inferences_ := []; inference_spans_ := [] |}.

(** What a search leaves: the games searched, the cache, the searcher, and
    whether every game's selection loop ended within the fuel. *)
Record Searched := {
  sr_returned : bool;
  sr_games : list (option SelfplayGame.t);
  sr_cache : InferenceCache;
  sr_searcher : t
}.

(** The loop of [Search] over the slots of a span that starts at slot
    [first].  [None] is the dereference of a null slot. *)
Fixpoint Search_games (fuel : nat) (first : nat)
    (selfplay_games : list (option SelfplayGame.t))
    (cache : InferenceCache) (ts : t) : option Searched :=
  match selfplay_games with
  | [] => Some {| sr_returned := true; sr_games := []; sr_cache := cache;
                  sr_searcher := ts |}
  | slot :: rest =>
      g ← slot;
      let pos := length (inferences_ ts) in
      let '(ret, s) := SelfplayGame.SelectLeaves fuel cache (inferences_ ts) g in
      let len := Z.to_nat (SelfplayGame.ls_num_queued s) in
      let span := {| selfplay_game := first; pos := pos; len := len |} in
      let ts' :=
        {| inferences_ := SelfplayGame.ls_inferences s;
           inference_spans_ :=
             if (0 <? len)%nat then inference_spans_ ts ++ [span]
             else inference_spans_ ts |} in
      r ← Search_games fuel (S first) rest (SelfplayGame.ls_cache s) ts';
      Some {| sr_returned := ret && sr_returned r;
              sr_games := Some (SelfplayGame.ls_game s) :: sr_games r;
              sr_cache := sr_cache r;
              sr_searcher := sr_searcher r |}
  end.

(** Runs tree search on a span of games. *)
Definition Search (fuel : nat) (first : nat)
    (selfplay_games : list (option SelfplayGame.t))
    (cache : InferenceCache) : option Searched :=
  Search_games fuel first selfplay_games cache cleared.

End TreeSearcher.
End TreeSearcher.

(** ** SelfplayThread *)

(** Modelled from the spec: [ShardedExecutor::GetShardRange]
    (cc/async/sharded_executor.h) is not among the sources.  It splits the
    elements as evenly as possible, the remainder going to the shards of
    lowest index. *)
Definition GetShardRange (shard_idx num_shards num_elements : nat) : nat * nat :=
  let q := (num_elements / num_shards)%nat in
  let r := (num_elements mod num_shards)%nat in
  let b := (shard_idx * q + Nat.min shard_idx r)%nat in
  (b, (b + q + (if (shard_idx <? r)%nat then 1 else 0))%nat).

Module SelfplayThread.
Section SelfplayThread.
Context `{CacheOps}.

Record t := {
  selfplay_games_ : list (option SelfplayGame.t);
  searchers_ : list TreeSearcher.t;
  thread_id_ : Z
}.

(** The constructor sizes the array of games; the searchers, which [Run]
    makes before its loop, are made here as well. *)
Definition new (thread_id : Z) (f : Flags) : t :=
  {| selfplay_games_ :=
       replicate (Z.to_nat (FLAGS_concurrent_games_per_thread f)) None;
     searchers_ := replicate (Z.to_nat (FLAGS_parallel_search f))
                             TreeSearcher.cleared;
     thread_id_ := thread_id |}.

(** Moves the last element into position [i] and pops the back. *)
Definition remove_slot (i : nat) (games : list (option SelfplayGame.t))
    : list (option SelfplayGame.t) :=
  take (length games - 1) (<[i := default None (last games)]> games).

(** The loop of [StartNewGames] from index [i] on. *)
Equations? StartNewGames_from (thread_id now : Z) (ansi : bool) (i : nat)
    (games : list (option SelfplayGame.t)) (sp : Selfplayer.t)
    : list (option SelfplayGame.t) * Selfplayer.t
    by wf (length games - i)%nat lt :=
  StartNewGames_from thread_id now ansi i games sp
    with lt_dec i (length games) := {
    | right _ := (games, sp);
    | left Hlt with games !! i := {
        | Some (Some _) :=
            StartNewGames_from thread_id now ansi (S i) games sp;
        | Some None
            with Selfplayer.StartNewGame
                   (FLAGS_verbose (Selfplayer.flags sp)
                    && (thread_id =? 0) && (i =? 0)%nat) now ansi sp := {
            | (Some selfplay_game, sp') :=
                StartNewGames_from thread_id now ansi (S i)
                  (<[i := Some selfplay_game]> games) sp';
            | (None, sp') :=
                StartNewGames_from thread_id now ansi i
                  (remove_slot i games) sp' };
        | None := (games, sp) } }.
Proof.
  - lia.
  - rewrite length_insert. lia.
  - unfold remove_slot. rewrite length_take, length_insert. lia.
Qed.

(** Starts new games playing. *)
Definition StartNewGames (now : Z) (ansi : bool) (th : t) (sp : Selfplayer.t)
    : t * Selfplayer.t :=
  let '(games, sp') :=
    StartNewGames_from (thread_id_ th) now ansi 0 (selfplay_games_ th) sp in
  ({| selfplay_games_ := games; searchers_ := searchers_ th;
      thread_id_ := thread_id_ th |}, sp').

Record Selected := {
  sl_returned : bool;
  sl_games : list (option SelfplayGame.t);
  sl_cache : InferenceCache;
  sl_searchers : list TreeSearcher.t
}.

(** The function [SelectLeaves] hands to [ExecuteSharded], run for the
    shards listed, one after the other. *)
Fixpoint SelectLeaves_shards (fuel : nat) (num_shards : nat)
    (shards : list nat) (games : list (option SelfplayGame.t))
    (cache : InferenceCache) (searchers : list TreeSearcher.t)
    : option Selected :=
  match shards with
  | [] => Some {| sl_returned := true; sl_games := games; sl_cache := cache;
                  sl_searchers := searchers |}
  | i :: rest =>
      let '(b, e) := GetShardRange i num_shards (length games) in
      r ← TreeSearcher.Search fuel b (take (e - b) (drop b games)) cache;
      let games' := take b games ++ TreeSearcher.sr_games r ++ drop e games in
      r' ← SelectLeaves_shards fuel num_shards rest games'
             (TreeSearcher.sr_cache r)
             (<[i := TreeSearcher.sr_searcher r]> searchers);
      Some {| sl_returned := TreeSearcher.sr_returned r && sl_returned r';
              sl_games := sl_games r'; sl_cache := sl_cache r';
              sl_searchers := sl_searchers r' |}
  end.

(** Selects leaves to perform inference on for all currently playing
    games.  [None] is the dereference of a null slot. *)
Definition SelectLeaves (fuel : nat) (cache : InferenceCache) (th : t)
    : option Selected :=
  let n := length (searchers_ th) in
  SelectLeaves_shards fuel n (seq 0 n) (selfplay_games_ th) cache
                      (searchers_ th).

(** Plays moves on all games that have performed sufficient reads. *)
Fixpoint PlayMoves_slots (now : Z) (games : list (option SelfplayGame.t))
    (sp : Selfplayer.t)
    : option (list (option SelfplayGame.t) * Selfplayer.t) :=
  match games with
  | [] => Some ([], sp)
  | slot :: rest =>
      g ← slot;
      let '(played, g', _) := SelfplayGame.MaybePlayMove now g in
      let '(slot', sp') :=
        if played && Game.game_over (SelfplayGame.game_ g')
        then (None, Selfplayer.EndGame g' sp)
        else (Some g', sp) in
      '(rest', sp'') ← PlayMoves_slots now rest sp';
      Some (slot' :: rest', sp'')
  end.

Definition PlayMoves (now : Z) (th : t) (sp : Selfplayer.t)
    : option (t * Selfplayer.t) :=
  '(games, sp') ← PlayMoves_slots now (selfplay_games_ th) sp;
  Some ({| selfplay_games_ := games; searchers_ := searchers_ th;
           thread_id_ := thread_id_ th |}, sp').

(** Writes the outputs of a batch into the inferences they belong to. *)
Fixpoint fill_outputs (inferences : list Inference)
    (outputs : list ModelOutput) : list Inference * list ModelOutput :=
  match inferences, outputs with
  | x :: inferences', o :: outputs' =>
      let '(filled, remaining) := fill_outputs inferences' outputs' in
      ({| cache_key := cache_key x; leaf := leaf x; input := input x;
          output := o |} :: filled, remaining)
  | _, _ => (inferences, outputs)
  end.

Fixpoint fill_searchers (searchers : list TreeSearcher.t)
    (outputs : list ModelOutput) : list TreeSearcher.t :=
  match searchers with
  | [] => []
  | s :: rest =>
      let '(filled, remaining) := fill_outputs (TreeSearcher.inferences_ s) outputs in
      {| TreeSearcher.inferences_ := filled;
         TreeSearcher.inference_spans_ := TreeSearcher.inference_spans_ s |}
      :: fill_searchers rest remaining
  end.

(** Runs inference on the leaves selected by [SelectLeaves] and returns
    the name of the model that ran them.  [RunMany] is the method of the
    model the thread acquires from the pool. *)
Definition RunInferences
    (RunMany : list ModelInput -> list ModelOutput * string) (th : t)
    : string * t :=
  let inputs :=
    concat (map (fun s => map input (TreeSearcher.inferences_ s))
                (searchers_ th)) in
  match inputs with
  | [] => ("", th)
  | _ =>
      let '(outputs, model_name) := RunMany inputs in
      (model_name,
       {| selfplay_games_ := selfplay_games_ th;
          searchers_ := fill_searchers (searchers_ th) outputs;
          thread_id_ := thread_id_ th |})
  end.

(** The canonical symmetry of a leaf is the one its key was made with. *)
Definition merge_inferences (inferences : list Inference)
    (cache : InferenceCache) : InferenceCache :=
  fold_left (fun c x =>
               Merge (cache_key x) (key_canonical_symmetry (cache_key x))
                     (sym (input x)) (output x) c)
            inferences cache.

Fixpoint process_spans (model_name : string) (inferences : list Inference)
    (spans : list TreeSearcher.InferenceSpan)
    (games : list (option SelfplayGame.t))
    : option (list (option SelfplayGame.t)) :=
  match spans with
  | [] => Some games
  | span :: rest =>
      slot ← games !! TreeSearcher.selfplay_game span;
      g ← slot;
      let '(g', _) :=
        SelfplayGame.ProcessInferences model_name
          (take (TreeSearcher.len span)
                (drop (TreeSearcher.pos span) inferences)) g in
      process_spans model_name inferences rest
        (<[TreeSearcher.selfplay_game span := Some g']> games)
  end.

Fixpoint ProcessInferences_searchers (model_name : string)
    (searchers : list TreeSearcher.t)
    (games : list (option SelfplayGame.t)) (cache : InferenceCache)
    : option (list (option SelfplayGame.t) * InferenceCache) :=
  match searchers with
  | [] => Some (games, cache)
  | s :: rest =>
      let cache' := merge_inferences (TreeSearcher.inferences_ s) cache in
      games' ← process_spans model_name (TreeSearcher.inferences_ s)
                 (TreeSearcher.inference_spans_ s) games;
      ProcessInferences_searchers model_name rest games' cache'
  end.

(** Calls [SelfplayGame::ProcessInferences] for all inferences performed. *)
Definition ProcessInferences (model_name : string) (cache : InferenceCache)
    (th : t) : option (t * InferenceCache) :=
  '(games, cache') ← ProcessInferences_searchers model_name (searchers_ th)
                       (selfplay_games_ th) cache;
  Some ({| selfplay_games_ := games; searchers_ := searchers_ th;
           thread_id_ := thread_id_ th |}, cache').

(** What one pass of the loop of [Run] reads from outside the thread. *)
Record Env := {
  env_now : Z;
  env_ansi : bool;
  env_fuel : nat;
  env_RunMany : list ModelInput -> list ModelOutput * string
}.

(** One pass of the loop of [Run].  A selection loop that has not ended
    after [env_fuel] passes is cut there, which [sl_returned] tells. *)
Definition Run_cycle (env : Env) (cache : InferenceCache) (th : t)
    (sp : Selfplayer.t) : option (t * Selfplayer.t * InferenceCache) :=
  let '(th1, sp1) := StartNewGames (env_now env) (env_ansi env) th sp in
  sel ← SelectLeaves (env_fuel env) cache th1;
  let th2 := {| selfplay_games_ := sl_games sel;
                searchers_ := sl_searchers sel;
                thread_id_ := thread_id_ th1 |} in
  let '(model_name, th3) := RunInferences (env_RunMany env) th2 in
  '(th4, cache') ← ProcessInferences model_name (sl_cache sel) th3;
  '(th5, sp2) ← PlayMoves (env_now env) th4 sp1;
  Some (th5, sp2, cache').

(** [Run], for the passes the list gives an environment for; it stops
    early when no slot is left. *)
Fixpoint Run (envs : list Env) (cache : InferenceCache) (th : t)
    (sp : Selfplayer.t) : option (t * Selfplayer.t * InferenceCache) :=
  match envs with
  | [] => Some (th, sp, cache)
  | env :: rest =>
      match selfplay_games_ th with
      | [] => Some (th, sp, cache)
      | _ =>
          '(th', sp', cache') ← Run_cycle env cache th sp;
          Run rest cache' th' sp'
      end
  end.

End SelfplayThread.
End SelfplayThread.

(** ** OutputThread *)

(** What the output thread asks of the helpers it calls: the hour stamp
    [absl::FormatTime("%Y-%m-%d-%H", now, UTC)], [file::JoinPath] and
    [GetOutputName]. *)
Class OutputOps := {
  FormatTime : Z -> string;
  JoinPath : string -> string -> string;
  GetOutputName : Z -> string
}.

Definition GetOutputDir `{OutputOps} (now : Z) (root_dir : string) : string :=
  JoinPath root_dir (FormatTime now).

(** [absl::StrJoin]. *)
Fixpoint StrJoin (l : list string) (sep : string) : string :=
  match l with
  | [] => ""
  | [x] => x
  | x :: rest => x +:+ sep +:+ StrJoin rest sep
  end.

(** What the output thread does to a game, in program order. *)
Inductive Output :=
| AddComment_out (game_id : Z) (comment : string)
| LogEndGameInfo_out (game_id : Z) (duration : Z)
| WriteSgf_out (output_dir output_name : string) (write_comments : bool)
| WriteGameExamples_out (output_dir output_name : string).

Module OutputThread.
Section OutputThread.
Context `{MctsOps} `{OutputOps}.

Record t := {
  output_dir_ : string;
  holdout_dir_ : string;
  sgf_dir_ : string
}.

Definition new (f : Flags) : t :=
  {| output_dir_ := FLAGS_output_dir f;
     holdout_dir_ := FLAGS_holdout_dir f;
     sgf_dir_ := FLAGS_sgf_dir f |}.

(** [WriteOutputs]; [verbose] is [FLAGS_verbose] and [now] what the clock
    answers. *)
Definition WriteOutputs (verbose : bool) (game_id now : Z)
    (selfplay_game : SelfplayGame.t) (ot : t) : list Output :=
  let output_name := GetOutputName game_id in
  let comment :=
    "Inferences: [" +:+ StrJoin (SelfplayGame.models_used_ selfplay_game) ", "
    +:+ "]" in
  let example_dir :=
    if SelfplayGame.is_holdout (SelfplayGame.options_ selfplay_game)
    then holdout_dir_ ot else output_dir_ ot in
  [AddComment_out game_id comment]
  ++ (if verbose
      then [LogEndGameInfo_out game_id (SelfplayGame.duration_ selfplay_game)]
      else [])
  ++ (if bool_decide (sgf_dir_ ot = "") then []
      else [WriteSgf_out (GetOutputDir now (JoinPath (sgf_dir_ ot) "clean"))
                         output_name false;
            WriteSgf_out (GetOutputDir now (JoinPath (sgf_dir_ ot) "full"))
                         output_name true])
  ++ (if bool_decide (example_dir = "") then []
      else [WriteGameExamples_out (GetOutputDir now example_dir) output_name]).

(** What [Run] leaves: the outputs made, the part of the queue not popped,
    and whether the thread ended; it has not when the queue ran empty
    before a null pointer came, where [Pop] blocks. *)
Record Ran := {
  outputs : list Output;
  unpopped : list (option SelfplayGame.t);
  ended : bool
}.

(** The loop of [Run] from [game_id] on, over what will be pushed on the
    queue; [clock] gives the time at which each game is written.
    [game_id] is an [int] in the source; its overflow, after 2^31 games,
    is undefined there and is not modelled. *)
Fixpoint Run_from (verbose : bool) (clock : Z -> Z) (game_id : Z)
    (queue : list (option SelfplayGame.t)) (ot : t) : Ran :=
  match queue with
  | [] => {| outputs := []; unpopped := []; ended := false |}
  | None :: rest => {| outputs := []; unpopped := rest; ended := true |}
  | Some selfplay_game :: rest =>
      let r := Run_from verbose clock (game_id + 1) rest ot in
      {| outputs := WriteOutputs verbose game_id (clock game_id)
                                 selfplay_game ot ++ outputs r;
         unpopped := unpopped r;
         ended := ended r |}
  end.

Definition Run (verbose : bool) (clock : Z -> Z)
    (queue : list (option SelfplayGame.t)) (ot : t) : Ran :=
  Run_from verbose clock 0 queue ot.

End OutputThread.
End OutputThread.

(** The end of [Selfplayer::Run], once the selfplay threads are joined:
    push a null pointer, let the output thread run to its end, and check
    that the queue is empty.  The queue is first in, first out, so the
    output thread pops what was pushed, in that order.  [None] is a failed
    [MG_CHECK]. *)
Definition Selfplayer_Run_stop `{CacheOps} `{OutputOps} (clock : Z -> Z)
    (sp : Selfplayer.t) : option (list Output) :=
  let r := OutputThread.Run (FLAGS_verbose (Selfplayer.flags sp)) clock
             (Selfplayer.output_queue_ sp ++ [None])
             (OutputThread.new (Selfplayer.flags sp)) in
  match OutputThread.ended r, OutputThread.unpopped r with
  | true, [] => Some (OutputThread.outputs r)
  | _, _ => None
  end.

(** ** A small implementation of the collaborator interfaces

    A game in which every position has exactly one legal move and which is
    over after [line_length] moves: the tree is a line, a node is its
    depth, and a search reads the first node that has not been expanded. *)

Module Line.

Definition next (s : Z) : Z := (75 * s + 74) mod 65537.

#[export] Instance random : RandomOps :=
  {| Random := Z;
     Random_new := fun seed stream => (seed + stream) mod 65537;
     rnd_uniform := fun s => (Qmake (s mod 100) 100, next s);
     UniformUint64 := fun s => (s, next s);
     Dirichlet := fun _ s => ([], next s);
     MixBits := fun x => x;
     kLargePrime := 1 |}.

Record Tree := {
  line_root : nat;
  line_frontier : nat;
  line_visits : list Z;
  line_pending : list nat;
  line_length : nat;
  line_Q : Q;
  line_noise : nat
}.

(** Adds one visit to the first [n] nodes from the root down. *)
Fixpoint bump (n : nat) (visits : list Z) : list Z :=
  match n with
  | O => visits
  | S n' => (hd 0 visits + 1) :: bump n' (tl visits)
  end.

Fixpoint remove_first (x : nat) (l : list nat) : list nat :=
  match l with
  | [] => []
  | y :: l' => if (x =? y)%nat then l' else y :: remove_first x l'
  end.

Definition visit (leaf : nat) (expand : bool) (t : Tree) : Tree :=
  {| line_root := line_root t;
     line_frontier :=
       if expand && (leaf =? line_frontier t)%nat then S (line_frontier t)
       else line_frontier t;
     line_visits := bump (S (leaf - line_root t)) (line_visits t);
     line_pending := line_pending t;
     line_length := line_length t;
     line_Q := line_Q t;
     line_noise := line_noise t |}.

Definition with_pending (pending : list nat) (t : Tree) : Tree :=
  {| line_root := line_root t; line_frontier := line_frontier t;
     line_visits := line_visits t; line_pending := pending;
     line_length := line_length t; line_Q := line_Q t;
     line_noise := line_noise t |}.

#[export] Instance mcts : MctsOps :=
  {| MctsTree := Tree;
     MctsNode := nat;
     Position := nat;
     node_game_over := fun t d => (line_length t <=? d)%nat;
     node_at_move_limit := fun _ _ => false;
     node_position := fun _ d => d;
     node_parent := fun _ d => match d with O => None | S d' => Some d' end;
     node_move := fun _ d => Z.of_nat d;
     node_canonical_symmetry := fun _ _ => 0;
     node_N := fun t d => nth (d - line_root t) (line_visits t) 0;
     node_Q := fun t _ => line_Q t;
     node_Q_perspective := fun t _ => line_Q t;
     Position_CalculateScore := fun _ komi => (1 - komi)%Q;
     stone_hash := fun p => Z.of_nat p;
     root := line_root;
     SelectLeaf := fun _ t =>
       if existsb (Nat.eqb (line_frontier t)) (line_pending t) then (None, t)
       else (Some (line_frontier t), t);
     IncorporateResults := fun leaf _ _ t => visit leaf true t;
     IncorporateEndGameResult := fun leaf _ t => visit leaf false t;
     AddVirtualLoss := fun leaf t => with_pending (leaf :: line_pending t) t;
     RevertVirtualLoss := fun leaf t =>
       with_pending (remove_first leaf (line_pending t)) t;
     InjectNoise := fun _ _ t =>
       {| line_root := line_root t; line_frontier := line_frontier t;
          line_visits := line_visits t; line_pending := line_pending t;
          line_length := line_length t; line_Q := line_Q t;
          line_noise := S (line_noise t) |};
     PickMove := fun rnd t => (Z.of_nat (line_root t), rnd);
     CalculateSearchPi := fun _ => [1%Q];
     ReshapeFinalVisits := fun t => t;
     PlayMove := fun _ t =>
       {| line_root := S (line_root t);
          line_frontier := Nat.max (S (line_root t)) (line_frontier t);
          line_visits := tl (line_visits t);
          line_pending := line_pending t;
          line_length := line_length t; line_Q := line_Q t;
          line_noise := line_noise t |};
     ClearSubtrees := fun t =>
       {| line_root := line_root t; line_frontier := line_root t;
          line_visits := [hd 0 (line_visits t)];
          line_pending := [];
          line_length := line_length t; line_Q := line_Q t;
          line_noise := line_noise t |};
     at_move_limit := fun _ => false;
     is_game_over := fun t => (line_length t <=? line_root t)%nat;
     CalculateScore := fun _ komi => (1 - komi)%Q;
     to_play := fun t => if Nat.even (line_root t) then kBlack else kWhite;
     kResign := -1;
     position_history_capacity := 8%nat;
     MctsTree_new := fun _ _ =>
       {| line_root := 0; line_frontier := 0; line_visits := [];
          line_pending := []; line_length := 4; line_Q := 0%Q;
          line_noise := 0 |} |}.

(** A cache that remembers the positions merged into it. *)
#[export] Instance cache : CacheOps :=
  {| InferenceCache := list nat;
     CalculateCapacity := fun mb => mb * 1024;
     TryGet := fun key _ _ c =>
       if existsb (Nat.eqb (key_position key)) c
       then (Some {| policy := [1%Q]; value := 0%Q |}, c)
       else (None, c);
     Merge := fun key _ _ _ c => key_position key :: c |}.

Definition options (readouts fast_readouts : Z) (frequency : Q)
    : SelfplayGame.Options :=
  {| SelfplayGame.num_virtual_losses := 8;
     SelfplayGame.num_readouts := readouts;
     SelfplayGame.fastplay_readouts := fast_readouts;
     SelfplayGame.fastplay_frequency := frequency;
     SelfplayGame.dirichlet_alpha := (3 # 100)%Q;
     SelfplayGame.noise_mix := (1 # 4)%Q;
     SelfplayGame.is_holdout := false;
     SelfplayGame.target_pruning := false;
     SelfplayGame.verbose := false;
     SelfplayGame.allow_pass := true |}.

Definition game_options (resign : bool) : Game.Options :=
  {| Game.resign_enabled := resign;
     Game.resign_threshold := (- (999 # 1000))%Q;
     Game.komi := (15 # 2)%Q |}.

Definition tree_options : TreeOptions :=
  {| value_init_penalty := 2%Q; policy_softmax_temp := (49 # 50)%Q;
     soft_pick_enabled := true; restrict_in_bensons := false |}.

(** A game as [Selfplayer::StartNewGame] makes it, on a fresh tree. *)
Definition new_game (readouts fast_readouts : Z) (frequency : Q) (seed : Z)
    : SelfplayGame.t :=
  SelfplayGame.new (options readouts fast_readouts frequency)
    (Game.new "m" "m" (game_options true))
    (MctsTree_new kBlack tree_options) false 0 seed 1.

Definition empty_cache : InferenceCache := [].
Definition no_inferences : list Inference := [].

(** One pass of a thread over one game with an empty cache: select
    leaves, process the inferences queued, maybe play a move. *)
Definition ops_of_cycle (g : SelfplayGame.t) : list Op :=
  let s := snd (SelfplayGame.SelectLeaves 100 empty_cache no_inferences g) in
  [SelectLeaves_op 100 empty_cache no_inferences;
   ProcessInferences_op "m" (SelfplayGame.ls_inferences s);
   MaybePlayMove_op 0].

Fixpoint ops_of_cycles (n : nat) (g : SelfplayGame.t) : list Op :=
  match n with
  | O => []
  | S n' => ops_of_cycle g ++ ops_of_cycles n' (run (ops_of_cycle g) g)
  end.

(** A game at its start, with two reads a move and no fast play. *)
Definition fresh_game : SelfplayGame.t := new_game 2 1 0 0.




(** A game in which every move is a fast play but the first. *)
Definition always_fast_game : SelfplayGame.t := new_game 1 1 1 0.

(** A game that has read its root once, with two reads to make for the
    move: the next call of [SelectLeaves] makes two passes. *)
Definition expanded_game : SelfplayGame.t :=
  run (take 2 (ops_of_cycle fresh_game)) fresh_game.

(** A game with six reads a move whose search has reached the end of the
    line: the next leaf selected is a finished position. *)
Definition deep_game : SelfplayGame.t :=
  run (ops_of_cycles 4 (new_game 6 1 0 0)) (new_game 6 1 0 0).

(** [always_fast_game] after its first move: a fast play is being read,
    and the root is the next leaf. *)
Definition fast_game : SelfplayGame.t :=
  run (ops_of_cycles 1 (new_game 1 1 1 0)) (new_game 1 1 1 0).

(** A tree whose root is judged lost by the side to move, and a game on
    it that has read the root and may resign. *)
Definition lost_tree : Tree :=
  {| line_root := 0; line_frontier := 0; line_visits := [];
     line_pending := []; line_length := 4; line_Q := (-1)%Q;
     line_noise := 0 |}.

Definition lost_game : SelfplayGame.t :=
  let g := SelfplayGame.new (options 1 1 0)
             (Game.new "m" "m" (game_options true)) lost_tree false 0 0 1 in
  run (take 2 (ops_of_cycle g)) g.

(** A game that has read its root once and has one read to make per move,
    so that its next call of [MaybePlayMove] plays a move. *)
Definition ready_game : SelfplayGame.t :=
  let g := new_game 1 1 0 0 in
  run (take 2 (ops_of_cycle g)) g.


(** File names for the output thread: the hour of a time given in
    seconds, paths joined with a slash, and a name made from the last
    digit of the game's number. *)
#[export] Instance output : OutputOps :=
  {| FormatTime := fun now =>
       if now <? 3600 then "1970-01-01-00" else "1970-01-01-01";
     JoinPath := fun a b => a +:+ "/" +:+ b;
     GetOutputName := fun game_id =>
       "game-" +:+ String (Ascii.ascii_of_nat (48 + Z.to_nat (game_id mod 10)))
                          EmptyString |}.

(** The flags of a run that sets [model] to "m" and [run_forever],
    [num_games], [concurrent_games_per_thread] and the three output
    directories as given. *)
Definition flags_with (run_forever : bool) (num_games per_thread : Z)
    (output_dir holdout_dir sgf_dir : string) : Flags :=
  let f := flags_of_command_line "m" num_games 1 in
  {| FLAGS_engine := FLAGS_engine f;
     FLAGS_device := FLAGS_device f;
     FLAGS_model := FLAGS_model f;
     FLAGS_cache_size_mb := FLAGS_cache_size_mb f;
     FLAGS_cache_shards := FLAGS_cache_shards f;
     FLAGS_num_readouts := 1;
     FLAGS_fastplay_frequency := FLAGS_fastplay_frequency f;
     FLAGS_fastplay_readouts := FLAGS_fastplay_readouts f;
     FLAGS_virtual_losses := FLAGS_virtual_losses f;
     FLAGS_dirichlet_alpha := FLAGS_dirichlet_alpha f;
     FLAGS_noise_mix := FLAGS_noise_mix f;
     FLAGS_value_init_penalty := FLAGS_value_init_penalty f;
     FLAGS_target_pruning := FLAGS_target_pruning f;
     FLAGS_policy_softmax_temp := FLAGS_policy_softmax_temp f;
     FLAGS_restrict_in_bensons := FLAGS_restrict_in_bensons f;
     FLAGS_allow_pass := FLAGS_allow_pass f;
     FLAGS_selfplay_threads := FLAGS_selfplay_threads f;
     FLAGS_parallel_search := FLAGS_parallel_search f;
     FLAGS_parallel_inference := FLAGS_parallel_inference f;
     FLAGS_concurrent_games_per_thread := per_thread;
     FLAGS_seed := FLAGS_seed f;
     FLAGS_resign_threshold := (999 # 1000)%Q;
     FLAGS_disable_resign_pct := FLAGS_disable_resign_pct f;
     FLAGS_num_games := num_games;
     FLAGS_run_forever := run_forever;
     FLAGS_holdout_pct := FLAGS_holdout_pct f;
     FLAGS_output_dir := output_dir;
     FLAGS_holdout_dir := holdout_dir;
     FLAGS_sgf_dir := sgf_dir;
     FLAGS_wtf_trace := FLAGS_wtf_trace f;
     FLAGS_verbose := FLAGS_verbose f |}.

(** The orchestrator as its constructor leaves it before [ParseFlags], and
    after it. *)
Definition unparsed (f : Flags) : Selfplayer.t :=
  {| Selfplayer.flags := f;
     Selfplayer.game_options_ := game_options true;
     Selfplayer.tree_options_ := tree_options;
     Selfplayer.num_games_remaining_ := 0;
     Selfplayer.rnd_ := Random_new (FLAGS_seed f) 0;
     Selfplayer.win_stats_ := [];
     Selfplayer.model_name_ := "";
     Selfplayer.output_queue_ := [];
     Selfplayer.streams_ := 1 |}.

Definition orchestrator (f : Flags) : Selfplayer.t :=
  default (unparsed f) (Selfplayer.ParseFlags (unparsed f)).

(** A run of three games on three threads that asks for four games a
    thread, and a run without end. *)
Definition three_games : Flags := flags_with false 3 4 "out" "holdout" "sgf".
Definition forever : Flags := flags_with true 0 4 "out" "" "".

(** A thread with the slots given and one searcher. *)
Definition thread (slots : list (option SelfplayGame.t)) : SelfplayThread.t :=
  {| SelfplayThread.selfplay_games_ := slots;
     SelfplayThread.searchers_ := [TreeSearcher.cleared];
     SelfplayThread.thread_id_ := 0 |}.

(** A searcher that has searched the one game [g]. *)
Definition searched (g : SelfplayGame.t) : TreeSearcher.t :=
  let s := snd (SelfplayGame.SelectLeaves 100 empty_cache no_inferences g) in
  {| TreeSearcher.inferences_ := SelfplayGame.ls_inferences s;
     TreeSearcher.inference_spans_ :=
       [{| TreeSearcher.selfplay_game := 0; TreeSearcher.pos := 0;
           TreeSearcher.len := Z.to_nat (SelfplayGame.ls_num_queued s) |}] |}.

(** A model that answers every input with the same output. *)
Definition constant_model (inputs : list ModelInput)
    : list ModelOutput * string :=
  (map (fun _ => {| policy := [1%Q]; value := (1 # 2)%Q |}) inputs, "m").

(** A game with resignation disabled on a tree whose root is judged
    lost. *)
Definition stubborn_game : SelfplayGame.t :=
  SelfplayGame.new (options 1 1 0) (Game.new "m" "m" (game_options false))
    lost_tree false 0 0 1.


Definition start3 (sp : Selfplayer.t) : Selfplayer.t :=
  snd (Selfplayer.StartNewGame false 0 false
         (snd (Selfplayer.StartNewGame false 0 false
                 (snd (Selfplayer.StartNewGame false 0 false sp))))).

Definition exhausted : Selfplayer.t := start3 (orchestrator three_games).

(** What a pass of a thread's loop reads from outside: time 0, no
    colours, a hundred passes of the selection loop at most, and the
    constant model. *)
Definition env : SelfplayThread.Env :=
  {| SelfplayThread.env_now := 0; SelfplayThread.env_ansi := false;
     SelfplayThread.env_fuel := 100;
     SelfplayThread.env_RunMany := constant_model |}.

End Line.

(** * Properties *)

(** ** 32-bit integers *)

Lemma int32_range (x : Z) : - 2 ^ 31 <= int32 x < 2 ^ 31.
Proof.
  unfold int32. pose proof (Z.mod_pos_bound (x + 2 ^ 31) (2 ^ 32)). lia.
Qed.

(** A value that fits is kept. *)
Lemma int32_id (x : Z) : - 2 ^ 31 <= x < 2 ^ 31 -> int32 x = x.
Proof. intros Hx. unfold int32. rewrite Z.mod_small; lia. Qed.

Lemma int32_sub_l (x y : Z) : int32 (int32 x - y) = int32 (x - y).
Proof.
  unfold int32.
  replace ((x + 2 ^ 31) mod 2 ^ 32 - 2 ^ 31 - y + 2 ^ 31)
    with ((x + 2 ^ 31) mod 2 ^ 32 + (- y)) by lia.
  rewrite Zplus_mod_idemp_l. f_equal. f_equal. lia.
Qed.

(** ** Call lists *)

Section Calls.
Context `{MctsOps}.

Lemma virtual_losses_added_app (a b : list Call) :
  virtual_losses_added (a ++ b)
  = virtual_losses_added a ++ virtual_losses_added b.
Proof. unfold virtual_losses_added. apply omap_app. Qed.

Lemma virtual_losses_reverted_app (a b : list Call) :
  virtual_losses_reverted (a ++ b)
  = virtual_losses_reverted a ++ virtual_losses_reverted b.
Proof. unfold virtual_losses_reverted. apply omap_app. Qed.

Lemma noise_injections_app (a b : list Call) :
  noise_injections (a ++ b) = (noise_injections a + noise_injections b)%nat.
Proof.
  unfold noise_injections. rewrite List.filter_app, length_app. reflexivity.
Qed.

Lemma SelectLeaf_calls_app (a b : list Call) :
  SelectLeaf_calls (a ++ b) = (SelectLeaf_calls a + SelectLeaf_calls b)%nat.
Proof.
  unfold SelectLeaf_calls. rewrite List.filter_app, length_app. reflexivity.
Qed.

End Calls.

Ltac calls_app :=
  rewrite ?virtual_losses_added_app, ?virtual_losses_reverted_app,
          ?noise_injections_app, ?SelectLeaf_calls_app.

(** ** Leaf selection *)

Section LeafSelection.
Context `{CacheOps}.

Import SelfplayGame.

(** [g'] is [g] but for its tree and its noise flag, and the flag is set
    only if it was set already or the move is not a fast play. *)
Definition frame (g g' : SelfplayGame.t) : Prop :=
  g' = set_inject_noise_before_next_read_ (inject_noise_before_next_read_ g')
         (set_tree_ (tree_ g') g)
  /\ (inject_noise_before_next_read_ g' = true ->
      inject_noise_before_next_read_ g = true \/ fastplay_ g = false).

(** What a stretch of the selection loop adds to the search state: the
    inferences [queued] and the calls [calls], with a virtual loss added
    for each inference queued and for nothing else. *)
Definition progress (s s' : LeafSearch) : Prop :=
  exists (queued : list Inference) (calls : list Call),
    ls_inferences s' = ls_inferences s ++ queued
    /\ ls_calls s' = ls_calls s ++ calls
    /\ ls_num_queued s' = ls_num_queued s + Z.of_nat (length queued)
    /\ virtual_losses_added calls = map leaf queued
    /\ virtual_losses_reverted calls = []
    /\ noise_injections calls = 0%nat
    /\ frame (ls_game s) (ls_game s').

Lemma frame_refl g : frame g g.
Proof. split; [destruct g; reflexivity | auto]. Qed.

Lemma frame_trans g1 g2 g3 : frame g1 g2 -> frame g2 g3 -> frame g1 g3.
Proof.
  intros [E12 F12] [E23 F23]. split.
  - rewrite E23 at 1. rewrite E12 at 1. destruct g1; reflexivity.
  - intros H3. destruct (F23 H3) as [H2 | H2]; [auto |].
    right. rewrite E12 in H2. exact H2.
Qed.

Lemma frame_set_tree tree g : frame g (set_tree_ tree g).
Proof. split; [destruct g; reflexivity | auto]. Qed.

Lemma progress_refl s : progress s s.
Proof.
  exists [], []. rewrite !app_nil_r. simpl.
  split_and!; auto using frame_refl; lia.
Qed.

Lemma progress_trans s1 s2 s3 : progress s1 s2 -> progress s2 s3 -> progress s1 s3.
Proof.
  intros (q1 & c1 & I1 & C1 & N1 & A1 & R1 & J1 & F1)
         (q2 & c2 & I2 & C2 & N2 & A2 & R2 & J2 & F2).
  exists (q1 ++ q2), (c1 ++ c2).
  rewrite I2, I1, C2, C1, N2, N1, !app_assoc.
  calls_app.
  rewrite A1, A2, R1, R2, J1, J2, map_app, length_app.
  split_and!; eauto using frame_trans; lia.
Qed.

Lemma MaybeQueueInference_queued node s :
  fst (MaybeQueueInference node s) = true ->
  exists x,
    leaf x = node
    /\ ls_inferences (snd (MaybeQueueInference node s)) = ls_inferences s ++ [x]
    /\ ls_calls (snd (MaybeQueueInference node s))
       = ls_calls s ++ [AddVirtualLoss_call node].
Proof.
  unfold MaybeQueueInference.
  destruct (TryGet _ _ _ _) as [[cached|] cache']; simpl; [discriminate |].
  intros _. eexists. split_and!; [| reflexivity | reflexivity]. reflexivity.
Qed.

Lemma MaybeQueueInference_cached node s :
  fst (MaybeQueueInference node s) = false ->
  exists cached,
    ls_inferences (snd (MaybeQueueInference node s)) = ls_inferences s
    /\ ls_calls (snd (MaybeQueueInference node s))
       = ls_calls s ++ [IncorporateResults_call node (policy cached)
                                                (value cached)].
Proof.
  unfold MaybeQueueInference.
  destruct (TryGet _ _ _ _) as [[cached|] cache']; simpl; [| discriminate].
  intros _. exists cached. split; reflexivity.
Qed.

Lemma MaybeQueueInference_progress node s :
  progress s (add_queued (fst (MaybeQueueInference node s))
                         (snd (MaybeQueueInference node s))).
Proof.
  unfold MaybeQueueInference.
  destruct (TryGet _ _ _ _) as [[cached|] cache']; simpl.
  - exists [], [IncorporateResults_call node (policy cached) (value cached)].
    simpl. rewrite app_nil_r.
    split_and!; auto using frame_set_tree; lia.
  - eexists [_], [AddVirtualLoss_call node]. simpl.
    split_and!; auto using frame_set_tree; lia.
Qed.

Lemma with_game_progress g calls s :
  frame (ls_game s) g ->
  virtual_losses_added calls = [] ->
  virtual_losses_reverted calls = [] ->
  noise_injections calls = 0%nat ->
  progress s (with_game g calls s).
Proof.
  intros F A R J. exists [], calls. simpl. rewrite app_nil_r.
  split_and!; auto; lia.
Qed.

Lemma frame_arm g :
  fastplay_ g = false -> frame g (set_inject_noise_before_next_read_ true g).
Proof. intros F. split; [destruct g; reflexivity | auto]. Qed.

(** A pass through the body queues at most one inference and selects
    exactly one leaf. *)
Lemma SelectLeaves_body_progress s :
  progress s (snd (SelectLeaves_body s)).
Proof.
  unfold SelectLeaves_body.
  destruct (SelectLeaf _ _) as [selected tree1] eqn:Esel.
  set (s1 := with_game _ _ s).
  assert (P1 : progress s s1).
  { apply with_game_progress; auto using frame_set_tree. }
  destruct selected as [leaf|]; [| exact P1].
  destruct (node_game_over tree1 leaf || node_at_move_limit tree1 leaf).
  - simpl. eapply progress_trans; [exact P1 |].
    apply with_game_progress; auto. apply frame_set_tree.
  - pose proof (MaybeQueueInference_progress leaf s1) as P2.
    destruct (MaybeQueueInference leaf s1) as [queued s2]. simpl in P2.
    set (s3 := add_queued queued s2) in *.
    pose proof (progress_trans _ _ _ P1 P2) as P3.
    destruct (decide _); [| exact P3].
    destruct (fastplay_ (ls_game s3)) eqn:Efast; [exact P3 |].
    simpl. eapply progress_trans; [exact P3 |].
    apply with_game_progress; auto using frame_arm.
Qed.

Lemma SelectLeaves_body_selects_once s :
  exists selected,
    SelectLeaf_calls
      (drop (length (ls_calls s)) (ls_calls (snd (SelectLeaves_body s))))
    = 1%nat
    /\ hd_error
         (drop (length (ls_calls s)) (ls_calls (snd (SelectLeaves_body s))))
       = Some (SelectLeaf_call (allow_pass (options_ (ls_game s))) selected).
Proof.
  unfold SelectLeaves_body.
  destruct (SelectLeaf _ _) as [selected tree1] eqn:Esel.
  exists selected.
  destruct selected as [leaf|]; simpl.
  2:{ rewrite drop_app_length. split; reflexivity. }
  destruct (node_game_over tree1 leaf || node_at_move_limit tree1 leaf); simpl.
  { rewrite <- app_assoc, drop_app_length. split; reflexivity. }
  unfold MaybeQueueInference. simpl.
  destruct (TryGet _ _ _ _) as [[cached|] cache']; simpl;
    destruct (decide _); simpl;
    try (destruct (fastplay_ _); simpl);
    rewrite <- ?app_assoc, drop_app_length; split; reflexivity.
Qed.

Lemma SelectLeaves_loop_progress fuel s :
  progress s (snd (SelectLeaves_loop fuel s)).
Proof.
  revert s. induction fuel as [|fuel IH]; intros s; simpl.
  - apply progress_refl.
  - pose proof (SelectLeaves_body_progress s) as P.
    destruct (SelectLeaves_body s) as [[|] s']; simpl in *; [exact P |].
    destruct (SelectLeaves_test s'); [| exact P].
    eapply progress_trans; [exact P | apply IH].
Qed.

End LeafSelection.

(** ** Processing inferences and playing moves *)

Section Methods.
Context `{CacheOps}.

Import SelfplayGame.

Lemma incorporate_inferences_calls inferences g :
  virtual_losses_reverted (snd (incorporate_inferences inferences g))
  = map leaf inferences
  /\ virtual_losses_added (snd (incorporate_inferences inferences g)) = []
  /\ noise_injections (snd (incorporate_inferences inferences g)) = 0%nat
  /\ fst (incorporate_inferences inferences g)
     = set_tree_ (tree_ (fst (incorporate_inferences inferences g))) g.
Proof.
  revert g. induction inferences as [|x rest IH]; intros g; simpl.
  - split_and!; auto. destruct g; reflexivity.
  - specialize (IH (set_tree_
        (RevertVirtualLoss (leaf x)
           (IncorporateResults (leaf x) (policy (output x))
              (value (output x)) (tree_ g))) g)).
    destruct (incorporate_inferences rest _) as [g' calls].
    simpl in *. destruct IH as (R & A & J & E).
    split_and!; [f_equal; exact R | exact A | exact J |].
    rewrite E at 1. destruct g; reflexivity.
Qed.

Lemma record_model_fields model_name g :
  record_model model_name g
  = set_models_used_ (models_used_ (record_model model_name g)) g.
Proof.
  unfold record_model.
  destruct (decide _); [destruct g; reflexivity |].
  destruct (last _); [destruct (decide _) |]; destruct g; reflexivity.
Qed.

(** [ProcessInferences] changes the tree and the list of models only. *)
Lemma ProcessInferences_fields model_name inferences g :
  let g' := fst (ProcessInferences model_name inferences g) in
  g' = set_tree_ (tree_ g') (set_models_used_ (models_used_ g') g)
  /\ models_used_ g' = models_used_ (record_model model_name g).
Proof.
  unfold ProcessInferences. simpl.
  destruct (incorporate_inferences_calls inferences
              (record_model model_name g)) as (_ & _ & _ & E).
  set (g' := fst _) in *. clearbody g'.
  assert (M : models_used_ g' = models_used_ (record_model model_name g)).
  { rewrite E. destruct (record_model model_name g); reflexivity. }
  split; [| exact M].
  rewrite E at 1. rewrite M. rewrite (record_model_fields model_name g) at 1.
  destruct g; reflexivity.
Qed.

Lemma ShouldFastplay_fields g :
  snd (ShouldFastplay g) = set_rnd_ (rnd_ (snd (ShouldFastplay g))) g.
Proof.
  unfold ShouldFastplay.
  destruct (Qlt_bool 0 _); [destruct (rnd_uniform _) |];
    destruct g; reflexivity.
Qed.

(** After [prepare_next_move] the noise flag is the negation of the fast
    play flag, and the target is the root's visit count at that time plus
    the budget of the kind of move chosen. *)
Lemma prepare_next_move_spec g :
  let g' := fst (prepare_next_move g) in
  fastplay_ g' = fst (ShouldFastplay g)
  /\ inject_noise_before_next_read_ g' = negb (fastplay_ g')
  /\ target_readouts_ g'
     = int32 (root_N g + (if fastplay_ g' then fastplay_readouts (options_ g)
                          else num_readouts (options_ g)))
  /\ game_ g' = game_ g
  /\ options_ g' = options_ g
  /\ models_used_ g' = models_used_ g
  /\ noise_injections (snd (prepare_next_move g)) = 0%nat
  /\ tree_ g'
     = (if negb (fastplay_ g')
           && Qlt_bool 0 (fastplay_frequency (options_ g))
        then ClearSubtrees (tree_ g) else tree_ g).
Proof.
  unfold prepare_next_move.
  pose proof (ShouldFastplay_fields g) as E.
  destruct (ShouldFastplay g) as [fast g1]. simpl in E. rewrite E.
  destruct fast; simpl;
    [| destruct (Qlt_bool 0 _); simpl ];
    unfold root_N; destruct g; simpl; split_and!; reflexivity.
Qed.

Lemma play_picked_move_spec g :
  let g' := fst (play_picked_move g) in
  fastplay_ g' = fastplay_ g
  /\ inject_noise_before_next_read_ g' = inject_noise_before_next_read_ g
  /\ target_readouts_ g' = target_readouts_ g
  /\ options_ g' = options_ g
  /\ models_used_ g' = models_used_ g
  /\ Game.moves (game_ g') <> []
  /\ noise_injections (snd (play_picked_move g)) = 0%nat.
Proof.
  unfold play_picked_move.
  destruct (PickMove _ _) as [c rnd].
  set (game1 := Game.AddMove _ _ _ _ _ _ _).
  set (mark := negb _ && negb _).
  set (game2 := if mark then _ else _).
  assert (M : Game.moves game2 <> []).
  { subst game2 game1. destruct mark; simpl.
    - rewrite rev_app_distr. simpl. intros E.
      apply app_eq_nil in E. destruct E; discriminate.
    - intros E. apply app_eq_nil in E. destruct E; discriminate. }
  clearbody game2.
  destruct (at_move_limit _); [| destruct (is_game_over _)]; simpl;
    (split_and!; [reflexivity .. | exact M |]);
    destruct (verbose _), (fastplay_ g), (target_pruning _ && _), mark;
    reflexivity.
Qed.

(** A move after which the game is not over leaves a tree that is neither
    over nor at the move limit: [MaybePlayMove] marks the game over
    otherwise, and [PlayMoves] takes it out of play. *)
Lemma play_picked_move_live g :
  Game.game_over (game_ (fst (play_picked_move g))) = false ->
  at_move_limit (tree_ (fst (play_picked_move g))) = false
  /\ is_game_over (tree_ (fst (play_picked_move g))) = false.
Proof.
  unfold play_picked_move. destruct (PickMove _ _) as [c rnd].
  match goal with
  | |- context [at_move_limit ?t] =>
      destruct (at_move_limit t) eqn:L; [| destruct (is_game_over t) eqn:O]
  end; cbn; try discriminate.
  intros _. rewrite L, O. auto.
Qed.

End Methods.

(** ** The calls recorded are the calls made on the tree *)

Section Trace.
Context `{CacheOps}.

Import SelfplayGame.

Lemma apply_calls_app (a b : list Call) (tree : MctsTree) :
  apply_calls (a ++ b) tree = apply_calls b (apply_calls a tree).
Proof. apply fold_left_app. Qed.

(** From [s] to [s'] calls were recorded, and the tree of [s'] is the tree
    of [s] after exactly those calls. *)
Definition traced (s s' : LeafSearch) : Prop :=
  exists calls,
    ls_calls s' = ls_calls s ++ calls
    /\ tree_ (ls_game s') = apply_calls calls (tree_ (ls_game s)).

Lemma traced_refl s : traced s s.
Proof. exists []. rewrite app_nil_r. split; reflexivity. Qed.

Lemma traced_trans s1 s2 s3 : traced s1 s2 -> traced s2 s3 -> traced s1 s3.
Proof.
  intros (c1 & C1 & T1) (c2 & C2 & T2). exists (c1 ++ c2).
  rewrite C2, C1, T2, T1, app_assoc, apply_calls_app. split; reflexivity.
Qed.

Lemma MaybeQueueInference_traced node s :
  traced s (snd (MaybeQueueInference node s)).
Proof.
  unfold MaybeQueueInference.
  destruct (TryGet _ _ _ _) as [[cached|] cache']; simpl;
    eexists; (split; [reflexivity |]); destruct (ls_game s); reflexivity.
Qed.

Lemma SelectLeaves_body_traced s : traced s (snd (SelectLeaves_body s)).
Proof.
  unfold SelectLeaves_body.
  destruct (SelectLeaf _ _) as [selected tree1] eqn:Esel.
  set (s1 := with_game _ _ s).
  assert (T1 : traced s s1).
  { eexists. split; [reflexivity |]. simpl. rewrite Esel.
    destruct (ls_game s); reflexivity. }
  destruct selected as [node|]; [| exact T1].
  destruct (node_game_over tree1 node || node_at_move_limit tree1 node).
  - simpl. eapply traced_trans; [exact T1 |].
    eexists. split; [reflexivity |]. destruct (ls_game s); reflexivity.
  - pose proof (MaybeQueueInference_traced node s1) as T2.
    destruct (MaybeQueueInference node s1) as [queued s2]. simpl in T2.
    assert (T3 : traced s (add_queued queued s2)).
    { eapply traced_trans; [exact T1 |].
      destruct T2 as (c & C & T). exists c. split; assumption. }
    destruct (decide _); [| exact T3].
    destruct (fastplay_ (ls_game (add_queued queued s2))); [exact T3 |].
    simpl. eapply traced_trans; [exact T3 |].
    exists []. simpl. rewrite app_nil_r. split; [reflexivity |].
    destruct (ls_game s2); reflexivity.
Qed.

Lemma SelectLeaves_loop_traced fuel s :
  traced s (snd (SelectLeaves_loop fuel s)).
Proof.
  revert s. induction fuel as [|fuel IH]; intros s; simpl.
  - apply traced_refl.
  - pose proof (SelectLeaves_body_traced s) as T.
    destruct (SelectLeaves_body s) as [[|] s']; simpl in *; [exact T |].
    destruct (SelectLeaves_test s'); [| exact T].
    eapply traced_trans; [exact T | apply IH].
Qed.

(** The tree [SelectLeaves] leaves is the tree it was called on after the
    calls it made, in the order it made them. *)
Lemma SelectLeaves_traced fuel cache inferences g :
  tree_ (ls_game (snd (SelectLeaves fuel cache inferences g)))
  = apply_calls (ls_calls (snd (SelectLeaves fuel cache inferences g)))
                (tree_ g).
Proof.
  unfold SelectLeaves.
  destruct (SelectLeaves_loop_traced fuel (SelectLeaves_enter cache inferences g))
    as (calls & C & T).
  rewrite C, T, apply_calls_app. f_equal.
  unfold SelectLeaves_enter, InjectNoise.
  destruct (inject_noise_before_next_read_ g); [| reflexivity].
  destruct (Dirichlet _ _) as [noise rnd]. destruct g; reflexivity.
Qed.

Lemma incorporate_inferences_traced inferences : forall g,
  tree_ (fst (incorporate_inferences inferences g))
  = apply_calls (snd (incorporate_inferences inferences g)) (tree_ g).
Proof.
  induction inferences as [|x rest IH]; intros g; simpl; [reflexivity |].
  match goal with
  | |- context [incorporate_inferences rest ?g1] =>
      specialize (IH g1); destruct (incorporate_inferences rest g1) as [g' calls]
  end.
  simpl in *. rewrite IH. destruct g; reflexivity.
Qed.

Lemma ProcessInferences_traced model_name inferences g :
  tree_ (fst (ProcessInferences model_name inferences g))
  = apply_calls (snd (ProcessInferences model_name inferences g)) (tree_ g).
Proof.
  unfold ProcessInferences. rewrite incorporate_inferences_traced.
  f_equal. rewrite record_model_fields. destruct g; reflexivity.
Qed.







End Trace.

(** ** Claims about leaf selection *)

Section SelectLeavesClaims.
Context `{CacheOps}.

Import SelfplayGame.

Lemma SelectLeaves_enter_spec cache inferences g :
  let s0 := SelectLeaves_enter cache inferences g in
  ls_inferences s0 = inferences
  /\ ls_num_queued s0 = 0
  /\ virtual_losses_added (ls_calls s0) = []
  /\ virtual_losses_reverted (ls_calls s0) = []
  /\ noise_injections (ls_calls s0)
     = (if inject_noise_before_next_read_ g then 1 else 0)%nat
  /\ SelectLeaf_calls (ls_calls s0) = 0%nat
  /\ inject_noise_before_next_read_ (ls_game s0) = false
  /\ fastplay_ (ls_game s0) = fastplay_ g
  /\ game_ (ls_game s0) = game_ g
  /\ options_ (ls_game s0) = options_ g
  /\ models_used_ (ls_game s0) = models_used_ g
  /\ target_readouts_ (ls_game s0) = target_readouts_ g.
Proof.
  unfold SelectLeaves_enter, InjectNoise.
  destruct (inject_noise_before_next_read_ g) eqn:E; simpl.
  - destruct (Dirichlet _ _) as [noise rnd]. simpl. split_and!; reflexivity.
  - split_and!; auto.
Qed.

(** What [frame] keeps. *)
Lemma frame_fields g g' :
  frame g g' ->
  fastplay_ g' = fastplay_ g /\ game_ g' = game_ g
  /\ options_ g' = options_ g /\ models_used_ g' = models_used_ g
  /\ target_readouts_ g' = target_readouts_ g /\ rnd_ g' = rnd_ g.
Proof. intros [E _]. rewrite E. destruct g; simpl. split_and!; reflexivity. Qed.

Lemma SelectLeaves_progress fuel cache inferences g :
  progress (SelectLeaves_enter cache inferences g)
           (snd (SelectLeaves fuel cache inferences g)).
Proof. apply SelectLeaves_loop_progress. Qed.

(** C1. Every inference that [SelectLeaves] queues comes with exactly one
    [AddVirtualLoss] on its leaf: the leaves that received a virtual loss
    during the call are, in order, the leaves of the inferences appended,
    whose number is the value returned, nothing is reverted, and the tree
    the call leaves is the tree it was given after exactly the calls
    recorded.  In [MaybeQueueInference] a queued leaf gets that one call,
    which is made on the tree, and a cache hit gets [IncorporateResults]
    alone; a terminal leaf gets [IncorporateEndGameResult] alone.
    [ProcessInferences] reverts exactly one virtual loss on the leaf of
    each inference it handles, in order, and adds none, and the tree it
    leaves is again the tree it was given after exactly those calls. *)
Theorem virtual_loss_added_once_reverted_once
    (fuel : nat) (cache : InferenceCache) (inferences : list Inference)
    (g : SelfplayGame.t) :
  (exists queued,
      let s := snd (SelectLeaves fuel cache inferences g) in
      ls_inferences s = inferences ++ queued
      /\ ls_num_queued s = Z.of_nat (length queued)
      /\ virtual_losses_added (ls_calls s) = map leaf queued
      /\ virtual_losses_reverted (ls_calls s) = []
      /\ tree_ (ls_game s) = apply_calls (ls_calls s) (tree_ g))
  /\ (forall node s,
        let r := MaybeQueueInference node s in
        if fst r then
          exists x, leaf x = node
            /\ ls_inferences (snd r) = ls_inferences s ++ [x]
            /\ ls_calls (snd r) = ls_calls s ++ [AddVirtualLoss_call node]
            /\ tree_ (ls_game (snd r))
               = AddVirtualLoss node (tree_ (ls_game s))
        else
          exists cached,
            ls_inferences (snd r) = ls_inferences s
            /\ ls_calls (snd r)
               = ls_calls s ++ [IncorporateResults_call node (policy cached)
                                                        (value cached)]
            /\ tree_ (ls_game (snd r))
               = IncorporateResults node (policy cached) (value cached)
                                    (tree_ (ls_game s)))
  /\ (forall s node tree1,
        SelectLeaf (allow_pass (options_ (ls_game s))) (tree_ (ls_game s))
        = (Some node, tree1) ->
        node_game_over tree1 node || node_at_move_limit tree1 node = true ->
        let s' := snd (SelectLeaves_body s) in
        ls_inferences s' = ls_inferences s
        /\ exists value,
             ls_calls s'
             = ls_calls s ++
               [SelectLeaf_call (allow_pass (options_ (ls_game s))) (Some node);
                IncorporateEndGameResult_call node value]
             /\ tree_ (ls_game s')
                = IncorporateEndGameResult node value tree1)
  /\ (forall model_name evaluated g0,
        let r := ProcessInferences model_name evaluated g0 in
        virtual_losses_reverted (snd r) = map leaf evaluated
        /\ virtual_losses_added (snd r) = []
        /\ tree_ (fst r) = apply_calls (snd r) (tree_ g0)).
Proof.
  split_and!.
  - destruct (SelectLeaves_progress fuel cache inferences g)
      as (queued & calls & I & C & N & A & R & _).
    destruct (SelectLeaves_enter_spec cache inferences g)
      as (I0 & N0 & A0 & R0 & _).
    exists queued. cbv zeta.
    split_and!; [| | | | apply SelectLeaves_traced].
    + rewrite I, I0. reflexivity.
    + rewrite N, N0. lia.
    + rewrite C. calls_app. rewrite A0, A. reflexivity.
    + rewrite C. calls_app. rewrite R0, R. reflexivity.
  - intros node s r. subst r. unfold MaybeQueueInference.
    destruct (TryGet _ _ _ _) as [[cached|] cache']; simpl.
    + exists cached. split_and!; [reflexivity | reflexivity |].
      destruct (ls_game s); reflexivity.
    + eexists. split_and!; [| reflexivity | reflexivity |].
      * reflexivity.
      * destruct (ls_game s); reflexivity.
  - intros s node tree1 Esel Hterm. unfold SelectLeaves_body.
    rewrite Esel, Hterm. simpl. split; [reflexivity |].
    eexists. rewrite <- app_assoc. split; [reflexivity |].
    destruct (ls_game s); reflexivity.
  - intros model_name evaluated g0 r. subst r.
    split_and!; [| | apply ProcessInferences_traced];
      unfold ProcessInferences;
      destruct (incorporate_inferences_calls evaluated
                  (record_model model_name g0)) as (R & A & _);
      assumption.
Qed.




(** Every pass adds exactly one leaf selection. *)
Lemma SelectLeaves_body_selections s :
  SelectLeaf_calls (ls_calls (snd (SelectLeaves_body s)))
  = S (SelectLeaf_calls (ls_calls s)).
Proof.
  destruct (SelectLeaves_body_progress s) as (q & calls & _ & C & _).
  destruct (SelectLeaves_body_selects_once s) as (sel & One & _).
  rewrite C in One. rewrite drop_app_length in One.
  rewrite C, SelectLeaf_calls_app, One. lia.
Qed.

Lemma SelectLeaves_loop_selections fuel s :
  (S (SelectLeaf_calls (ls_calls s))
   <= SelectLeaf_calls (ls_calls (snd (SelectLeaves_loop (S fuel) s))))%nat.
Proof.
  simpl.
  pose proof (SelectLeaves_body_selections s) as B.
  destruct (SelectLeaves_body s) as [[|] s']; simpl in *; [lia |].
  destruct (SelectLeaves_test s'); simpl; [| lia].
  destruct (SelectLeaves_loop_progress fuel s') as (q & calls & _ & C & _).
  rewrite C, SelectLeaf_calls_app. lia.
Qed.







Lemma SelectLeaves_body_root s node tree1 queued s2 :
  SelectLeaf (allow_pass (options_ (ls_game s))) (tree_ (ls_game s))
  = (Some node, tree1) ->
  node_game_over tree1 node || node_at_move_limit tree1 node = false ->
  MaybeQueueInference node
    (with_game (set_tree_ tree1 (ls_game s))
       [SelectLeaf_call (allow_pass (options_ (ls_game s))) (Some node)] s)
  = (queued, s2) ->
  node = root (tree_ (ls_game s2)) ->
  SelectLeaves_body s
  = (Break,
     if fastplay_ (ls_game s2) then add_queued queued s2
     else with_game (set_inject_noise_before_next_read_ true (ls_game s2))
                    [] (add_queued queued s2)).
Proof.
  intros Esel Hlive E Hroot. unfold SelectLeaves_body.
  rewrite Esel, Hlive, E. simpl.
  destruct (decide _); [reflexivity | contradiction].
Qed.

(** C10.  When the leaf selected is the root when the loop compares them,
    the pass ends the loop: the body breaks, whatever [fastplay_] is, so
    the call makes no other selection; [fastplay_] only decides whether
    the noise flag is set.  The leaf is one the loop hands to
    [MaybeQueueInference], not a finished position: a game whose tree is
    over after a move is marked over by [MaybePlayMove]
    ([play_picked_move_live]) and taken out of play by [PlayMoves], so the
    root of a game that is searched is none. *)
Theorem root_selection_breaks_loop
    (fuel : nat) (s : LeafSearch) (node : MctsNode) (tree1 : MctsTree) :
  let allow := allow_pass (options_ (ls_game s)) in
  let s1 := with_game (set_tree_ tree1 (ls_game s))
                      [SelectLeaf_call allow (Some node)] s in
  let s2 := snd (MaybeQueueInference node s1) in
  SelectLeaf allow (tree_ (ls_game s)) = (Some node, tree1) ->
  node_game_over tree1 node || node_at_move_limit tree1 node = false ->
  node = root (tree_ (ls_game s2)) ->
  let s' := snd (SelectLeaves_body s) in
  fst (SelectLeaves_body s) = Break
  /\ SelectLeaves_loop (S fuel) s = (true, s')
  /\ SelectLeaf_calls (ls_calls s') = S (SelectLeaf_calls (ls_calls s))
  /\ fastplay_ (ls_game s') = fastplay_ (ls_game s)
  /\ inject_noise_before_next_read_ (ls_game s')
     = negb (fastplay_ (ls_game s))
       || inject_noise_before_next_read_ (ls_game s).
Proof.
  intros allow s1 s2 Esel Hlive Hroot s'.
  pose proof (SelectLeaves_body_selections s) as L. fold s' in L.
  assert (B : SelectLeaves_body s
              = (Break,
                 if fastplay_ (ls_game s2) then add_queued
                      (fst (MaybeQueueInference node s1)) s2
                 else with_game
                        (set_inject_noise_before_next_read_ true (ls_game s2))
                        [] (add_queued (fst (MaybeQueueInference node s1)) s2))).
  { apply (SelectLeaves_body_root s node tree1); auto.
    apply surjective_pairing. }
  assert (F : fastplay_ (ls_game s2) = fastplay_ (ls_game s)
              /\ inject_noise_before_next_read_ (ls_game s2)
                 = inject_noise_before_next_read_ (ls_game s)).
  { unfold s2, MaybeQueueInference.
    destruct (TryGet _ _ _ _) as [[cached|] cache']; simpl;
      destruct (ls_game s); split; reflexivity. }
  destruct F as [F1 F2].
  split_and!.
  - rewrite B. reflexivity.
  - simpl. unfold s'. rewrite B. reflexivity.
  - exact L.
  - unfold s'. rewrite B. simpl.
    destruct (fastplay_ (ls_game s2)) eqn:E; simpl; congruence.
  - unfold s'. rewrite B. simpl.
    destruct (fastplay_ (ls_game s2)) eqn:E; simpl; rewrite <- F1, <- ?F2;
      reflexivity.
Qed.

End SelectLeavesClaims.

(** ** Claims about playing moves *)

Lemma Qlt_bool_iff (x y : Q) : Qlt_bool x y = true <-> (x < y)%Q.
Proof.
  unfold Qlt_bool. rewrite negb_true_iff. split.
  - intros E. apply Qnot_le_lt. intros L.
    apply Qle_bool_iff in L. congruence.
  - intros L. destruct (Qle_bool y x) eqn:E; [| reflexivity].
    apply Qle_bool_iff in E. exfalso. exact (Qlt_not_le _ _ L E).
Qed.

Section MaybePlayMoveClaims.
Context `{CacheOps}.

Import SelfplayGame.

(** The three ways a call of [MaybePlayMove] can go: too few reads; a
    resignation or a move that ends the game; a move after which the game
    goes on. *)
Lemma MaybePlayMove_cases now g :
  let r := MaybePlayMove now g in
  let g' := snd (fst r) in
  noise_injections (snd r) = 0%nat
  /\ options_ g' = options_ g
  /\ models_used_ g' = models_used_ g
  /\ ((fst (fst r) = false /\ g' = g /\ snd r = []
       /\ root_N g < target_readouts_ g)
      \/ (fst (fst r) = true /\ target_readouts_ g <= root_N g
          /\ Game.game_over (game_ g') = true
          /\ fastplay_ g' = fastplay_ g
          /\ inject_noise_before_next_read_ g'
             = inject_noise_before_next_read_ g
          /\ (Game.moves (game_ g') = Game.moves (game_ g)
              \/ Game.moves (game_ g') <> []))
      \/ (fst (fst r) = true /\ target_readouts_ g <= root_N g
          /\ ShouldResign g = false
          /\ Game.game_over (game_ g') = false
          /\ Game.moves (game_ g') <> []
          /\ fastplay_ g' = fst (ShouldFastplay (fst (play_picked_move g)))
          /\ inject_noise_before_next_read_ g' = negb (fastplay_ g')
          /\ target_readouts_ g'
             = int32 (root_N (fst (play_picked_move g))
                      + (if fastplay_ g' then fastplay_readouts (options_ g)
                         else num_readouts (options_ g)))
          /\ tree_ g'
             = (if negb (fastplay_ g')
                   && Qlt_bool 0 (fastplay_frequency (options_ g))
                then ClearSubtrees (tree_ (fst (play_picked_move g)))
                else tree_ (fst (play_picked_move g))))).
Proof.
  unfold MaybePlayMove.
  destruct (root_N g <? target_readouts_ g) eqn:Elt; simpl.
  { apply Z.ltb_lt in Elt. split_and!; auto. }
  apply Z.ltb_ge in Elt.
  destruct (ShouldResign g) eqn:Eres.
  - unfold resign. simpl.
    split_and!; [reflexivity .. |]. right. left.
    split_and!; auto.
  - destruct (play_picked_move_spec g) as (F & I & T & O & M & Hm & J).
    destruct (play_picked_move g) as [g1 calls1]. simpl in *.
    destruct (Game.game_over (game_ g1)) eqn:Eover; simpl.
    + rewrite app_nil_r. split_and!; auto. right. left.
      split_and!; auto.
    + destruct (prepare_next_move_spec g1)
        as (F2 & I2 & T2 & G2 & O2 & M2 & J2 & C2).
      destruct (prepare_next_move g1) as [g2 calls2]. simpl in *.
      rewrite noise_injections_app, J, J2, O2, M2, G2.
      split_and!; auto. right. right.
      rewrite T2, C2, O. split_and!; auto.
Qed.

(** C4. When the root has fewer visits than the target, [MaybePlayMove]
    answers false, leaves the game as it is and calls nothing.  When it
    answers true and the game is not over afterwards, the new target is
    the root's visit count after the move was played, plus
    [fastplay_readouts] if the next move is a fast play and [num_readouts]
    otherwise: the sum as an [int] holds it, which is the sum itself
    whenever that fits into 32 bits.  The tree is the one the count was
    read from, with its subtrees cleared if the next move is not a fast
    play and the fast play frequency is positive. *)
Theorem MaybePlayMove_sets_target (now : Z) (g : SelfplayGame.t) :
  let r := MaybePlayMove now g in
  let g' := snd (fst r) in
  let visits := root_N (fst (play_picked_move g)) in
  let budget := if fastplay_ g' then fastplay_readouts (options_ g')
                else num_readouts (options_ g') in
  (root_N g < target_readouts_ g -> r = (false, g, []))
  /\ (fst (fst r) = true ->
      Game.game_over (game_ g') = false ->
      target_readouts_ g' = int32 (visits + budget)
      /\ (- 2 ^ 31 <= visits + budget < 2 ^ 31 ->
          target_readouts_ g' = visits + budget)
      /\ tree_ g'
         = (if negb (fastplay_ g')
               && Qlt_bool 0 (fastplay_frequency (options_ g'))
            then ClearSubtrees (tree_ (fst (play_picked_move g)))
            else tree_ (fst (play_picked_move g)))).
Proof.
  intros r g' visits budget. split.
  - intros Hlt. unfold r, MaybePlayMove.
    apply Z.ltb_lt in Hlt. rewrite Hlt. reflexivity.
  - intros Hplayed Hlive.
    destruct (MaybePlayMove_cases now g) as (_ & O & _ & C).
    fold r in O, C. fold g' in O, C. unfold visits, budget. rewrite O.
    destruct C as [(F & _) | [(_ & _ & Hover & _)
                            | (_ & _ & _ & _ & _ & _ & _ & T & C)]].
    + congruence.
    + congruence.
    + split_and!; [exact T | | exact C].
      intros Hfits. rewrite T. apply int32_id. exact Hfits.
Qed.

(** C8. When the read target is met and the resign test holds,
    [MaybePlayMove] answers true, the game is over by the resignation of
    the side to move, and the move history is what it was: the only call
    made is [SetGameOverBecauseOfResign], none of [PickMove], [AddMove],
    [ReshapeFinalVisits], [PlayMove], [MarkLastMoveAsTrainable], and the
    tree is untouched. *)
Theorem resignation_adds_no_move (now : Z) (g : SelfplayGame.t) :
  target_readouts_ g <= root_N g ->
  ShouldResign g = true ->
  let r := MaybePlayMove now g in
  let g' := snd (fst r) in
  fst (fst r) = true
  /\ Game.game_over_reason (game_ g')
     = Some (Game.kOpponentResigned (OtherColor (to_play (tree_ g))))
  /\ Game.moves (game_ g') = Game.moves (game_ g)
  /\ snd r = [SetGameOverBecauseOfResign_call (OtherColor (to_play (tree_ g)))]
  /\ List.filter is_move_call (snd r) = []
  /\ tree_ g' = tree_ g.
Proof.
  intros Hmet Hres r g'. unfold g', r, MaybePlayMove.
  apply Z.ltb_ge in Hmet. rewrite Hmet, Hres.
  unfold resign. simpl. split_and!; reflexivity.
Qed.

End MaybePlayMoveClaims.

(** ** Claims about sequences of calls *)

(** No two neighbours of the list are equal. *)
Fixpoint no_adjacent_dups (l : list string) : Prop :=
  match l with
  | a :: (b :: _) as rest => a <> b /\ no_adjacent_dups rest
  | _ => True
  end.

Lemma no_adjacent_dups_snoc (l : list string) (x : string) :
  no_adjacent_dups l -> last l <> Some x -> no_adjacent_dups (l ++ [x]).
Proof.
  induction l as [|a [|b l] IH]; simpl; intros Hl Hlast; auto.
  - split; [congruence | exact I].
  - destruct Hl as [Hab Hl]. split; [exact Hab |]. apply IH; auto.
Qed.

Section RunClaims.
Context `{CacheOps}.

Import SelfplayGame.

Lemma step_SelectLeaves fuel cache inferences g :
  let st := step (SelectLeaves_op fuel cache inferences) g in
  noise_injections (st_calls st)
  = Nat.b2n (inject_noise_before_next_read_ g)
  /\ st_played st = false
  /\ st_armed st = inject_noise_before_next_read_ (st_game st)
  /\ fastplay_ (st_game st) = fastplay_ g
  /\ game_ (st_game st) = game_ g
  /\ options_ (st_game st) = options_ g
  /\ models_used_ (st_game st) = models_used_ g
  /\ (inject_noise_before_next_read_ (st_game st) = true ->
      fastplay_ g = false).
Proof.
  simpl.
  destruct (SelectLeaves_progress fuel cache inferences g)
    as (q & calls & _ & C & _ & _ & _ & J & Fr).
  destruct (SelectLeaves_enter_spec cache inferences g)
    as (_ & _ & _ & _ & J0 & _ & I0 & F0 & G0 & O0 & M0 & _).
  destruct (frame_fields _ _ Fr) as (F & G & O & M & _).
  rewrite C, noise_injections_app, J, J0, F, G, O, M.
  split_and!; auto;
    try (destruct (inject_noise_before_next_read_ g); reflexivity).
  intros Hset. destruct Fr as [_ Fr]. destruct (Fr Hset); congruence.
Qed.

Lemma step_ProcessInferences model_name inferences g :
  let st := step (ProcessInferences_op model_name inferences) g in
  noise_injections (st_calls st) = 0%nat
  /\ st_played st = false /\ st_armed st = false
  /\ fastplay_ (st_game st) = fastplay_ g
  /\ game_ (st_game st) = game_ g
  /\ options_ (st_game st) = options_ g
  /\ inject_noise_before_next_read_ (st_game st)
     = inject_noise_before_next_read_ g
  /\ models_used_ (st_game st) = models_used_ (record_model model_name g).
Proof.
  simpl.
  destruct (ProcessInferences_fields model_name inferences g) as [E M].
  pose proof (incorporate_inferences_calls inferences
                (record_model model_name g)) as (_ & _ & J & _).
  unfold ProcessInferences in *.
  destruct (incorporate_inferences inferences _) as [g' calls].
  simpl in *. rewrite E. destruct g; simpl. split_and!; auto.
Qed.

Lemma step_MaybePlayMove now g :
  let st := step (MaybePlayMove_op now) g in
  st_game st = snd (fst (MaybePlayMove now g))
  /\ st_calls st = snd (MaybePlayMove now g)
  /\ st_played st = fst (fst (MaybePlayMove now g))
  /\ st_armed st = false.
Proof.
  simpl. destruct (MaybePlayMove now g) as [[played g'] calls].
  simpl. auto.
Qed.

Lemma step_options op g : options_ (st_game (step op g)) = options_ g.
Proof.
  destruct op as [fuel cache inferences | model_name inferences | now].
  - apply step_SelectLeaves.
  - apply step_ProcessInferences.
  - destruct (step_MaybePlayMove now g) as (-> & _).
    apply MaybePlayMove_cases.
Qed.

Lemma run_options ops g : options_ (run ops g) = options_ g.
Proof.
  revert g. induction ops as [|op ops IH]; intros g; simpl; [reflexivity |].
  rewrite IH. apply step_options.
Qed.






Lemma new_flags options game tree ansi now seed stream :
  let g := SelfplayGame.new options game tree ansi now seed stream in
  inject_noise_before_next_read_ g = false
  /\ fastplay_ g = false
  /\ models_used_ g = []
  /\ game_ g = game
  /\ options_ g = options
  /\ target_readouts_ g = num_readouts options.
Proof.
  unfold SelfplayGame.new. destruct (UniformUint64 _) as [mix rnd].
  simpl. split_and!; reflexivity.
Qed.



(** *** Fast play *)

Lemma ShouldFastplay_never g :
  Qlt_bool 0 (fastplay_frequency (options_ g)) = false ->
  fst (ShouldFastplay g) = false.
Proof. unfold ShouldFastplay. intros ->. reflexivity. Qed.

Lemma ShouldFastplay_always g :
  (fastplay_frequency (options_ g) == 1)%Q ->
  (forall r, (fst (rnd_uniform r) < 1)%Q) ->
  fst (ShouldFastplay g) = true.
Proof.
  intros Hone Hrange. unfold ShouldFastplay.
  assert (P : Qlt_bool 0 (fastplay_frequency (options_ g)) = true).
  { apply Qlt_bool_iff. rewrite Hone. reflexivity. }
  rewrite P. specialize (Hrange (rnd_ g)).
  destruct (rnd_uniform (rnd_ g)) as [r rnd]. simpl in *.
  apply Qlt_bool_iff. rewrite Hone. exact Hrange.
Qed.

(** What a call does to [fastplay_] and to the game: nothing, unless it
    is a call of [MaybePlayMove] that answers true. *)
Lemma step_fastplay op g :
  let g' := st_game (step op g) in
  (st_played (step op g) = false
   /\ fastplay_ g' = fastplay_ g /\ game_ g' = game_ g)
  \/ (st_played (step op g) = true
      /\ Game.game_over (game_ g') = true
      /\ fastplay_ g' = fastplay_ g
      /\ (Game.moves (game_ g') = Game.moves (game_ g)
          \/ Game.moves (game_ g') <> []))
  \/ (st_played (step op g) = true
      /\ Game.game_over (game_ g') = false
      /\ Game.moves (game_ g') <> []
      /\ fastplay_ g' = fst (ShouldFastplay (fst (play_picked_move g)))).
Proof.
  destruct op as [fuel cache inferences | model_name inferences | now].
  - left. destruct (step_SelectLeaves fuel cache inferences g)
      as (_ & P & _ & F & G & _). auto.
  - left. destruct (step_ProcessInferences model_name inferences g)
      as (_ & P & _ & F & G & _). auto.
  - destruct (step_MaybePlayMove now g) as (-> & _ & -> & _).
    destruct (MaybePlayMove_cases now g)
      as (_ & _ & _ & [(P & -> & _) | [(P & _ & Hover & F & _ & M)
                                      | (P & _ & _ & Hlive & M & F & _)]]).
    + left. auto.
    + right. left. auto.
    + right. right. auto.
Qed.

Definition slow_opening (g : SelfplayGame.t) : Prop :=
  fastplay_ g = true -> Game.moves (game_ g) <> [].

Lemma run_slow_opening ops g : slow_opening g -> slow_opening (run ops g).
Proof.
  revert g. induction ops as [|op ops IH]; intros g Inv; simpl; [exact Inv |].
  apply IH. unfold slow_opening in *.
  destruct (step_fastplay op g)
    as [(_ & F & G) | [(_ & _ & F & [M | M]) | (_ & _ & M & _)]].
  - rewrite F, G. exact Inv.
  - rewrite F, M. exact Inv.
  - intros _. exact M.
  - intros _. exact M.
Qed.

Lemma run_never_fast ops g :
  Qlt_bool 0 (fastplay_frequency (options_ g)) = false ->
  fastplay_ g = false -> fastplay_ (run ops g) = false.
Proof.
  revert g. induction ops as [|op ops IH]; intros g Hfreq Inv; simpl;
    [exact Inv |].
  apply IH; [rewrite step_options; exact Hfreq |].
  destruct (step_fastplay op g)
    as [(_ & F & _) | [(_ & _ & F & _) | (_ & _ & _ & F)]];
    rewrite F; auto.
  apply ShouldFastplay_never.
  destruct (play_picked_move_spec g) as (_ & _ & _ & O & _).
  rewrite O. exact Hfreq.
Qed.

Definition fast_after_opening (g : SelfplayGame.t) : Prop :=
  Game.game_over (game_ g) = false ->
  Game.moves (game_ g) <> [] -> fastplay_ g = true.

Lemma run_fast_after_opening ops g :
  (fastplay_frequency (options_ g) == 1)%Q ->
  (forall r, (fst (rnd_uniform r) < 1)%Q) ->
  fast_after_opening g -> fast_after_opening (run ops g).
Proof.
  intros Hone Hrange. revert g Hone.
  induction ops as [|op ops IH]; intros g Hone Inv; simpl; [exact Inv |].
  apply IH; [rewrite step_options; exact Hone |].
  unfold fast_after_opening in *.
  destruct (step_fastplay op g)
    as [(_ & F & G) | [(_ & Hover & _) | (_ & _ & _ & F)]].
  - rewrite F, G. exact Inv.
  - congruence.
  - intros _ _. rewrite F. apply ShouldFastplay_always; [| exact Hrange].
    destruct (play_picked_move_spec g) as (_ & _ & _ & O & _).
    rewrite O. exact Hone.
Qed.

(** C5. For a game made by the constructor on an empty move history and
    then driven by any sequence of calls: [fastplay_] starts false and is
    only changed by a call of [MaybePlayMove] that answers true; while the
    history is empty, that is during move 0, it is false; with
    [fastplay_frequency] 0 it is always false; with [fastplay_frequency] 1
    and a generator whose outputs are below 1, it is true whenever the
    game is going on and a move has been played. *)
Theorem fastplay_schedule
    (options : Options) (black white : string) (game_options : Game.Options)
    (tree : MctsTree) (ansi : bool) (now seed stream : Z) (ops : list Op) :
  let g0 := SelfplayGame.new options (Game.new black white game_options)
              tree ansi now seed stream in
  let g := run ops g0 in
  fastplay_ g0 = false
  /\ (forall op, st_played (step op g) = false ->
                 fastplay_ (st_game (step op g)) = fastplay_ g)
  /\ (Game.moves (game_ g) = [] -> fastplay_ g = false)
  /\ ((fastplay_frequency options == 0)%Q -> fastplay_ g = false)
  /\ ((fastplay_frequency options == 1)%Q ->
      (forall r, (fst (rnd_uniform r) < 1)%Q) ->
      Game.game_over (game_ g) = false ->
      Game.moves (game_ g) <> [] ->
      fastplay_ g = true).
Proof.
  intros g0 g.
  destruct (new_flags options (Game.new black white game_options) tree ansi
              now seed stream) as (_ & F0 & _ & G0 & O0 & _).
  fold g0 in F0, G0, O0.
  split_and!.
  - exact F0.
  - intros op Hnot.
    destruct (step_fastplay op g) as [(_ & F & _) | [(P & _) | (P & _)]];
      congruence.
  - intros Hempty. destruct (fastplay_ g) eqn:E; [| reflexivity].
    exfalso. apply (run_slow_opening ops g0); auto.
    intros E0. congruence.
  - intros Hzero. apply run_never_fast; [| exact F0].
    rewrite O0. destruct (Qlt_bool 0 (fastplay_frequency options)) eqn:E;
      [| reflexivity].
    apply Qlt_bool_iff in E. rewrite Hzero in E. discriminate E.
  - intros Hone Hrange. apply run_fast_after_opening; auto.
    + rewrite O0. exact Hone.
    + intros _ Hmoves. rewrite G0 in Hmoves. contradiction.
Qed.

(** *** Models used *)

Lemma record_model_spec model_name g :
  model_name <> "" ->
  last (models_used_ (record_model model_name g)) = Some model_name
  /\ (models_used_ (record_model model_name g) = models_used_ g
      \/ (models_used_ (record_model model_name g)
          = models_used_ g ++ [model_name]
          /\ last (models_used_ g) <> Some model_name)).
Proof.
  intros Hne. unfold record_model.
  destruct (decide _) as [|_]; [contradiction |].
  destruct (last (models_used_ g)) as [back|] eqn:E.
  - destruct (decide _) as [->|Hb].
    + split; auto.
    + destruct g; simpl in *. rewrite last_snoc.
      split; [reflexivity | right]. split; [reflexivity | congruence].
  - destruct g; simpl in *. rewrite last_snoc.
    split; [reflexivity | right]. split; [reflexivity | congruence].
Qed.

Lemma record_model_empty g : record_model "" g = g.
Proof. unfold record_model. destruct (decide _); [reflexivity | contradiction]. Qed.

Lemma step_models_used op g :
  no_adjacent_dups (models_used_ g) ->
  no_adjacent_dups (models_used_ (st_game (step op g))).
Proof.
  intros Inv.
  destruct op as [fuel cache inferences | model_name inferences | now].
  - destruct (step_SelectLeaves fuel cache inferences g)
      as (_ & _ & _ & _ & _ & _ & M & _). rewrite M. exact Inv.
  - destruct (step_ProcessInferences model_name inferences g)
      as (_ & _ & _ & _ & _ & _ & _ & M). rewrite M.
    destruct (decide (model_name = "")) as [->|Hne].
    + rewrite record_model_empty. exact Inv.
    + destruct (record_model_spec model_name g Hne) as [_ [-> | [-> L]]];
        auto using no_adjacent_dups_snoc.
  - destruct (step_MaybePlayMove now g) as (-> & _).
    destruct (MaybePlayMove_cases now g) as (_ & _ & M & _).
    rewrite M. exact Inv.
Qed.

Lemma run_models_used ops g :
  no_adjacent_dups (models_used_ g) ->
  no_adjacent_dups (models_used_ (run ops g)).
Proof.
  revert g. induction ops as [|op ops IH]; intros g Inv; simpl; [exact Inv |].
  apply IH, step_models_used, Inv.
Qed.

(** The claim as stated: after a call with a non-empty name no model
    occurs twice in the list. *)
Definition models_used_deduplicated (g0 : SelfplayGame.t) : Prop :=
  forall ops model_name inferences,
    model_name <> "" ->
    NoDup (models_used_
             (fst (ProcessInferences model_name inferences (run ops g0)))).

(** C7, as amended.  For a game made by the constructor and driven by any
    sequence of calls, a call of [ProcessInferences] with a non-empty
    model name leaves that name last in [models_used_], either by
    appending it or because it was last already, and so in the list; a
    call with the empty name leaves the list as it was; and no two
    neighbours of the list are equal. *)
Theorem models_used_recorded
    (options : Options) (game : Game.t) (tree : MctsTree) (ansi : bool)
    (now seed stream : Z) (ops : list Op)
    (model_name : string) (inferences : list Inference) :
  let g := run ops (SelfplayGame.new options game tree ansi now seed stream) in
  let g' := fst (ProcessInferences model_name inferences g) in
  (model_name <> "" ->
   last (models_used_ g') = Some model_name
   /\ In model_name (models_used_ g')
   /\ (models_used_ g' = models_used_ g
       \/ models_used_ g' = models_used_ g ++ [model_name]))
  /\ (model_name = "" -> models_used_ g' = models_used_ g)
  /\ no_adjacent_dups (models_used_ g').
Proof.
  intros g g'.
  destruct (ProcessInferences_fields model_name inferences g) as [_ M].
  fold g' in M.
  split_and!.
  - intros Hne. rewrite M.
    destruct (record_model_spec model_name g Hne) as [L D].
    split_and!; [exact L | | tauto].
    destruct (models_used_ (record_model model_name g)) as [|a l] eqn:E
      using rev_ind; [discriminate |].
    rewrite last_snoc in L. injection L as ->.
    apply in_or_app. right. left. reflexivity.
  - intros ->. rewrite M, record_model_empty. reflexivity.
  - rewrite M.
    destruct (step_ProcessInferences model_name inferences g)
      as (_ & _ & _ & _ & _ & _ & _ & Ms).
    rewrite <- Ms. apply step_models_used. unfold g. apply run_models_used.
    destruct (new_flags options game tree ansi now seed stream)
      as (_ & _ & -> & _). exact I.
Qed.

End RunClaims.

(** ** Claims about the orchestrator and the thread *)

Section SelfplayerClaims.
Context `{CacheOps}.

(** C6, on the code.  [Run] hands [FLAGS_cache_shards] to the cache as it
    is: with [--model=m --num_games=3 --cache_size_mb=1] and every other
    flag at its default, the flags are accepted, the process plays 1 * 3
    games at once, and the cache is built with 8 shards. *)
Theorem cache_shards_not_clamped
    (default_game_options : Game.Options)
    (default_tree_options : TreeOptions) :
  (forall sp,
      0 < FLAGS_cache_size_mb (Selfplayer.flags sp) ->
      Selfplayer.Run_inference_cache sp
      = ThreadSafeInferenceCache_new
          (CalculateCapacity (FLAGS_cache_size_mb (Selfplayer.flags sp)))
          (FLAGS_cache_shards (Selfplayer.flags sp)))
  /\ exists sp,
       Selfplayer.new (flags_of_command_line "m" 3 1)
                      default_game_options default_tree_options = Some sp
       /\ parallel_games (Selfplayer.flags sp) = 3
       /\ Selfplayer.Run_inference_cache sp
          = ThreadSafeInferenceCache_new (CalculateCapacity 1) 8.
Proof.
  split.
  - intros sp Hmb. unfold Selfplayer.Run_inference_cache.
    apply Z.ltb_lt in Hmb. rewrite Hmb. reflexivity.
  - eexists. split; [reflexivity |]. split; reflexivity.
Qed.

End SelfplayerClaims.

Section SelfplayThreadClaims.
Context `{CacheOps}.

Import SelfplayThread.

Lemma take_remove_slot i (games : list (option SelfplayGame.t)) :
  (i < length games)%nat -> take i (remove_slot i games) = take i games.
Proof.
  intros Hlt. unfold remove_slot.
  rewrite take_take, Nat.min_l by lia.
  apply take_insert_ge. lia.
Qed.

(** The loop keeps every slot below the index non-null and leaves only
    when the index has reached the end of the array. *)
Lemma StartNewGames_from_no_null thread_id now ansi i games sp :
  Forall is_Some (take i games) ->
  Forall is_Some (fst (StartNewGames_from thread_id now ansi i games sp)).
Proof.
  funelim (StartNewGames_from thread_id now ansi i games sp);
    intros Hbelow; simpl;
    try match goal with
        | IH : Forall is_Some (take _ _) -> _ |- _ => apply IH
        end.
  - (* the index is past the end: the loop is left *)
    rewrite take_ge in Hbelow by lia. exact Hbelow.
  - (* a game is playing in slot i *)
    match goal with E : games !! i = Some _ |- _ =>
      rewrite (take_S_r _ _ _ E) end.
    apply Forall_app. split; [exact Hbelow |].
    constructor; [eexists; reflexivity | constructor].
  - (* no slot i below the length: impossible *)
    match goal with E : games !! i = None |- _ =>
      apply lookup_ge_None in E end.
    lia.
  - (* slot i is refilled *)
    erewrite take_S_r by (apply list_lookup_insert_eq; lia).
    rewrite take_insert_ge by lia.
    apply Forall_app. split; [exact Hbelow |].
    constructor; [eexists; reflexivity | constructor].
  - (* slot i is removed; the element moved in is examined next *)
    rewrite take_remove_slot by lia. exact Hbelow.
Qed.

(** The spans of a searcher point at slots of an array of [n] games. *)
Definition spans_in_range (n : nat) (ts : TreeSearcher.t) : Prop :=
  Forall (fun span => (TreeSearcher.selfplay_game span < n)%nat)
         (TreeSearcher.inference_spans_ ts).

Lemma spans_in_range_mono n m ts :
  (n <= m)%nat -> spans_in_range n ts -> spans_in_range m ts.
Proof.
  intros Hle Hn. unfold spans_in_range in *.
  eapply Forall_impl; [exact Hn |]. intros span. simpl. lia.
Qed.

(** A search over slots that are all non-null dereferences no null slot,
    leaves them non-null, and records spans that point into the range it
    searched. *)
Lemma Search_games_no_null fuel games : forall first cache ts,
  Forall is_Some games ->
  exists r,
    TreeSearcher.Search_games fuel first games cache ts = Some r
    /\ Forall is_Some (TreeSearcher.sr_games r)
    /\ length (TreeSearcher.sr_games r) = length games
    /\ forall n, spans_in_range n ts ->
                 (games = [] \/ first + length games <= n)%nat ->
                 spans_in_range n (TreeSearcher.sr_searcher r).
Proof.
  induction games as [|slot rest IH]; intros first cache ts Hall; simpl.
  - eexists. split_and!; [reflexivity | constructor | reflexivity |].
    intros n Hts _. exact Hts.
  - apply Forall_cons in Hall. destruct Hall as [[g ->] Hrest]. simpl.
    destruct (SelfplayGame.SelectLeaves fuel cache
                (TreeSearcher.inferences_ ts) g) as [ret s].
    match goal with
    | |- context [TreeSearcher.Search_games fuel (S first) rest ?c ?t] =>
        destruct (IH (S first) c t Hrest) as (r & E & Hs & Hl & Hspans);
        rewrite E
    end.
    simpl. eexists. split_and!; [reflexivity | | |]; simpl.
    + constructor; [eexists; reflexivity | exact Hs].
    + rewrite Hl. reflexivity.
    + intros n Hts [Hnil | Hn]; [discriminate |].
      apply Hspans; [| right; simpl in Hn; lia].
      unfold spans_in_range in *. simpl.
      destruct (0 <? _)%nat; [| exact Hts].
      apply Forall_app. split; [exact Hts |].
      constructor; [simpl in *; lia | constructor].
Qed.

Definition valid_at (games : list (option SelfplayGame.t))
    (searchers : list TreeSearcher.t) (i : nat) : Prop :=
  forall ts, searchers !! i = Some ts -> spans_in_range (length games) ts.

Lemma SelectLeaves_shards_no_null fuel n shards :
  forall games cache searchers,
  Forall is_Some games ->
  exists r,
    SelectLeaves_shards fuel n shards games cache searchers = Some r
    /\ Forall is_Some (sl_games r)
    /\ (length games <= length (sl_games r))%nat
    /\ length (sl_searchers r) = length searchers
    /\ forall i, i ∈ shards \/ valid_at games searchers i ->
                 valid_at (sl_games r) (sl_searchers r) i.
Proof.
  induction shards as [|i rest IH]; intros games cache searchers Hall.
  - eexists. split; [reflexivity |]. simpl.
    split_and!; [exact Hall | lia | reflexivity |].
    intros i [Hin | Hv]; [| exact Hv].
    apply elem_of_nil in Hin. contradiction.
  - cbn [SelectLeaves_shards].
    destruct (GetShardRange i n (length games)) as [b e].
    set (sub := take (e - b) (drop b games)).
    assert (Hsub : Forall is_Some sub)
      by (apply Forall_take, Forall_drop, Hall).
    unfold TreeSearcher.Search.
    destruct (Search_games_no_null fuel sub b cache TreeSearcher.cleared Hsub)
      as (r & E & Hs & Hl & Hspans).
    rewrite E. simpl.
    set (games' := take b games ++ TreeSearcher.sr_games r ++ drop e games).
    assert (Hall' : Forall is_Some games').
    { unfold games'. rewrite !Forall_app.
      split_and!; auto using Forall_take, Forall_drop. }
    assert (Hlen : (length games <= length games')%nat).
    { unfold games'. rewrite !length_app, Hl. unfold sub.
      rewrite !length_take, !length_drop. lia. }
    assert (Hnew : spans_in_range (length games') (TreeSearcher.sr_searcher r)).
    { apply Hspans; [constructor |].
      destruct sub as [|x sub'] eqn:Esub; [left; reflexivity | right].
      assert (b < length games)%nat.
      { destruct (decide (b < length games)%nat); [assumption |].
        unfold sub in Esub. rewrite drop_ge, take_nil in Esub by lia.
        discriminate. }
      unfold games'. rewrite !length_app, Hl, length_take. lia. }
    destruct (IH games' (TreeSearcher.sr_cache r)
                (<[i := TreeSearcher.sr_searcher r]> searchers) Hall')
      as (r' & E' & Hs' & Hl' & Hn' & Hv').
    rewrite E'. simpl. eexists. split; [reflexivity |]. simpl.
    split_and!; [exact Hs' | lia | |].
    + rewrite Hn', length_insert. reflexivity.
    + intros j Hj. apply Hv'.
      destruct (decide (j = i)) as [-> | Hne].
      * right. intros ts Hts.
        destruct (decide (i < length searchers)%nat) as [Hi | Hi].
        -- rewrite list_lookup_insert_eq in Hts by lia.
           injection Hts as <-. exact Hnew.
        -- apply lookup_lt_Some in Hts. rewrite length_insert in Hts. lia.
      * destruct Hj as [Hin | Hv].
        -- left. apply elem_of_cons in Hin. destruct Hin; [contradiction | auto].
        -- right. intros ts Hts.
           rewrite list_lookup_insert_ne in Hts by auto.
           eapply spans_in_range_mono; [exact Hlen | exact (Hv ts Hts)].
Qed.

Lemma fill_searchers_spans searchers : forall outputs,
  map TreeSearcher.inference_spans_ (fill_searchers searchers outputs)
  = map TreeSearcher.inference_spans_ searchers.
Proof.
  induction searchers as [|ts rest IH]; intros outputs; simpl; [reflexivity |].
  destruct (fill_outputs _ _) as [filled remaining]. simpl.
  rewrite IH. reflexivity.
Qed.

Lemma spans_in_range_ext n (l : list TreeSearcher.t) : forall l',
  map TreeSearcher.inference_spans_ l' = map TreeSearcher.inference_spans_ l ->
  Forall (spans_in_range n) l -> Forall (spans_in_range n) l'.
Proof.
  induction l as [|ts l IH]; intros [|ts' l'] E Hl; simpl in E;
    try discriminate; [constructor |].
  injection E as Ets El. apply Forall_cons in Hl. destruct Hl as [Hts Hl].
  constructor; [| apply IH; assumption].
  unfold spans_in_range in *. rewrite Ets. exact Hts.
Qed.

Lemma process_spans_no_null model_name inferences spans : forall games,
  Forall is_Some games ->
  Forall (fun span => (TreeSearcher.selfplay_game span < length games)%nat)
         spans ->
  exists games',
    process_spans model_name inferences spans games = Some games'
    /\ Forall is_Some games' /\ length games' = length games.
Proof.
  induction spans as [|span rest IH]; intros games Hall Hspans; simpl.
  - eexists. split_and!; [reflexivity | exact Hall | reflexivity].
  - apply Forall_cons in Hspans. destruct Hspans as [Hlt Hrest].
    destruct (lookup_lt_is_Some_2 games _ Hlt) as [slot Eslot].
    rewrite Eslot. simpl.
    destruct (proj1 (Forall_lookup _ _) Hall _ _ Eslot) as [g ->]. simpl.
    destruct (SelfplayGame.ProcessInferences _ _ g) as [g' calls].
    destruct (IH (<[TreeSearcher.selfplay_game span := Some g']> games))
      as (games' & E & Hs & Hl).
    + apply Forall_insert; [exact Hall | eexists; reflexivity].
    + rewrite length_insert. exact Hrest.
    + rewrite E. eexists. split_and!; [reflexivity | exact Hs |].
      rewrite Hl, length_insert. reflexivity.
Qed.

Lemma ProcessInferences_searchers_no_null model_name searchers :
  forall games cache,
  Forall is_Some games ->
  Forall (spans_in_range (length games)) searchers ->
  exists r,
    ProcessInferences_searchers model_name searchers games cache = Some r
    /\ Forall is_Some (fst r) /\ length (fst r) = length games.
Proof.
  induction searchers as [|ts rest IH]; intros games cache Hall Hv; simpl.
  - eexists. split_and!; [reflexivity | exact Hall | reflexivity].
  - apply Forall_cons in Hv. destruct Hv as [Hts Hrest].
    destruct (process_spans_no_null model_name (TreeSearcher.inferences_ ts)
                (TreeSearcher.inference_spans_ ts) games Hall Hts)
      as (games' & E & Hs & Hl).
    rewrite E. simpl.
    destruct (IH games' (merge_inferences (TreeSearcher.inferences_ ts) cache)
                Hs) as (r & E' & Hs' & Hl').
    + rewrite Hl. exact Hrest.
    + rewrite E'. eexists. split_and!; [reflexivity | exact Hs' | congruence].
Qed.

Lemma PlayMoves_slots_no_null now games : forall sp,
  Forall is_Some games -> is_Some (PlayMoves_slots now games sp).
Proof.
  induction games as [|slot rest IH]; intros sp Hall; simpl.
  - eexists. reflexivity.
  - apply Forall_cons in Hall. destruct Hall as [[g ->] Hrest]. simpl.
    destruct (SelfplayGame.MaybePlayMove now g) as [[played g'] calls].
    destruct (if played && _ then _ else _) as [slot' sp'].
    destruct (IH sp' Hrest) as [[rest' sp''] E]. rewrite E. simpl.
    eexists. reflexivity.
Qed.

(** C9. After [StartNewGames] every slot left in the array holds a game:
    a null slot is refilled or removed, and the element moved into its
    place is examined before the index moves on.  So the rest of the pass
    of [Run] dereferences no null slot: [SelectLeaves] succeeds on the
    array and leaves every slot non-null, [PlayMoves] succeeds on it, and
    the whole pass, [ProcessInferences] included, completes. *)
Theorem StartNewGames_leaves_no_null_slot
    (env : Env) (cache : InferenceCache) (th : SelfplayThread.t)
    (sp : Selfplayer.t) :
  let started := StartNewGames (env_now env) (env_ansi env) th sp in
  Forall is_Some (selfplay_games_ (fst started))
  /\ (exists sel,
         SelectLeaves (env_fuel env) cache (fst started) = Some sel
         /\ Forall is_Some (sl_games sel))
  /\ is_Some (PlayMoves (env_now env) (fst started) (snd started))
  /\ is_Some (Run_cycle env cache th sp).
Proof.
  intros started.
  assert (Hall : Forall is_Some (selfplay_games_ (fst started))).
  { unfold started, StartNewGames.
    pose proof (StartNewGames_from_no_null (thread_id_ th) (env_now env)
                  (env_ansi env) 0 (selfplay_games_ th) sp) as Hs.
    destruct (StartNewGames_from _ _ _ _ _ _) as [games sp']. simpl in *.
    apply Hs. constructor. }
  destruct (SelectLeaves_shards_no_null (env_fuel env)
              (length (searchers_ (fst started)))
              (seq 0 (length (searchers_ (fst started))))
              (selfplay_games_ (fst started)) cache
              (searchers_ (fst started)) Hall)
    as (sel & Esel & Hsel & Hlen & Hn & Hvalid).
  assert (Hplay : forall t games sp0,
             Forall is_Some games ->
             is_Some (PlayMoves t
                        {| selfplay_games_ := games;
                           searchers_ := searchers_ (fst started);
                           thread_id_ := thread_id_ (fst started) |} sp0)).
  { intros t games sp0 Hg. unfold PlayMoves. simpl.
    destruct (PlayMoves_slots_no_null t games sp0 Hg) as [[games' sp1] E].
    rewrite E. simpl. eexists. reflexivity. }
  split_and!.
  - exact Hall.
  - exists sel. split; [exact Esel | exact Hsel].
  - destruct (fst started) as [games searchers tid] eqn:Est. simpl in *.
    apply (Hplay _ games _ Hall).
  - unfold Run_cycle. fold started.
    destruct started as [th1 sp1] eqn:Est. simpl in *.
    unfold SelectLeaves in *. rewrite Esel. simpl.
    assert (Hspans : Forall (spans_in_range (length (sl_games sel)))
                            (sl_searchers sel)).
    { apply Forall_lookup. intros i ts Hts. apply (Hvalid i); [| exact Hts].
      left. apply elem_of_seq. apply lookup_lt_Some in Hts. lia. }
    unfold RunInferences. simpl.
    set (inputs := concat _).
    assert (Hproc : forall model_name searchers',
               map TreeSearcher.inference_spans_ searchers'
               = map TreeSearcher.inference_spans_ (sl_searchers sel) ->
               is_Some
                 ('(th4, cache') ← ProcessInferences model_name (sl_cache sel)
                      {| selfplay_games_ := sl_games sel;
                         searchers_ := searchers';
                         thread_id_ := thread_id_ th1 |};
                  '(th5, sp2) ← PlayMoves (env_now env) th4 sp1;
                  Some (th5, sp2, cache'))).
    { intros model_name searchers' Emap.
      assert (Hspans' : Forall (spans_in_range (length (sl_games sel)))
                               searchers').
      { eapply spans_in_range_ext; [exact Emap | exact Hspans]. }
      unfold ProcessInferences. simpl.
      destruct (ProcessInferences_searchers_no_null model_name searchers'
                  (sl_games sel) (sl_cache sel) Hsel Hspans')
        as ([games4 cache4] & E4 & Hs4 & _).
      rewrite E4. simpl. simpl in Hs4.
      unfold PlayMoves. simpl.
      destruct (PlayMoves_slots_no_null (env_now env) games4 sp1 Hs4)
        as [[games5 sp5] E5].
      rewrite E5. simpl. eexists. reflexivity. }
    destruct inputs as [|x inputs'].
    + apply Hproc. reflexivity.
    + destruct (env_RunMany env (x :: inputs')) as [outputs model_name].
      apply Hproc. simpl. apply fill_searchers_spans.
Qed.

End SelfplayThreadClaims.

(** * Further properties of the code *)

(** ** The orchestrator: flags and the quota of games *)

Section SelfplayerProperties.
Context `{CacheOps}.

Import SelfplayGame.

(** X1. When the flags are accepted for a bounded run
    ([run_forever] false) with at least one selfplay thread, [ParseFlags]
    changes no flag but [concurrent_games_per_thread], never raises it,
    leaves it at least 1 if it was, and leaves the threads together fewer
    slots than [num_games + selfplay_threads]: no thread holds a slot
    beyond its share of the games, rounded up.  The flag is left as it was
    when all slots together do not exceed the number of games, and the
    count of games left to start is [num_games], which is positive.  The
    flags are [int32]: the statement is for flags whose sum
    [num_games + selfplay_threads - 1], which the code computes, fits. *)
Theorem ParseFlags_clamps_games_per_thread (sp sp' : Selfplayer.t) :
  Selfplayer.ParseFlags sp = Some sp' ->
  FLAGS_run_forever (Selfplayer.flags sp) = false ->
  0 < FLAGS_selfplay_threads (Selfplayer.flags sp) ->
  FLAGS_num_games (Selfplayer.flags sp)
  + FLAGS_selfplay_threads (Selfplayer.flags sp) - 1 < 2 ^ 31 ->
  let f := Selfplayer.flags sp in
  let f' := Selfplayer.flags sp' in
  0 < FLAGS_num_games f
  /\ Selfplayer.num_games_remaining_ sp' = FLAGS_num_games f
  /\ f' = set_FLAGS_concurrent_games_per_thread
            (FLAGS_concurrent_games_per_thread f') f
  /\ FLAGS_concurrent_games_per_thread f'
     <= FLAGS_concurrent_games_per_thread f
  /\ parallel_games f' < FLAGS_num_games f + FLAGS_selfplay_threads f
  /\ (1 <= FLAGS_concurrent_games_per_thread f ->
      1 <= FLAGS_concurrent_games_per_thread f')
  /\ (parallel_games f <= FLAGS_num_games f ->
      FLAGS_concurrent_games_per_thread f'
      = FLAGS_concurrent_games_per_thread f).
Proof.
  intros Hparse Hbounded Hthreads Hfits f f'. subst f'.
  unfold Selfplayer.ParseFlags in Hparse.
  fold f in Hparse, Hbounded, Hthreads, Hfits.
  rewrite Hbounded in Hparse.
  destruct (0 <? FLAGS_num_games f) eqn:Egames; [| discriminate].
  apply Z.ltb_lt in Egames. simpl in Hparse.
  destruct (bool_decide _); [discriminate |].
  unfold Selfplayer.clamp_concurrent_games_per_thread in Hparse.
  rewrite Hbounded, int32_sub_l, int32_id in Hparse by lia.
  replace (FLAGS_selfplay_threads f =? 0) with false in Hparse
    by (symmetry; apply Z.eqb_neq; lia).
  replace (FLAGS_selfplay_threads f =? -1) with false in Hparse
    by (symmetry; apply Z.eqb_neq; lia).
  rewrite andb_false_r in Hparse. cbn [orb mbind option_bind] in Hparse.
  injection Hparse as <-. simpl.
  set (n := FLAGS_num_games f) in *.
  set (t := FLAGS_selfplay_threads f) in *.
  set (c := FLAGS_concurrent_games_per_thread f) in *.
  rewrite Z.quot_div_nonneg by lia.
  pose proof (Z.mul_div_le (n + t - 1) t Hthreads) as Hle.
  assert (Hone : 1 <= (n + t - 1) / t).
  { apply Z.div_le_lower_bound; lia. }
  unfold parallel_games. simpl. fold t c.
  split_and!; [lia | reflexivity | reflexivity | lia | nia | lia |].
  intros Hfit.
  assert (c <= (n + t - 1) / t) by (apply Z.div_le_lower_bound; lia).
  lia.
Qed.

Lemma play_picked_move_game_options g :
  Game.options (game_ (fst (play_picked_move g))) = Game.options (game_ g).
Proof.
  unfold play_picked_move.
  destruct (PickMove _ _) as [c rnd].
  destruct (negb _ && negb _);
    (destruct (at_move_limit _); [| destruct (is_game_over _)]);
    reflexivity.
Qed.

(** No method changes the options of the [Game]. *)
Lemma MaybePlayMove_game_options now g :
  Game.options (game_ (snd (fst (MaybePlayMove now g))))
  = Game.options (game_ g).
Proof.
  unfold MaybePlayMove.
  destruct (root_N g <? target_readouts_ g); [reflexivity |].
  assert (E : Game.options
                (game_ (fst (if ShouldResign g then resign g
                             else play_picked_move g)))
              = Game.options (game_ g)).
  { destruct (ShouldResign g);
      [reflexivity | apply play_picked_move_game_options]. }
  destruct (if ShouldResign g then _ else _) as [g1 calls1]. simpl in E.
  destruct (negb (Game.game_over (game_ g1))).
  - destruct (prepare_next_move_spec g1) as (_ & _ & _ & G & _).
    destruct (prepare_next_move g1) as [g2 calls2]. simpl in *.
    rewrite G. exact E.
  - exact E.
Qed.

Lemma step_game_options op g :
  Game.options (game_ (st_game (step op g))) = Game.options (game_ g).
Proof.
  destruct op as [fuel cache inferences | model_name inferences | now].
  - destruct (step_SelectLeaves fuel cache inferences g)
      as (_ & _ & _ & _ & -> & _). reflexivity.
  - destruct (step_ProcessInferences model_name inferences g)
      as (_ & _ & _ & _ & -> & _). reflexivity.
  - destruct (step_MaybePlayMove now g) as (-> & _).
    apply MaybePlayMove_game_options.
Qed.


(** The game [StartNewGame] makes. *)
Lemma StartNewGame_game v now ansi sp g sp' :
  Selfplayer.StartNewGame v now ansi sp = (Some g, sp') ->
  Game.resign_threshold (Game.options (game_ g))
  = Game.resign_threshold (Selfplayer.game_options_ sp)
  /\ Game.resign_enabled (Game.options (game_ g))
     = Qge_bool (fst (rnd_uniform (Selfplayer.rnd_ sp)))
                (FLAGS_disable_resign_pct (Selfplayer.flags sp))
  /\ Game.moves (game_ g) = []
  /\ Game.game_over_reason (game_ g) = None
  /\ verbose (options_ g) = v
  /\ Selfplayer.game_options_ sp' = Selfplayer.game_options_ sp
  /\ Selfplayer.flags sp' = Selfplayer.flags sp
  /\ Selfplayer.output_queue_ sp' = Selfplayer.output_queue_ sp
  /\ Selfplayer.win_stats_ sp' = Selfplayer.win_stats_ sp.
Proof.
  unfold Selfplayer.StartNewGame.
  destruct (negb _ && _); [discriminate |].
  destruct (rnd_uniform (Selfplayer.rnd_ sp)) as [r1 rnd1].
  destruct (rnd_uniform rnd1) as [r2 rnd2].
  unfold SelfplayGame.new.
  destruct (UniformUint64 _) as [mix rnd].
  intros E. injection E as <- <-. simpl. split_and!; reflexivity.
Qed.


(** Calls of [StartNewGame] one after the other; a request is the
    arguments of a call. *)
Fixpoint StartNewGame_each (requests : list (bool * Z * bool))
    (sp : Selfplayer.t) : list (option SelfplayGame.t) * Selfplayer.t :=
  match requests with
  | [] => ([], sp)
  | (verbose, now, ansi) :: rest =>
      let '(game, sp1) := Selfplayer.StartNewGame verbose now ansi sp in
      let '(games, sp2) := StartNewGame_each rest sp1 in
      (game :: games, sp2)
  end.

(** X3. In a bounded run the orchestrator starts exactly the games that
    are left: of any sequence of calls of [StartNewGame] the first
    [num_games_remaining_] are answered with a game and all later ones
    with a null pointer, and the count goes down by the number of games
    started, never below zero. *)
Theorem StartNewGame_quota (requests : list (bool * Z * bool))
    (sp : Selfplayer.t) :
  FLAGS_run_forever (Selfplayer.flags sp) = false ->
  0 <= Selfplayer.num_games_remaining_ sp ->
  let r := StartNewGame_each requests sp in
  let started :=
    Nat.min (length requests)
            (Z.to_nat (Selfplayer.num_games_remaining_ sp)) in
  Forall is_Some (take started (fst r))
  /\ drop started (fst r) = replicate (length requests - started) None
  /\ Selfplayer.num_games_remaining_ (snd r)
     = Selfplayer.num_games_remaining_ sp - Z.of_nat started
  /\ 0 <= Selfplayer.num_games_remaining_ (snd r).
Proof.
  revert sp. induction requests as [|[[verbose now] ansi] rest IH];
    intros sp Hbounded Hleft; simpl.
  - split_and!; [constructor | reflexivity | lia | lia].
  - destruct (Selfplayer.StartNewGame verbose now ansi sp) as [game sp1] eqn:E.
    assert (Hsp1 : FLAGS_run_forever (Selfplayer.flags sp1) = false
                   /\ match game with
                      | Some _ => 0 < Selfplayer.num_games_remaining_ sp
                                  /\ Selfplayer.num_games_remaining_ sp1
                                     = Selfplayer.num_games_remaining_ sp - 1
                      | None => Selfplayer.num_games_remaining_ sp = 0
                                /\ sp1 = sp
                      end).
    { unfold Selfplayer.StartNewGame in E. rewrite Hbounded in E. simpl in E.
      destruct (Selfplayer.num_games_remaining_ sp =? 0) eqn:Ez.
      - injection E as <- <-. apply Z.eqb_eq in Ez. auto.
      - apply Z.eqb_neq in Ez.
        destruct (rnd_uniform (Selfplayer.rnd_ sp)) as [r1 rnd1].
        destruct (rnd_uniform rnd1) as [r2 rnd2].
        injection E as <- <-. simpl. rewrite Hbounded.
        split_and!; [reflexivity | lia | reflexivity]. }
    destruct Hsp1 as [Hb1 Hgame].
    assert (Hleft1 : 0 <= Selfplayer.num_games_remaining_ sp1)
      by (destruct game; destruct Hgame; subst; lia).
    specialize (IH sp1 Hb1 Hleft1).
    destruct (StartNewGame_each rest sp1) as [games sp2]. simpl in *.
    destruct IH as (Hsome & Hnone & Hcount & Hnonneg).
    destruct game as [g|]; destruct Hgame as [Hg Hsp1].
    + assert (Es : Z.to_nat (Selfplayer.num_games_remaining_ sp)
                   = S (Z.to_nat (Selfplayer.num_games_remaining_ sp1)))
        by lia.
      rewrite Es. simpl.
      split_and!; [constructor; [eexists; reflexivity | exact Hsome]
                  | exact Hnone | lia | exact Hnonneg].
    + subst sp1. rewrite Hg in *. simpl in *.
      rewrite Nat.min_0_r in *. simpl in *. rewrite drop_0 in Hnone.
      rewrite Nat.sub_0_r in *.
      split_and!; [constructor | f_equal; exact Hnone | lia | lia].
Qed.

(** X4. With [--run_forever] no call of [StartNewGame] is refused and the
    count of games left is never touched, so it cannot run below zero;
    the count of random streams handed out goes up by one for each
    game. *)
Theorem StartNewGame_run_forever (requests : list (bool * Z * bool))
    (sp : Selfplayer.t) :
  FLAGS_run_forever (Selfplayer.flags sp) = true ->
  let r := StartNewGame_each requests sp in
  Forall is_Some (fst r)
  /\ length (fst r) = length requests
  /\ Selfplayer.num_games_remaining_ (snd r)
     = Selfplayer.num_games_remaining_ sp
  /\ Selfplayer.streams_ (snd r)
     = Selfplayer.streams_ sp + Z.of_nat (length requests).
Proof.
  revert sp. induction requests as [|[[verbose now] ansi] rest IH];
    intros sp Hforever; simpl.
  - split_and!; [constructor | reflexivity | reflexivity | lia].
  - unfold Selfplayer.StartNewGame. rewrite Hforever. simpl.
    destruct (rnd_uniform (Selfplayer.rnd_ sp)) as [r1 rnd1].
    destruct (rnd_uniform rnd1) as [r2 rnd2].
    match goal with
    | |- context [StartNewGame_each rest ?s] =>
        specialize (IH s); destruct (StartNewGame_each rest s) as [games sp2]
    end.
    simpl in *. rewrite Hforever in IH.
    destruct (IH eq_refl) as (Hsome & Hlen & Hcount & Hstreams).
    split_and!; [constructor; [eexists; reflexivity | exact Hsome]
                | f_equal; exact Hlen | exact Hcount | lia].
Qed.

End SelfplayerProperties.

(** ** A game: its record of moves and the inferences it asks for *)

Section GameProperties.
Context `{CacheOps}.

Import SelfplayGame.

(** The game ended by a resignation. *)
Definition resigned (g : Game.t) : bool :=
  match Game.game_over_reason g with
  | Some (Game.kOpponentResigned _) => true
  | _ => false
  end.

Lemma play_picked_move_resigned g :
  resigned (game_ (fst (play_picked_move g))) = true ->
  resigned (game_ g) = true.
Proof.
  unfold play_picked_move.
  destruct (PickMove _ _) as [c rnd].
  destruct (negb _ && negb _);
    (destruct (at_move_limit _); [| destruct (is_game_over _)]);
    simpl; unfold resigned; simpl; auto; discriminate.
Qed.

Lemma MaybePlayMove_resigned now g :
  Game.resign_enabled (Game.options (game_ g)) = false ->
  resigned (game_ (snd (fst (MaybePlayMove now g)))) = true ->
  resigned (game_ g) = true.
Proof.
  intros Hoff. unfold MaybePlayMove.
  destruct (root_N g <? target_readouts_ g); [auto |].
  unfold ShouldResign. rewrite Hoff. simpl.
  pose proof (play_picked_move_resigned g) as Hp.
  destruct (play_picked_move g) as [g1 calls1]. simpl in Hp.
  destruct (negb (Game.game_over (game_ g1))).
  - destruct (prepare_next_move_spec g1) as (_ & _ & _ & G & _).
    destruct (prepare_next_move g1) as [g2 calls2]. simpl in *.
    rewrite G. exact Hp.
  - simpl. exact Hp.
Qed.

(** X5. A game started with resignation disabled is never ended by a
    resignation, whatever its methods are called with and however bad the
    evaluation of its root. *)
Theorem resign_disabled_never_resigns (ops : list Op) (g : SelfplayGame.t) :
  Game.resign_enabled (Game.options (game_ g)) = false ->
  resigned (game_ g) = false ->
  resigned (game_ (run ops g)) = false
  /\ ShouldResign (run ops g) = false.
Proof.
  revert g. induction ops as [|op ops IH]; intros g Hoff Hnot; simpl.
  - split; [exact Hnot |]. unfold ShouldResign. rewrite Hoff. reflexivity.
  - apply IH.
    + rewrite step_game_options. exact Hoff.
    + destruct (resigned (game_ (st_game (step op g)))) eqn:E; [| reflexivity].
      rewrite <- Hnot. symmetry.
      destruct op as [fuel cache inferences | model_name inferences | now].
      * destruct (step_SelectLeaves fuel cache inferences g)
          as (_ & _ & _ & _ & G & _). rewrite G in E. exact E.
      * destruct (step_ProcessInferences model_name inferences g)
          as (_ & _ & _ & _ & G & _). rewrite G in E. exact E.
      * destruct (step_MaybePlayMove now g) as (G & _). rewrite G in E.
        exact (MaybePlayMove_resigned now g Hoff E).
Qed.

(** The move [play_picked_move] adds to the record. *)
Lemma play_picked_move_moves g :
  let picked := fst (PickMove (rnd_ g) (tree_ g)) in
  exists m,
    Game.moves (game_ (fst (play_picked_move g)))
    = Game.moves (game_ g) ++ [m]
    /\ Game.c m = picked
    /\ Game.color m = to_play (tree_ g)
    /\ Game.position m = node_position (tree_ g) (root (tree_ g))
    /\ Game.Q_ m = node_Q (tree_ g) (root (tree_ g))
    /\ Game.search_pi m = CalculateSearchPi (tree_ g)
    /\ Game.trainable m
       = negb (bool_decide (picked = kResign)) && negb (fastplay_ g).
Proof.
  unfold play_picked_move.
  destruct (PickMove _ _) as [c rnd]. simpl.
  destruct (negb (bool_decide (c = kResign)) && negb (fastplay_ g)) eqn:Emark;
    (destruct (at_move_limit _); [| destruct (is_game_over _)]);
    simpl; rewrite ?rev_app_distr; simpl; rewrite ?rev_involutive;
    eexists; (split; [reflexivity |]); simpl; split_and!; reflexivity.
Qed.

(** X6. A call of [MaybePlayMove] that meets its read target and does not
    resign appends exactly one move to the record and leaves the earlier
    moves as they are.  The move is the one [PickMove] chose, for the side
    to move, with the root's position and Q, and it is marked trainable
    exactly when it is not a fast play and not a resignation: no move of a
    fast play enters the training data. *)
Theorem played_move_trainable_iff_slow (now : Z) (g : SelfplayGame.t) :
  target_readouts_ g <= root_N g ->
  ShouldResign g = false ->
  let g' := snd (fst (MaybePlayMove now g)) in
  let picked := fst (PickMove (rnd_ g) (tree_ g)) in
  exists m,
    Game.moves (game_ g') = Game.moves (game_ g) ++ [m]
    /\ Game.c m = picked
    /\ Game.color m = to_play (tree_ g)
    /\ Game.position m = node_position (tree_ g) (root (tree_ g))
    /\ Game.Q_ m = node_Q (tree_ g) (root (tree_ g))
    /\ (Game.trainable m = true <-> fastplay_ g = false /\ picked <> kResign).
Proof.
  intros Hmet Hres g' picked. subst g'. unfold MaybePlayMove.
  apply Z.ltb_ge in Hmet. rewrite Hmet, Hres.
  destruct (play_picked_move_moves g) as (m & Hm & Hc & Hcol & Hpos & HQ & _ & Ht).
  fold picked in Hc, Ht.
  destruct (play_picked_move g) as [g1 calls1]. simpl in Hm.
  assert (Hg : Game.moves
                 (game_ (fst (if negb (Game.game_over (game_ g1))
                              then prepare_next_move g1
                              else (set_duration_ (now - start_time_ g1) g1,
                                    []))))
               = Game.moves (game_ g1)).
  { destruct (negb (Game.game_over (game_ g1))); [| reflexivity].
    destruct (prepare_next_move_spec g1) as (_ & _ & _ & G & _).
    rewrite G. reflexivity. }
  destruct (if negb (Game.game_over (game_ g1)) then _ else _) as [g2 calls2].
  simpl in *. exists m. rewrite Hg.
  split_and!; auto.
  rewrite Ht, andb_true_iff, !negb_true_iff, bool_decide_eq_false. tauto.
Qed.

Lemma MaybePlayMove_moves now g :
  let r := MaybePlayMove now g in
  exists added,
    Game.moves (game_ (snd (fst r))) = Game.moves (game_ g) ++ added
    /\ (length added <= if fst (fst r) then 1 else 0)%nat
    /\ (fst (fst r) = false -> snd (fst r) = g).
Proof.
  unfold MaybePlayMove.
  destruct (root_N g <? target_readouts_ g); simpl.
  { exists []. rewrite app_nil_r. auto. }
  assert (E : exists added,
             Game.moves (game_ (fst (if ShouldResign g then resign g
                                     else play_picked_move g)))
             = Game.moves (game_ g) ++ added
             /\ (length added <= 1)%nat).
  { destruct (ShouldResign g).
    - exists []. simpl. rewrite app_nil_r. auto.
    - destruct (play_picked_move_moves g) as (m & Hm & _).
      exists [m]. auto. }
  destruct E as (added & Hm & Hlen).
  destruct (if ShouldResign g then _ else _) as [g1 calls1]. simpl in Hm.
  exists added.
  destruct (negb (Game.game_over (game_ g1))).
  - destruct (prepare_next_move_spec g1) as (_ & _ & _ & G & _).
    destruct (prepare_next_move g1) as [g2 calls2]. simpl in *.
    rewrite G. split_and!; [exact Hm | exact Hlen | discriminate].
  - simpl. split_and!; [exact Hm | exact Hlen | discriminate].
Qed.

(** X7. Over any sequence of calls of a game's methods the record of
    moves only grows at its end, by at most one move for each call of
    [MaybePlayMove] that answered true; selecting leaves and processing
    inferences never touch the [Game], so while no call of
    [MaybePlayMove] has answered true it is exactly what it was. *)
Theorem run_moves_only_grow (ops : list Op) (g : SelfplayGame.t) :
  (exists added,
      Game.moves (game_ (run ops g)) = Game.moves (game_ g) ++ added
      /\ (length added <= moves_played ops g)%nat)
  /\ (moves_played ops g = 0%nat -> game_ (run ops g) = game_ g).
Proof.
  revert g. induction ops as [|op ops IH]; intros g; simpl.
  { split; [| reflexivity]. exists []. rewrite app_nil_r. auto. }
  destruct (IH (st_game (step op g))) as ((added' & Hm' & Hlen') & Hsame').
  assert (Hstep : exists added,
             Game.moves (game_ (st_game (step op g)))
             = Game.moves (game_ g) ++ added
             /\ (length added <= if st_played (step op g) then 1 else 0)%nat
             /\ (st_played (step op g) = false ->
                 game_ (st_game (step op g)) = game_ g)).
  { destruct op as [fuel cache inferences | model_name inferences | now].
    - destruct (step_SelectLeaves fuel cache inferences g)
        as (_ & -> & _ & _ & -> & _).
      exists []. rewrite app_nil_r. auto.
    - destruct (step_ProcessInferences model_name inferences g)
        as (_ & -> & _ & _ & -> & _).
      exists []. rewrite app_nil_r. auto.
    - destruct (step_MaybePlayMove now g) as (-> & _ & -> & _).
      destruct (MaybePlayMove_moves now g) as (added & Hm & Hlen & Hsame).
      exists added. split_and!; [exact Hm | exact Hlen |].
      intros E. rewrite (Hsame E). reflexivity. }
  destruct Hstep as (added & Hm & Hlen & Hsame).
  split.
  - exists (added ++ added'). rewrite Hm', Hm, app_assoc, length_app.
    split; [reflexivity | lia].
  - intros Hzero.
    destruct (st_played (step op g)); [discriminate |].
    rewrite Hsame', Hsame by (auto; lia). reflexivity.
Qed.

(** An inference as [MaybeQueueInference] fills it in. *)
Definition well_formed (x : Inference) : Prop :=
  0 <= sym (input x) < kNumSymmetries
  /\ (length (position_history (input x)) <= position_history_capacity)%nat
  /\ ((0 < position_history_capacity)%nat ->
      hd_error (position_history (input x))
      = Some (key_position (cache_key x)))
  /\ output x = default_output.

Lemma GetInferenceSymmetry_range g node :
  0 <= GetInferenceSymmetry g node < kNumSymmetries.
Proof. unfold GetInferenceSymmetry. apply Z.mod_pos_bound. reflexivity. Qed.

Lemma fill_position_history_length cap tree node :
  (length (fill_position_history cap tree node) <= cap)%nat.
Proof.
  revert node. induction cap as [|cap IH]; intros node; simpl; [lia |].
  destruct (node_parent tree node) as [parent|]; simpl.
  - specialize (IH parent). lia.
  - lia.
Qed.

(** The inferences a stretch of the selection loop appends are well
    formed. *)
Definition queues_well_formed (s s' : LeafSearch) : Prop :=
  exists queued,
    ls_inferences s' = ls_inferences s ++ queued /\ Forall well_formed queued.

Lemma queues_well_formed_same s s' :
  ls_inferences s' = ls_inferences s -> queues_well_formed s s'.
Proof.
  intros E. exists []. rewrite app_nil_r. split; [exact E | constructor].
Qed.

Lemma queues_well_formed_trans s1 s2 s3 :
  queues_well_formed s1 s2 -> queues_well_formed s2 s3 ->
  queues_well_formed s1 s3.
Proof.
  intros (q1 & E1 & W1) (q2 & E2 & W2). exists (q1 ++ q2).
  rewrite E2, E1, app_assoc. split; [reflexivity |].
  apply Forall_app. auto.
Qed.

Lemma MaybeQueueInference_well_formed node s :
  queues_well_formed s (snd (MaybeQueueInference node s)).
Proof.
  unfold MaybeQueueInference.
  destruct (TryGet _ _ _ _) as [[cached|] cache']; simpl.
  - apply queues_well_formed_same; reflexivity.
  - eexists [_]. split; [reflexivity |].
    constructor; [| constructor]. unfold well_formed. simpl.
    split_and!.
    + apply GetInferenceSymmetry_range.
    + apply GetInferenceSymmetry_range.
    + apply fill_position_history_length.
    + destruct position_history_capacity; [lia | reflexivity].
    + reflexivity.
Qed.

Lemma SelectLeaves_body_well_formed s :
  queues_well_formed s (snd (SelectLeaves_body s)).
Proof.
  unfold SelectLeaves_body.
  destruct (SelectLeaf _ _) as [[node|] tree1]; simpl;
    [| apply queues_well_formed_same; reflexivity].
  destruct (node_game_over tree1 node || node_at_move_limit tree1 node);
    simpl; [apply queues_well_formed_same; reflexivity |].
  match goal with
  | |- context [MaybeQueueInference node ?s1] =>
      pose proof (MaybeQueueInference_well_formed node s1) as W;
      destruct (MaybeQueueInference node s1) as [queued s2]
  end.
  simpl in *.
  destruct (decide _); [destruct (fastplay_ _) |]; simpl; exact W.
Qed.

Lemma SelectLeaves_loop_well_formed fuel s :
  queues_well_formed s (snd (SelectLeaves_loop fuel s)).
Proof.
  revert s. induction fuel as [|fuel IH]; intros s; simpl.
  - apply queues_well_formed_same; reflexivity.
  - pose proof (SelectLeaves_body_well_formed s) as W.
    destruct (SelectLeaves_body s) as [[|] s']; simpl in *; [exact W |].
    destruct (SelectLeaves_test s'); [| exact W].
    eapply queues_well_formed_trans; [exact W | apply IH].
Qed.

(** X8. Every inference [SelectLeaves] appends is ready for the model:
    its symmetry is one of the [kNumSymmetries] symmetries, its position
    history holds at most as many positions as the buffer has room for
    and, when the buffer has room at all, starts with the position of the
    leaf, which is the position in its cache key, and its output is still
    empty.  The inferences already in the vector are left as they are. *)
Theorem queued_inferences_well_formed (fuel : nat) (cache : InferenceCache)
    (inferences : list Inference) (g : SelfplayGame.t) :
  exists queued,
    ls_inferences (snd (SelectLeaves fuel cache inferences g))
    = inferences ++ queued
    /\ Forall well_formed queued.
Proof.
  unfold SelectLeaves.
  destruct (SelectLeaves_loop_well_formed fuel
              (SelectLeaves_enter cache inferences g)) as (queued & E & W).
  exists queued. split; [| exact W].
  rewrite E. f_equal.
  apply SelectLeaves_enter_spec.
Qed.

End GameProperties.

(** ** A thread: searching, running inferences and processing them *)

Section SearchProperties.
Context `{CacheOps}.

Import SelfplayThread.

(** The spans lie one after the other from position [p] to position [n],
    and none is empty. *)
Fixpoint spans_tile (p : nat) (spans : list TreeSearcher.InferenceSpan)
    (n : nat) : Prop :=
  match spans with
  | [] => p = n
  | span :: rest =>
      TreeSearcher.pos span = p
      /\ (0 < TreeSearcher.len span)%nat
      /\ spans_tile (p + TreeSearcher.len span) rest n
  end.

Lemma spans_tile_snoc p spans n span :
  spans_tile p spans n ->
  TreeSearcher.pos span = n ->
  (0 < TreeSearcher.len span)%nat ->
  spans_tile p (spans ++ [span]) (n + TreeSearcher.len span).
Proof.
  revert p. induction spans as [|first rest IH]; intros p; simpl.
  - intros -> Hpos Hlen. auto.
  - intros (Hp & Hl & Hrest) Hpos Hlen. auto.
Qed.

(** The slots the spans point at are increasing, from [lo] on and below
    [hi]: no game has two spans. *)
Fixpoint slots_increase (lo : nat) (spans : list TreeSearcher.InferenceSpan)
    (hi : nat) : Prop :=
  match spans with
  | [] => True
  | span :: rest =>
      (lo <= TreeSearcher.selfplay_game span < hi)%nat
      /\ slots_increase (S (TreeSearcher.selfplay_game span)) rest hi
  end.

Lemma slots_increase_snoc lo spans mid hi span :
  slots_increase lo spans mid ->
  (lo <= mid)%nat ->
  (mid <= TreeSearcher.selfplay_game span < hi)%nat ->
  slots_increase lo (spans ++ [span]) hi.
Proof.
  revert lo. induction spans as [|first rest IH]; intros lo; simpl.
  - intros _ Hlo Hspan. split; [lia | exact I].
  - intros (Hfirst & Hrest) Hlo Hspan. split; [lia |].
    apply IH; [exact Hrest | lia | exact Hspan].
Qed.

Lemma slots_increase_mono lo spans mid hi :
  slots_increase lo spans mid -> (mid <= hi)%nat ->
  slots_increase lo spans hi.
Proof.
  revert lo. induction spans as [|first rest IH]; intros lo; simpl; [auto |].
  intros (Hfirst & Hrest) Hle. split; [lia | auto].
Qed.

(** What a call of [SelectLeaves] appends to the vector it is given, and
    the number it returns. *)
Lemma SelectLeaves_appends fuel cache inferences g :
  let s := snd (SelfplayGame.SelectLeaves fuel cache inferences g) in
  exists queued,
    SelfplayGame.ls_inferences s = inferences ++ queued
    /\ SelfplayGame.ls_num_queued s = Z.of_nat (length queued).
Proof.
  simpl.
  destruct (SelectLeaves_progress fuel cache inferences g)
    as (queued & calls & I & _ & N & _).
  destruct (SelectLeaves_enter_spec cache inferences g) as (I0 & N0 & _).
  exists queued. rewrite I, N, I0, N0. split; [reflexivity | lia].
Qed.

Lemma Search_games_spans fuel games : forall first cache ts lo,
  Forall is_Some games ->
  spans_tile 0 (TreeSearcher.inference_spans_ ts)
             (length (TreeSearcher.inferences_ ts)) ->
  slots_increase lo (TreeSearcher.inference_spans_ ts) first ->
  (lo <= first)%nat ->
  exists r,
    TreeSearcher.Search_games fuel first games cache ts = Some r
    /\ spans_tile 0 (TreeSearcher.inference_spans_ (TreeSearcher.sr_searcher r))
         (length (TreeSearcher.inferences_ (TreeSearcher.sr_searcher r)))
    /\ slots_increase lo
         (TreeSearcher.inference_spans_ (TreeSearcher.sr_searcher r))
         (first + length games)
    /\ length (TreeSearcher.sr_games r) = length games.
Proof.
  induction games as [|slot rest IH]; intros first cache ts lo Hall Htile Hinc Hlo;
    simpl.
  - eexists. split; [reflexivity |]. simpl.
    rewrite Nat.add_0_r. auto.
  - apply Forall_cons in Hall. destruct Hall as [[g ->] Hrest]. simpl.
    destruct (SelectLeaves_appends fuel cache (TreeSearcher.inferences_ ts) g)
      as (queued & I & N).
    destruct (SelfplayGame.SelectLeaves fuel cache
                (TreeSearcher.inferences_ ts) g) as [ret s].
    simpl in I, N. rewrite N, Nat2Z.id, I.
    match goal with
    | |- context [TreeSearcher.Search_games fuel (S first) rest ?c ?t] =>
        destruct (IH (S first) c t lo Hrest) as (r & E & Ht & Hi & Hl)
    end.
    + simpl. rewrite length_app.
      destruct (0 <? length queued)%nat eqn:Epos.
      * apply Nat.ltb_lt in Epos.
        apply (spans_tile_snoc 0 _ _
                 {| TreeSearcher.selfplay_game := first;
                    TreeSearcher.pos := length (TreeSearcher.inferences_ ts);
                    TreeSearcher.len := length queued |});
          [exact Htile | reflexivity | exact Epos].
      * apply Nat.ltb_ge in Epos.
        replace (length queued) with 0%nat by lia.
        rewrite Nat.add_0_r. exact Htile.
    + simpl. destruct (0 <? length queued)%nat.
      * eapply slots_increase_snoc; [exact Hinc | exact Hlo | simpl; lia].
      * eapply slots_increase_mono; [exact Hinc | lia].
    + lia.
    + rewrite E. simpl. eexists. split; [reflexivity |]. simpl.
      split_and!; [exact Ht | | rewrite Hl; reflexivity].
      replace (first + S (length rest))%nat with (S first + length rest)%nat
        by lia.
      exact Hi.
Qed.

(** X9. A search over slots that all hold a game leaves spans that cut
    the vector of inferences into consecutive pieces: the first span
    starts at position 0, each next one where the one before ends, the
    last one ends at the end of the vector, and none is empty.  The spans
    point at slots of the range searched, in increasing order, so no game
    has two spans and every inference belongs to exactly one game. *)
Theorem Search_spans_tile_inferences (fuel first : nat)
    (games : list (option SelfplayGame.t)) (cache : InferenceCache) :
  Forall is_Some games ->
  exists r,
    TreeSearcher.Search fuel first games cache = Some r
    /\ spans_tile 0 (TreeSearcher.inference_spans_ (TreeSearcher.sr_searcher r))
         (length (TreeSearcher.inferences_ (TreeSearcher.sr_searcher r)))
    /\ slots_increase first
         (TreeSearcher.inference_spans_ (TreeSearcher.sr_searcher r))
         (first + length games)
    /\ length (TreeSearcher.sr_games r) = length games.
Proof.
  intros Hall. unfold TreeSearcher.Search.
  apply Search_games_spans; [exact Hall | reflexivity | exact I | lia].
Qed.

(** [fill_outputs] writes the outputs it is given in order and touches
    nothing else of an inference. *)
Lemma fill_outputs_spec inferences : forall outputs,
  let r := fill_outputs inferences outputs in
  map cache_key (fst r) = map cache_key inferences
  /\ map leaf (fst r) = map leaf inferences
  /\ map input (fst r) = map input inferences
  /\ ((length inferences <= length outputs)%nat ->
      map output (fst r) = take (length inferences) outputs
      /\ snd r = drop (length inferences) outputs).
Proof.
  induction inferences as [|x rest IH]; intros [|o outputs]; simpl;
    try (split_and!; [reflexivity .. |]; intros Hlen; simpl in Hlen;
         first [lia | split; reflexivity]).
  specialize (IH outputs).
  destruct (fill_outputs rest outputs) as [filled remaining]. simpl in *.
  destruct IH as (K & L & In & O).
  split_and!; [f_equal; assumption .. |].
  intros Hlen. destruct O as [O R]; [lia |].
  split; [f_equal; exact O | exact R].
Qed.

Lemma fill_searchers_spec searchers : forall outputs,
  let inferences_of := fun l => concat (map TreeSearcher.inferences_ l) in
  let filled := fill_searchers searchers outputs in
  map cache_key (inferences_of filled) = map cache_key (inferences_of searchers)
  /\ map leaf (inferences_of filled) = map leaf (inferences_of searchers)
  /\ map input (inferences_of filled) = map input (inferences_of searchers)
  /\ ((length (inferences_of searchers) <= length outputs)%nat ->
      map output (inferences_of filled)
      = take (length (inferences_of searchers)) outputs).
Proof.
  induction searchers as [|ts rest IH]; intros outputs; simpl.
  - split_and!; auto.
  - pose proof (fill_outputs_spec (TreeSearcher.inferences_ ts) outputs) as F.
    destruct (fill_outputs (TreeSearcher.inferences_ ts) outputs)
      as [filled remaining]. simpl in *.
    destruct F as (K & L & In & O).
    destruct (IH remaining) as (K' & L' & In' & O').
    rewrite !map_app, K, L, In, K', L', In'.
    split_and!; [reflexivity .. |].
    rewrite length_app. intros Hlen.
    destruct O as [O R]; [lia |].
    rewrite O, O' by (rewrite R, length_drop; lia).
    rewrite R, take_take_drop. reflexivity.
Qed.

Lemma concat_map_map {A B C} (f : B -> C) (g : A -> list B) (l : list A) :
  concat (map (fun a => map f (g a)) l) = map f (concat (map g l)).
Proof.
  induction l as [|a l IH]; simpl; [reflexivity |].
  rewrite map_app, IH. reflexivity.
Qed.

(** X10. [RunInferences] hands the model the inputs of all inferences of
    all searchers, in order.  With no inference it returns an empty model
    name and calls no model.  Otherwise, when the model answers every
    input, each inference receives the output of its own input, the model
    name is passed on, and nothing else changes: the keys, leaves and
    inputs of the inferences, the spans, and the games. *)
Theorem RunInferences_fills_outputs
    (RunMany : list ModelInput -> list ModelOutput * string)
    (th : SelfplayThread.t) :
  let inferences_of := fun l => concat (map TreeSearcher.inferences_ l) in
  let inputs := map input (inferences_of (searchers_ th)) in
  length (fst (RunMany inputs)) = length inputs ->
  let r := RunInferences RunMany th in
  (inputs = [] -> r = (""%string, th))
  /\ (inputs <> [] ->
      fst r = snd (RunMany inputs)
      /\ map output (inferences_of (searchers_ (snd r))) = fst (RunMany inputs))
  /\ map cache_key (inferences_of (searchers_ (snd r)))
     = map cache_key (inferences_of (searchers_ th))
  /\ map leaf (inferences_of (searchers_ (snd r)))
     = map leaf (inferences_of (searchers_ th))
  /\ map input (inferences_of (searchers_ (snd r))) = inputs
  /\ map TreeSearcher.inference_spans_ (searchers_ (snd r))
     = map TreeSearcher.inference_spans_ (searchers_ th)
  /\ selfplay_games_ (snd r) = selfplay_games_ th.
Proof.
  intros inferences_of inputs Hlen r. subst r. unfold RunInferences.
  rewrite concat_map_map. fold (inferences_of (searchers_ th)). fold inputs.
  destruct inputs as [|x inputs'] eqn:Einputs.
  - simpl. split_and!; auto. intros Hne. contradiction.
  - rewrite <- Einputs in *.
    destruct (RunMany inputs) as [outputs model_name] eqn:Erun. simpl in *.
    destruct (fill_searchers_spec (searchers_ th) outputs) as (K & L & In & O).
    fold inferences_of in K, L, In, O.
    split_and!; [rewrite Einputs; discriminate | | exact K | exact L | exact In
                | apply fill_searchers_spans | reflexivity].
    intros _. split; [reflexivity |].
    unfold inputs in Hlen. rewrite length_map in Hlen.
    unfold inferences_of in *. rewrite (O ltac:(lia)), <- Hlen.
    apply take_ge. lia.
Qed.

Lemma merge_inferences_app a b cache :
  merge_inferences (a ++ b) cache = merge_inferences b (merge_inferences a cache).
Proof. unfold merge_inferences. apply fold_left_app. Qed.

Lemma process_spans_untouched model_name inferences spans : forall games games',
  process_spans model_name inferences spans games = Some games' ->
  length games' = length games
  /\ forall j,
       Forall (fun span => TreeSearcher.selfplay_game span <> j) spans ->
       games' !! j = games !! j.
Proof.
  induction spans as [|span rest IH]; intros games games'; simpl.
  - intros E. injection E as <-. auto.
  - destruct (games !! TreeSearcher.selfplay_game span) as [[g|]|];
      simpl; try discriminate.
    destruct (SelfplayGame.ProcessInferences _ _ g) as [g' calls].
    intros E. destruct (IH _ _ E) as [Hl Hj].
    rewrite length_insert in Hl. split; [exact Hl |].
    intros j Hne. apply Forall_cons in Hne. destruct Hne as [Hne Hrest].
    rewrite (Hj j Hrest). apply list_lookup_insert_ne. exact Hne.
Qed.

(** X11. When a thread processes the inferences of its searchers, the
    cache receives every inference of every searcher exactly once, in
    order, whether or not a span covers it; the array of games keeps its
    length, and a game that no span points at is left as it is. *)
Theorem ProcessInferences_merges_all (model_name : string)
    (searchers : list TreeSearcher.t)
    (games : list (option SelfplayGame.t)) (cache : InferenceCache) :
  Forall is_Some games ->
  Forall (spans_in_range (length games)) searchers ->
  exists games' cache',
    ProcessInferences_searchers model_name searchers games cache
    = Some (games', cache')
    /\ cache' = merge_inferences
                  (concat (map TreeSearcher.inferences_ searchers)) cache
    /\ length games' = length games
    /\ forall j,
         Forall (fun ts =>
                   Forall (fun span => TreeSearcher.selfplay_game span <> j)
                          (TreeSearcher.inference_spans_ ts)) searchers ->
         games' !! j = games !! j.
Proof.
  intros Hall Hspans.
  destruct (ProcessInferences_searchers_no_null model_name searchers games
              cache Hall Hspans) as ([games' cache'] & E & _).
  exists games', cache'. split; [exact E |].
  clear Hall Hspans. revert games cache E.
  induction searchers as [|ts rest IH]; intros games cache; simpl.
  - intros E. injection E as <- <-. auto.
  - destruct (process_spans model_name (TreeSearcher.inferences_ ts)
                (TreeSearcher.inference_spans_ ts) games) as [games1|] eqn:E1;
      simpl; [| discriminate].
    intros E. destruct (IH _ _ E) as (C & Hl & Hj).
    destruct (process_spans_untouched _ _ _ _ _ E1) as [Hl1 Hj1].
    rewrite merge_inferences_app.
    split_and!; [exact C | congruence |].
    intros j Hne. apply Forall_cons in Hne. destruct Hne as [Hne Hrest].
    rewrite (Hj j Hrest). apply Hj1. exact Hne.
Qed.

End SearchProperties.

(** ** A thread: starting games and playing moves *)

Section ThreadLifeProperties.
Context `{CacheOps}.

Import SelfplayThread.

(** The games playing in an array of slots. *)
Definition playing (games : list (option SelfplayGame.t))
    : list SelfplayGame.t :=
  omap id games.

Lemma playing_app a b : playing (a ++ b) = playing a ++ playing b.
Proof. apply omap_app. Qed.

Lemma playing_cons_Some g l : playing (Some g :: l) = g :: playing l.
Proof. reflexivity. Qed.

Lemma playing_cons_None l : playing (None :: l) = playing l.
Proof. reflexivity. Qed.

Lemma playing_all_Some games :
  Forall is_Some games -> games = map Some (playing games).
Proof.
  induction 1 as [|slot rest [g ->] _ IH]; simpl; [reflexivity |].
  unfold playing in *. simpl. f_equal. exact IH.
Qed.

Lemma playing_length_all_Some games :
  Forall is_Some games -> length (playing games) = length games.
Proof.
  induction 1 as [|slot rest [g ->] _ IH]; [reflexivity |].
  rewrite playing_cons_Some. simpl. f_equal. exact IH.
Qed.

(** Removing a null slot keeps the games that are playing. *)
Lemma remove_slot_playing i games :
  games !! i = Some None ->
  playing (remove_slot i games) ≡ₚ playing games.
Proof.
  intros Hi.
  pose proof (take_drop_middle games i None Hi) as E.
  assert (Hlen : length (take i games) = i).
  { apply lookup_lt_Some in Hi. rewrite length_take. lia. }
  revert E Hlen. generalize (take i games) (drop (S i) games).
  intros l1 l2 <- <-. clear Hi. unfold remove_slot.
  destruct l2 as [|y l2' _] using rev_ind.
  - rewrite last_snoc. simpl.
    rewrite insert_app_r_alt, Nat.sub_diag by lia. simpl.
    rewrite length_app. simpl. rewrite Nat.add_sub, take_app_length.
    rewrite playing_app. simpl. rewrite app_nil_r. reflexivity.
  - replace (l1 ++ None :: l2' ++ [y]) with ((l1 ++ None :: l2') ++ [y])
      by (rewrite <- app_assoc; reflexivity).
    rewrite last_snoc. simpl.
    rewrite length_app. simpl. rewrite Nat.add_sub.
    rewrite <- app_assoc. simpl.
    rewrite insert_app_r_alt, Nat.sub_diag by lia. simpl.
    replace (l1 ++ y :: l2' ++ [y]) with ((l1 ++ y :: l2') ++ [y])
      by (rewrite <- app_assoc; reflexivity).
    replace (length (l1 ++ None :: l2')) with (length (l1 ++ y :: l2'))
      by (rewrite !length_app; reflexivity).
    rewrite take_app_length.
    rewrite !playing_app. apply Permutation_app_head.
    unfold playing. simpl. rewrite omap_app. simpl.
    destruct y as [g|]; simpl.
    + apply Permutation_cons_append.
    + rewrite app_nil_r. reflexivity.
Qed.

(** Filling a null slot adds a game to those playing. *)
Lemma insert_playing i g games :
  games !! i = Some None ->
  playing games ⊆+ playing (<[i := Some g]> games).
Proof.
  intros Hi.
  pose proof (take_drop_middle games i None Hi) as E.
  assert (Hlen : length (take i games) = i).
  { apply lookup_lt_Some in Hi. rewrite length_take. lia. }
  revert E Hlen. generalize (take i games) (drop (S i) games).
  intros l1 l2 <- <-. clear Hi.
  rewrite insert_app_r_alt, Nat.sub_diag by lia. simpl.
  rewrite !playing_app. apply submseteq_app; [reflexivity |].
  unfold playing. simpl. apply submseteq_cons. reflexivity.
Qed.

(** A call of [StartNewGame] that starts no game changes nothing, and is
    made only when no game is left in a bounded run. *)
Lemma StartNewGame_refuses v now ansi sp sp' :
  Selfplayer.StartNewGame v now ansi sp = (None, sp') ->
  sp' = sp
  /\ FLAGS_run_forever (Selfplayer.flags sp) = false
  /\ Selfplayer.num_games_remaining_ sp = 0.
Proof.
  unfold Selfplayer.StartNewGame.
  destruct (FLAGS_run_forever (Selfplayer.flags sp)); simpl.
  - destruct (rnd_uniform (Selfplayer.rnd_ sp)) as [r1 rnd1].
    destruct (rnd_uniform rnd1) as [r2 rnd2]. discriminate.
  - destruct (Selfplayer.num_games_remaining_ sp =? 0) eqn:Ez.
    + intros E. injection E as <-. apply Z.eqb_eq in Ez. auto.
    + destruct (rnd_uniform (Selfplayer.rnd_ sp)) as [r1 rnd1].
      destruct (rnd_uniform rnd1) as [r2 rnd2]. discriminate.
Qed.

Lemma StartNewGames_from_playing thread_id now ansi i games sp :
  playing games
    ⊆+ playing (fst (StartNewGames_from thread_id now ansi i games sp))
  /\ (length (fst (StartNewGames_from thread_id now ansi i games sp))
      <= length games)%nat
  /\ Selfplayer.flags
       (snd (StartNewGames_from thread_id now ansi i games sp))
     = Selfplayer.flags sp
  /\ Selfplayer.output_queue_
       (snd (StartNewGames_from thread_id now ansi i games sp))
     = Selfplayer.output_queue_ sp
  /\ Selfplayer.win_stats_
       (snd (StartNewGames_from thread_id now ansi i games sp))
     = Selfplayer.win_stats_ sp.
Proof.
  funelim (StartNewGames_from thread_id now ansi i games sp); simpl;
    try (split_and!; reflexivity).
  - (* a game is playing in slot i *)
    assumption.
  - (* slot i is refilled *)
    match goal with
    | E : Selfplayer.StartNewGame _ _ _ _ = (Some _, _) |- _ =>
        destruct (StartNewGame_game _ _ _ _ _ _ E)
          as (_ & _ & _ & _ & _ & _ & Hf & Hq & Hw)
    end.
    match goal with
    | IH : _ /\ _ |- _ => destruct IH as (Hp & Hl & Hf' & Hq' & Hw')
    end.
    rewrite length_insert in Hl.
    split_and!; [| exact Hl | congruence | congruence | congruence].
    etrans; [| exact Hp]. apply insert_playing. assumption.
  - (* slot i is removed *)
    match goal with
    | E : Selfplayer.StartNewGame _ _ _ _ = (None, _) |- _ =>
        destruct (StartNewGame_refuses _ _ _ _ _ E) as (-> & _)
    end.
    match goal with
    | IH : _ /\ _ |- _ => destruct IH as (Hp & Hl & Hf' & Hq' & Hw')
    end.
    assert (Hr : (length (remove_slot i games) <= length games)%nat).
    { unfold remove_slot. rewrite length_take, length_insert. lia. }
    split_and!; [| lia | assumption ..].
    etrans; [| exact Hp].
    rewrite remove_slot_playing by assumption. reflexivity.
Qed.

Lemma StartNewGames_from_exhausted thread_id now ansi i games sp :
  FLAGS_run_forever (Selfplayer.flags sp) = false ->
  Selfplayer.num_games_remaining_ sp = 0 ->
  snd (StartNewGames_from thread_id now ansi i games sp) = sp
  /\ playing (fst (StartNewGames_from thread_id now ansi i games sp))
     ≡ₚ playing games.
Proof.
  funelim (StartNewGames_from thread_id now ansi i games sp); simpl;
    intros Hbounded Hleft; try (split; reflexivity).
  - (* a game is playing in slot i *)
    auto.
  - (* slot i is refilled: no game is left to start *)
    match goal with
    | E : Selfplayer.StartNewGame _ _ _ _ = (Some _, _) |- _ =>
        unfold Selfplayer.StartNewGame in E;
        rewrite Hbounded, Hleft in E; discriminate E
    end.
  - (* slot i is removed *)
    match goal with
    | E : Selfplayer.StartNewGame _ _ _ _ = (None, _) |- _ =>
        destruct (StartNewGame_refuses _ _ _ _ _ E) as (-> & _)
    end.
    match goal with
    | IH : _ -> _ -> _ /\ _ |- _ => destruct (IH Hbounded Hleft) as (Hs & Hp)
    end.
    split; [exact Hs |].
    rewrite Hp. apply remove_slot_playing. assumption.
Qed.

(** X13. [StartNewGames] never loses a game that is playing and never
    makes the array longer: the games in the array before the call are
    all in it afterwards (as a multiset: the call may move a game to
    another slot), and the number of slots does not grow.  It touches
    neither the searchers nor the queue of finished games. *)
Theorem StartNewGames_keeps_playing_games (now : Z) (ansi : bool)
    (th : SelfplayThread.t) (sp : Selfplayer.t) :
  let r := StartNewGames now ansi th sp in
  playing (selfplay_games_ th) ⊆+ playing (selfplay_games_ (fst r))
  /\ (length (selfplay_games_ (fst r)) <= length (selfplay_games_ th))%nat
  /\ searchers_ (fst r) = searchers_ th
  /\ thread_id_ (fst r) = thread_id_ th
  /\ Selfplayer.output_queue_ (snd r) = Selfplayer.output_queue_ sp.
Proof.
  unfold StartNewGames.
  destruct (StartNewGames_from_playing (thread_id_ th) now ansi 0
              (selfplay_games_ th) sp) as (Hp & Hl & _ & Hq & _).
  destruct (StartNewGames_from _ _ _ _ _ _) as [games sp']. simpl in *.
  auto.
Qed.

(** X14. Once the orchestrator has no game left to start in a bounded
    run, [StartNewGames] starts none: it leaves the orchestrator as it is
    and shrinks the array to the games that are playing, each in a slot of
    its own.  When none is playing the array becomes empty, and the loop
    of [Run] ends there. *)
Theorem StartNewGames_when_no_game_left (now : Z) (ansi : bool)
    (th : SelfplayThread.t) (sp : Selfplayer.t) :
  FLAGS_run_forever (Selfplayer.flags sp) = false ->
  Selfplayer.num_games_remaining_ sp = 0 ->
  let r := StartNewGames now ansi th sp in
  snd r = sp
  /\ selfplay_games_ (fst r) ≡ₚ map Some (playing (selfplay_games_ th))
  /\ (playing (selfplay_games_ th) = [] ->
      selfplay_games_ (fst r) = []
      /\ forall envs cache,
           Run envs cache (fst r) (snd r) = Some (fst r, snd r, cache)).
Proof.
  intros Hbounded Hleft. unfold StartNewGames.
  destruct (StartNewGames_from_exhausted (thread_id_ th) now ansi 0
              (selfplay_games_ th) sp Hbounded Hleft) as (Hs & Hp).
  pose proof (StartNewGames_from_no_null (thread_id_ th) now ansi 0
                (selfplay_games_ th) sp) as Hall.
  destruct (StartNewGames_from _ _ _ _ _ _) as [games sp']. simpl in *.
  specialize (Hall ltac:(constructor)).
  assert (Hperm : games ≡ₚ map Some (playing (selfplay_games_ th))).
  { rewrite (playing_all_Some games Hall). rewrite Hp. reflexivity. }
  split_and!; [exact Hs | exact Hperm |].
  intros Hnone. rewrite Hnone in Hperm. simpl in Hperm.
  apply Permutation_nil_r in Hperm. subst games.
  split; [reflexivity |].
  intros [|env envs] cache; reflexivity.
Qed.

(** Where a verbose game may sit. *)
Lemma StartNewGames_from_verbose (orig : SelfplayGame.t -> Prop)
    thread_id now ansi i games sp :
  (forall j g,
      games !! j = Some (Some g) ->
      orig g
      \/ ((j < i)%nat
          /\ SelfplayGame.verbose (SelfplayGame.options_ g)
             = FLAGS_verbose (Selfplayer.flags sp)
               && (thread_id =? 0) && (j =? 0)%nat)) ->
  forall j g,
    fst (StartNewGames_from thread_id now ansi i games sp) !! j
    = Some (Some g) ->
    orig g
    \/ SelfplayGame.verbose (SelfplayGame.options_ g)
       = FLAGS_verbose (Selfplayer.flags sp) && (thread_id =? 0) && (j =? 0)%nat.
Proof.
  funelim (StartNewGames_from thread_id now ansi i games sp); simpl;
    intros Hinv.
  - (* the index is past the end *)
    intros j g Hj. destruct (Hinv j g Hj) as [Ho | [_ Hv]]; auto.
  - (* a game is playing in slot i *)
    match goal with IH : _ -> forall j g, _ |- _ => apply IH end.
    intros j g Hj. destruct (Hinv j g Hj) as [Ho | [Hbelow Hv]]; [auto |].
    right. split; [lia | exact Hv].
  - (* no slot i below the length *)
    intros j g Hj. destruct (Hinv j g Hj) as [Ho | [_ Hv]]; auto.
  - (* slot i is refilled *)
    match goal with
    | E : Selfplayer.StartNewGame _ _ _ _ = (Some _, _) |- _ =>
        destruct (StartNewGame_game _ _ _ _ _ _ E)
          as (_ & _ & _ & _ & Hv & _ & Hf & _)
    end.
    match goal with IH : _ -> forall j g, _ |- _ =>
      rewrite Hf in IH; apply IH end.
    intros j g Hj.
    destruct (decide (j = i)) as [-> | Hne].
    + rewrite list_lookup_insert_eq in Hj by lia.
      injection Hj as <-. right. split; [lia | exact Hv].
    + rewrite list_lookup_insert_ne in Hj by auto.
      destruct (Hinv j g Hj) as [Ho | [Hbelow Hv']]; [auto |].
      right. split; [lia | exact Hv'].
  - (* slot i is removed *)
    match goal with
    | E : Selfplayer.StartNewGame _ _ _ _ = (None, _) |- _ =>
        destruct (StartNewGame_refuses _ _ _ _ _ E) as (-> & _)
    end.
    match goal with IH : _ -> forall j g, _ |- _ => apply IH end.
    intros j g Hj. unfold remove_slot in Hj.
    apply lookup_take_Some in Hj. destruct Hj as [Hj Hshort].
    destruct (decide (j = i)) as [-> | Hne].
    + rewrite list_lookup_insert_eq in Hj by lia.
      injection Hj as Hlast.
      destruct (last games) as [slot|] eqn:El; simpl in Hlast;
        [| discriminate].
      subst slot. rewrite last_lookup in El.
      destruct (Hinv _ g El) as [Ho | [Hbelow _]]; [auto | lia].
    + rewrite list_lookup_insert_ne in Hj by auto.
      exact (Hinv j g Hj).
Qed.

(** X15. Only slot 0 of thread 0 starts a verbose game: after
    [StartNewGames] a game in slot [j] was either in the array before the
    call or was started with [verbose] set to
    [FLAGS_verbose && thread_id_ == 0 && j == 0], so every game the call
    starts in another thread or another slot is silent. *)
Theorem StartNewGames_verbose_only_first_slot (now : Z) (ansi : bool)
    (th : SelfplayThread.t) (sp : Selfplayer.t) (j : nat) :
  match selfplay_games_ (fst (StartNewGames now ansi th sp)) !! j with
  | Some (Some g) =>
      Some g ∈ selfplay_games_ th
      \/ SelfplayGame.verbose (SelfplayGame.options_ g)
         = FLAGS_verbose (Selfplayer.flags sp)
           && (thread_id_ th =? 0) && (j =? 0)%nat
  | _ => True
  end.
Proof.
  unfold StartNewGames.
  pose proof (StartNewGames_from_verbose
                (fun g => Some g ∈ selfplay_games_ th)
                (thread_id_ th) now ansi 0 (selfplay_games_ th) sp) as Hv.
  destruct (StartNewGames_from _ _ _ _ _ _) as [games sp']. simpl in *.
  destruct (games !! j) as [[g|]|] eqn:Ej; [| exact I | exact I].
  apply (Hv ltac:(intros k g' Hk; left; apply list_elem_of_lookup;
                  exists k; exact Hk) j g Ej).
Qed.

End ThreadLifeProperties.

(** ** Virtual losses across a search *)

Section BalanceProperties.
Context `{CacheOps}.

(** The tree is not among the sources.  [pending] reads off a tree the
    leaves that carry a virtual loss, one entry for each loss, in any
    order.  The hypotheses say what the methods of the tree that a search
    calls do to them: [AddVirtualLoss] adds one on its leaf,
    [RevertVirtualLoss] takes one from its leaf, and selecting a leaf,
    incorporating a result and injecting noise leave them alone. *)
Variable pending : MctsTree -> list MctsNode.

Hypothesis pending_AddVirtualLoss : forall leaf tree,
  pending (AddVirtualLoss leaf tree) ≡ₚ leaf :: pending tree.
Hypothesis pending_RevertVirtualLoss : forall leaf tree rest,
  pending tree ≡ₚ leaf :: rest ->
  pending (RevertVirtualLoss leaf tree) ≡ₚ rest.
Hypothesis pending_SelectLeaf : forall allow_pass tree,
  pending (snd (SelectLeaf allow_pass tree)) ≡ₚ pending tree.
Hypothesis pending_IncorporateResults : forall leaf policy value tree,
  pending (IncorporateResults leaf policy value tree) ≡ₚ pending tree.
Hypothesis pending_IncorporateEndGameResult : forall leaf value tree,
  pending (IncorporateEndGameResult leaf value tree) ≡ₚ pending tree.
Hypothesis pending_InjectNoise : forall noise mix tree,
  pending (InjectNoise noise mix tree) ≡ₚ pending tree.

Import SelfplayGame.

(** What a stretch of the selection loop leaves on the tree: a virtual
    loss on the leaf of each inference it has queued, besides those that
    were there. *)
Definition owes (s s' : LeafSearch) : Prop :=
  exists queued,
    ls_inferences s' = ls_inferences s ++ queued
    /\ pending (tree_ (ls_game s'))
       ≡ₚ map leaf queued ++ pending (tree_ (ls_game s)).

Lemma owes_refl s : owes s s.
Proof. exists []. rewrite app_nil_r. split; reflexivity. Qed.

Lemma owes_trans s1 s2 s3 : owes s1 s2 -> owes s2 s3 -> owes s1 s3.
Proof.
  intros (q1 & I1 & P1) (q2 & I2 & P2). exists (q1 ++ q2).
  rewrite I2, I1, app_assoc. split; [reflexivity |].
  rewrite P2, P1, map_app. solve_Permutation.
Qed.

Lemma with_game_owes g calls s :
  pending (tree_ g) ≡ₚ pending (tree_ (ls_game s)) ->
  owes s (with_game g calls s).
Proof. intros P. exists []. simpl. rewrite app_nil_r. auto. Qed.

Lemma MaybeQueueInference_owes node s :
  owes s (add_queued (fst (MaybeQueueInference node s))
                     (snd (MaybeQueueInference node s))).
Proof.
  unfold MaybeQueueInference.
  destruct (TryGet _ _ _ _) as [[cached|] cache']; simpl.
  - exists []. simpl. rewrite app_nil_r. split; [reflexivity |].
    destruct (ls_game s); simpl. apply pending_IncorporateResults.
  - eexists [_]. simpl. split; [reflexivity |].
    destruct (ls_game s); simpl. apply pending_AddVirtualLoss.
Qed.

Lemma SelectLeaves_body_owes s : owes s (snd (SelectLeaves_body s)).
Proof.
  unfold SelectLeaves_body.
  pose proof (pending_SelectLeaf (allow_pass (options_ (ls_game s)))
                (tree_ (ls_game s))) as Psel.
  destruct (SelectLeaf _ _) as [selected tree1]. simpl in Psel.
  set (s1 := with_game _ _ s).
  assert (P1 : owes s s1).
  { apply with_game_owes. destruct (ls_game s); exact Psel. }
  destruct selected as [node|]; [| exact P1].
  destruct (node_game_over tree1 node || node_at_move_limit tree1 node).
  - simpl. eapply owes_trans; [exact P1 |].
    apply with_game_owes. simpl. destruct (ls_game s); simpl.
    apply pending_IncorporateEndGameResult.
  - pose proof (MaybeQueueInference_owes node s1) as P2.
    destruct (MaybeQueueInference node s1) as [queued s2]. simpl in P2.
    set (s3 := add_queued queued s2) in *.
    pose proof (owes_trans _ _ _ P1 P2) as P3.
    destruct (decide _); [| exact P3].
    destruct (fastplay_ (ls_game s3)); [exact P3 |].
    simpl. eapply owes_trans; [exact P3 |].
    apply with_game_owes. reflexivity.
Qed.

Lemma SelectLeaves_loop_owes fuel : forall s,
  owes s (snd (SelectLeaves_loop fuel s)).
Proof.
  induction fuel as [|fuel IH]; intros s; simpl.
  - apply owes_refl.
  - pose proof (SelectLeaves_body_owes s) as P.
    destruct (SelectLeaves_body s) as [[|] s']; simpl in *; [exact P |].
    destruct (SelectLeaves_test s'); [| exact P].
    eapply owes_trans; [exact P | apply IH].
Qed.

(** [SelectLeaves] leaves a virtual loss on the leaf of each inference it
    has appended to the vector, and takes none away. *)
Lemma SelectLeaves_owes fuel cache inferences g :
  let s := snd (SelectLeaves fuel cache inferences g) in
  exists queued,
    ls_inferences s = inferences ++ queued
    /\ ls_num_queued s = Z.of_nat (length queued)
    /\ pending (tree_ (ls_game s)) ≡ₚ map leaf queued ++ pending (tree_ g).
Proof.
  intros s.
  destruct (SelectLeaves_appends fuel cache inferences g) as (queued' & I' & N).
  fold s in I', N.
  destruct (SelectLeaves_loop_owes fuel (SelectLeaves_enter cache inferences g))
    as (queued & I & P).
  fold (SelectLeaves fuel cache inferences g) in I, P. fold s in I, P.
  assert (I0 : ls_inferences (SelectLeaves_enter cache inferences g)
               = inferences).
  { unfold SelectLeaves_enter. destruct (inject_noise_before_next_read_ g);
      [destruct (InjectNoise _) |]; reflexivity. }
  assert (P0 : pending (tree_ (ls_game (SelectLeaves_enter cache inferences g)))
               ≡ₚ pending (tree_ g)).
  { unfold SelectLeaves_enter. destruct (inject_noise_before_next_read_ g);
      [| reflexivity].
    unfold InjectNoise. destruct (Dirichlet _ _) as [noise rnd]. simpl.
    destruct g; simpl. apply pending_InjectNoise. }
  rewrite I0 in I. rewrite P0 in P.
  assert (queued' = queued) as ->.
  { apply (app_inv_head inferences). rewrite <- I', <- I. reflexivity. }
  exists queued. auto.
Qed.

(** [ProcessInferences] takes the virtual loss from the leaf of each
    inference of its span. *)
Lemma incorporate_inferences_settles inferences : forall g rest,
  pending (tree_ g) ≡ₚ map leaf inferences ++ rest ->
  pending (tree_ (fst (incorporate_inferences inferences g))) ≡ₚ rest.
Proof.
  induction inferences as [|x inferences IH]; intros g rest P; simpl.
  - exact P.
  - specialize (IH (set_tree_
        (RevertVirtualLoss (leaf x)
           (IncorporateResults (leaf x) (policy (output x))
              (value (output x)) (tree_ g))) g) rest).
    destruct (incorporate_inferences inferences _) as [g' calls].
    simpl in *. apply IH. destruct g; simpl in *.
    apply pending_RevertVirtualLoss.
    rewrite pending_IncorporateResults. exact P.
Qed.

Lemma ProcessInferences_settles model_name inferences g rest :
  pending (tree_ g) ≡ₚ map leaf inferences ++ rest ->
  pending (tree_ (fst (SelfplayGame.ProcessInferences model_name inferences g)))
  ≡ₚ rest.
Proof.
  intros P. unfold SelfplayGame.ProcessInferences.
  apply incorporate_inferences_settles.
  rewrite (record_model_fields model_name g). destruct g; exact P.
Qed.

(** The game of a slot before a search and after its inferences have been
    processed: the virtual losses on its tree are the same. *)
Definition balanced (slot slot' : option SelfplayGame.t) : Prop :=
  exists g g',
    slot = Some g /\ slot' = Some g'
    /\ pending (tree_ g') ≡ₚ pending (tree_ g).

(** The virtual losses on the trees of the games of an array. *)
Definition outstanding (games : list (option SelfplayGame.t))
    : list MctsNode :=
  concat (map (fun g => pending (tree_ g)) (playing games)).

Lemma Search_games_balance fuel model_name games : forall first cache ts,
  Forall is_Some games ->
  exists r queued spans,
    TreeSearcher.Search_games fuel first games cache ts = Some r
    /\ TreeSearcher.inferences_ (TreeSearcher.sr_searcher r)
       = TreeSearcher.inferences_ ts ++ queued
    /\ TreeSearcher.inference_spans_ (TreeSearcher.sr_searcher r)
       = TreeSearcher.inference_spans_ ts ++ spans
    /\ outstanding (TreeSearcher.sr_games r)
       ≡ₚ map leaf queued ++ outstanding games
    /\ forall filled prefix suffix,
         map leaf filled
         = map leaf (TreeSearcher.inferences_ (TreeSearcher.sr_searcher r)) ->
         length prefix = first ->
         exists games',
           SelfplayThread.process_spans model_name filled spans
             (prefix ++ TreeSearcher.sr_games r ++ suffix)
           = Some (prefix ++ games' ++ suffix)
           /\ Forall2 balanced games games'.
Proof.
  induction games as [|slot rest IH]; intros first cache ts Hall.
  - eexists _, [], []. simpl. rewrite !app_nil_r.
    split_and!; [reflexivity .. |].
    intros filled prefix suffix _ _. exists []. split; [reflexivity |].
    constructor.
  - apply Forall_cons in Hall. destruct Hall as [[g ->] Hrest].
    cbn [TreeSearcher.Search_games mbind option_bind].
    destruct (SelectLeaves_owes fuel cache (TreeSearcher.inferences_ ts) g)
      as (q & I & N & P).
    destruct (SelfplayGame.SelectLeaves fuel cache
                (TreeSearcher.inferences_ ts) g) as [ret s].
    cbn [snd] in I, N, P. rewrite N, Nat2Z.id.
    match goal with
    | |- context [TreeSearcher.Search_games fuel (S first) rest ?c ?t] =>
        destruct (IH (S first) c t Hrest)
          as (r & queued & spans & E & Ir & Sr & Ho & Hp)
    end.
    rewrite E. cbn [mbind option_bind]. cbn [TreeSearcher.inferences_
      TreeSearcher.inference_spans_] in Ir, Sr.
    eexists _, (q ++ queued),
      ((if (0 <? length q)%nat
        then [{| TreeSearcher.selfplay_game := first;
                 TreeSearcher.pos := length (TreeSearcher.inferences_ ts);
                 TreeSearcher.len := length q |}]
        else []) ++ spans).
    split; [reflexivity |].
    cbn [TreeSearcher.sr_searcher TreeSearcher.sr_games].
    assert (If : TreeSearcher.inferences_ (TreeSearcher.sr_searcher r)
                 = TreeSearcher.inferences_ ts ++ q ++ queued).
    { rewrite Ir, I, <- app_assoc. reflexivity. }
    split_and!.
    + exact If.
    + rewrite Sr. destruct (0 <? length q)%nat;
        rewrite <- ?app_assoc, ?app_nil_r; reflexivity.
    + unfold outstanding in *. rewrite !playing_cons_Some. cbn [map concat].
      rewrite Ho, P, map_app. solve_Permutation.
    + intros filled prefix suffix Hleaf Hlen.
      destruct (0 <? length q)%nat eqn:Epos.
      * cbn [app SelfplayThread.process_spans TreeSearcher.selfplay_game
               TreeSearcher.pos TreeSearcher.len].
        rewrite (list_lookup_middle prefix _ (Some (ls_game s)) first)
          by (symmetry; exact Hlen).
        cbn [mbind option_bind].
        pose proof (ProcessInferences_settles model_name
                      (take (length q)
                         (drop (length (TreeSearcher.inferences_ ts)) filled))
                      (ls_game s) (pending (tree_ g))) as Hs.
        destruct (SelfplayGame.ProcessInferences model_name _ (ls_game s))
          as [g' calls].
        cbn [fst] in Hs.
        rewrite insert_app_r_alt by lia.
        replace (first - length prefix)%nat with 0%nat by lia.
        cbn [insert list_insert].
        destruct (Hp filled (prefix ++ [Some g']) suffix Hleaf)
          as (games' & Ep & Hb).
        { rewrite length_app. simpl. lia. }
        rewrite <- app_assoc in Ep. cbn [app] in Ep.
        exists (Some g' :: games'). split.
        -- rewrite Ep, <- app_assoc. reflexivity.
        -- constructor; [| exact Hb].
           exists g, g'. split_and!; [reflexivity | reflexivity |].
           apply Hs.
           rewrite <- firstn_map, <- skipn_map, Hleaf, If, !map_app.
           rewrite <- (length_map leaf (TreeSearcher.inferences_ ts)).
           rewrite drop_app_length.
           rewrite <- (length_map leaf q), take_app_length. exact P.
      * apply Nat.ltb_ge in Epos.
        assert (q = []) as -> by (destruct q; [reflexivity | simpl in Epos; lia]).
        cbn [app].
        destruct (Hp filled (prefix ++ [Some (ls_game s)]) suffix Hleaf)
          as (games' & Ep & Hb).
        { rewrite length_app. simpl. lia. }
        rewrite <- app_assoc in Ep. cbn [app] in Ep.
        exists (Some (ls_game s) :: games'). split.
        -- rewrite Ep, <- app_assoc. reflexivity.
        -- constructor; [| exact Hb].
           exists g, (ls_game s). split_and!; [reflexivity | reflexivity |].
           exact P.
Qed.

(** X12. A search over slots that all hold a game, followed by the
    processing of its spans with whatever outputs the model has written
    into the vector, leaves no virtual loss behind.  After
    [TreeSearcher::Search] the virtual losses on the trees of the games
    searched are those that were there and one on the leaf of each
    inference of the vector; after [ProcessInferences] has gone through
    the spans, which it does without meeting a null pointer, the slots
    outside the range searched are as they were, and the tree of every game
    searched carries the virtual losses it carried before the search. *)
Theorem virtual_losses_balance (fuel : nat) (cache : InferenceCache)
    (outputs : list ModelOutput) (model_name : string)
    (prefix games suffix : list (option SelfplayGame.t)) :
  Forall is_Some games ->
  exists r games',
    TreeSearcher.Search fuel (length prefix) games cache = Some r
    /\ outstanding (TreeSearcher.sr_games r)
       ≡ₚ map leaf (TreeSearcher.inferences_ (TreeSearcher.sr_searcher r))
          ++ outstanding games
    /\ SelfplayThread.process_spans model_name
         (fst (SelfplayThread.fill_outputs
                 (TreeSearcher.inferences_ (TreeSearcher.sr_searcher r))
                 outputs))
         (TreeSearcher.inference_spans_ (TreeSearcher.sr_searcher r))
         (prefix ++ TreeSearcher.sr_games r ++ suffix)
       = Some (prefix ++ games' ++ suffix)
    /\ Forall2 balanced games games'
    /\ outstanding games' ≡ₚ outstanding games.
Proof.
  intros Hall. unfold TreeSearcher.Search.
  destruct (Search_games_balance fuel model_name games (length prefix) cache
              TreeSearcher.cleared Hall)
    as (r & queued & spans & E & Ir & Sr & Ho & Hp).
  cbn [TreeSearcher.cleared TreeSearcher.inferences_
       TreeSearcher.inference_spans_ app] in Ir, Sr.
  destruct (fill_outputs_spec
              (TreeSearcher.inferences_ (TreeSearcher.sr_searcher r)) outputs)
    as (_ & L & _).
  destruct (Hp _ prefix suffix L eq_refl) as (games' & Ep & Hb).
  exists r, games'. rewrite Ir, Sr.
  split_and!; [exact E | exact Ho | rewrite <- Ir; exact Ep | exact Hb |].
  clear -Hb. unfold outstanding.
  induction Hb as [|slot slot' games games' (g & g' & -> & -> & P) _ IH];
    [reflexivity |].
  rewrite !playing_cons_Some. cbn [map concat]. rewrite P, IH. reflexivity.
Qed.

End BalanceProperties.

(** ** Finished games: from the thread to the output thread *)

Section OutputProperties.
Context `{CacheOps} `{OutputOps}.

Import SelfplayThread.

(** The orchestrator [sp'] is [sp] with the games [ended] handed over
    by [EndGame], in that order: each is counted in the win statistics and
    pushed on the output queue, and nothing else has changed. *)
Definition handed_over (ended : list SelfplayGame.t)
    (sp sp' : Selfplayer.t) : Prop :=
  Selfplayer.output_queue_ sp'
  = Selfplayer.output_queue_ sp ++ map Some ended
  /\ Selfplayer.win_stats_ sp'
     = Selfplayer.win_stats_ sp
       ++ map (fun g => Game.game_over_reason (SelfplayGame.game_ g)) ended
  /\ Selfplayer.flags sp' = Selfplayer.flags sp
  /\ Selfplayer.num_games_remaining_ sp' = Selfplayer.num_games_remaining_ sp
  /\ Selfplayer.game_options_ sp' = Selfplayer.game_options_ sp.

Lemma handed_over_nil sp : handed_over [] sp sp.
Proof. unfold handed_over. simpl. rewrite !app_nil_r. auto. Qed.

Lemma handed_over_trans a b sp1 sp2 sp3 :
  handed_over a sp1 sp2 -> handed_over b sp2 sp3 ->
  handed_over (a ++ b) sp1 sp3.
Proof.
  intros (Q1 & W1 & F1 & N1 & G1) (Q2 & W2 & F2 & N2 & G2).
  unfold handed_over.
  rewrite Q2, Q1, W2, W1, F2, F1, N2, N1, G2, G1, !map_app, !app_assoc.
  auto.
Qed.

Lemma PlayMoves_slots_spec now games : forall sp,
  Forall is_Some games ->
  exists games' sp' ended,
    PlayMoves_slots now games sp = Some (games', sp')
    /\ length games' = length games
    /\ handed_over ended sp sp'
    /\ Forall (fun g => Game.game_over (SelfplayGame.game_ g) = true) ended
    /\ (length (playing games') + length ended = length games)%nat.
Proof.
  induction games as [|slot rest IH]; intros sp Hall; simpl.
  - exists [], sp, []. split_and!; auto using handed_over_nil.
  - apply Forall_cons in Hall. destruct Hall as [[g ->] Hrest]. simpl.
    destruct (SelfplayGame.MaybePlayMove now g) as [[played g'] calls].
    destruct (played && Game.game_over (SelfplayGame.game_ g')) eqn:Eend.
    + apply andb_true_iff in Eend. destruct Eend as [_ Hover].
      destruct (IH (Selfplayer.EndGame g' sp) Hrest)
        as (rest' & sp' & ended & E & Hl & Hh & Ho & Hc).
      rewrite E. simpl. exists (None :: rest'), sp', ([g'] ++ ended).
      split_and!; [reflexivity | simpl; lia | |
                  | rewrite playing_cons_None; simpl; lia].
      * eapply handed_over_trans; [| exact Hh].
        unfold handed_over. simpl. auto.
      * constructor; assumption.
    + destruct (IH sp Hrest) as (rest' & sp' & ended & E & Hl & Hh & Ho & Hc).
      rewrite E. simpl. exists (Some g' :: rest'), sp', ended.
      split_and!; [reflexivity | simpl; lia | exact Hh | exact Ho |].
      rewrite playing_cons_Some. simpl. lia.
Qed.

(** What [PlayMoves] makes of the game of one slot: the game as
    [MaybePlayMove] leaves it, and whether it is handed to [EndGame], which
    is when a move was played and the game is over. *)
Definition moved (now : Z) (g : SelfplayGame.t) : SelfplayGame.t :=
  snd (fst (SelfplayGame.MaybePlayMove now g)).

Definition ends (now : Z) (g : SelfplayGame.t) : bool :=
  fst (fst (SelfplayGame.MaybePlayMove now g))
  && Game.game_over (SelfplayGame.game_ (moved now g)).

Lemma omap_head {A B : Type} (f : A -> option B) (x : A) (l : list A) :
  omap f (x :: l)
  = match f x with Some y => y :: omap f l | None => omap f l end.
Proof. reflexivity. Qed.

Lemma handed_over_each ended : forall sp,
  handed_over ended sp
    (fold_left (fun acc g => Selfplayer.EndGame g acc) ended sp).
Proof.
  induction ended as [|g ended IH]; intros sp; simpl.
  - apply handed_over_nil.
  - apply (handed_over_trans [g] ended _ (Selfplayer.EndGame g sp));
      [| apply IH].
    unfold handed_over. simpl. auto.
Qed.

Lemma PlayMoves_slots_exact now games : forall sp,
  PlayMoves_slots now (map Some games) sp
  = Some (map (fun g => if ends now g then None else Some (moved now g))
              games,
          fold_left (fun acc g => Selfplayer.EndGame g acc)
            (omap (fun g => if ends now g then Some (moved now g) else None)
                  games) sp).
Proof.
  induction games as [|g games IH]; intros sp; [reflexivity |].
  cbn [map PlayMoves_slots mbind option_bind].
  rewrite omap_head.
  assert (Ee : ends now g
               = fst (fst (SelfplayGame.MaybePlayMove now g))
                 && Game.game_over
                      (SelfplayGame.game_
                         (snd (fst (SelfplayGame.MaybePlayMove now g)))))
    by reflexivity.
  assert (Em : moved now g = snd (fst (SelfplayGame.MaybePlayMove now g)))
    by reflexivity.
  destruct (SelfplayGame.MaybePlayMove now g) as [[played g'] calls].
  cbn [fst snd] in Ee, Em. rewrite Ee, Em.
  destruct (played && Game.game_over (SelfplayGame.game_ g'));
    rewrite IH; reflexivity.
Qed.

Lemma ended_games_over now games :
  Forall (fun g => Game.game_over (SelfplayGame.game_ g) = true)
    (omap (fun g => if ends now g then Some (moved now g) else None) games).
Proof.
  induction games as [|g games IH]; [constructor |].
  rewrite omap_head. destruct (ends now g) eqn:E; [| exact IH].
  constructor; [| exact IH].
  unfold ends in E. apply andb_true_iff in E. apply E.
Qed.

Lemma ended_or_playing now games :
  (length (playing (map (fun g => if ends now g then None
                                  else Some (moved now g)) games))
   + length (omap (fun g => if ends now g then Some (moved now g) else None)
               games)
   = length games)%nat.
Proof.
  induction games as [|g games IH]; [reflexivity |].
  cbn [map]. rewrite omap_head. destruct (ends now g).
  - rewrite playing_cons_None. simpl. lia.
  - rewrite playing_cons_Some. simpl. lia.
Qed.

(** X16. On an array in which every slot holds a game, [PlayMoves] calls
    [MaybePlayMove] on the game of each slot; the slot of a game that
    played a move and is over then holds a null pointer, and every other
    slot holds its game as [MaybePlayMove] left it, at the same index.
    The orchestrator is the one obtained by calling [EndGame] on the games
    that ended, in slot order: each of them is over, is counted once in the
    win statistics and pushed once on the output queue, and nothing else of
    the orchestrator changes.  No null pointer is pushed on the queue, and
    the searchers and the id of the thread are kept. *)
Theorem PlayMoves_hands_over_finished_games (now : Z)
    (th : SelfplayThread.t) (sp : Selfplayer.t) :
  Forall is_Some (selfplay_games_ th) ->
  let games := playing (selfplay_games_ th) in
  let ended :=
    omap (fun g => if ends now g then Some (moved now g) else None) games in
  exists th' sp',
    PlayMoves now th sp = Some (th', sp')
    /\ selfplay_games_ th'
       = map (fun g => if ends now g then None else Some (moved now g)) games
    /\ searchers_ th' = searchers_ th
    /\ thread_id_ th' = thread_id_ th
    /\ sp' = fold_left (fun acc g => Selfplayer.EndGame g acc) ended sp
    /\ handed_over ended sp sp'
    /\ Forall (fun g => Game.game_over (SelfplayGame.game_ g) = true) ended
    /\ length (selfplay_games_ th') = length (selfplay_games_ th)
    /\ (length (playing (selfplay_games_ th')) + length ended
        = length (selfplay_games_ th))%nat.
Proof.
  intros Hall games ended. unfold PlayMoves.
  pose proof (playing_all_Some _ Hall) as E. fold games in E.
  rewrite E, PlayMoves_slots_exact. fold ended.
  cbn [mbind option_bind]. eexists _, _. split; [reflexivity |].
  cbn [selfplay_games_ searchers_ thread_id_].
  split_and!; [reflexivity | reflexivity | reflexivity | reflexivity
              | apply handed_over_each | apply ended_games_over
              | rewrite !length_map; reflexivity
              | rewrite length_map; apply ended_or_playing].
Qed.

(** A pass of the loop of [Run] completes, and hands over finished games
    only. *)
Lemma Run_cycle_spec env cache th sp :
  exists th' sp' cache' ended,
    Run_cycle env cache th sp = Some (th', sp', cache')
    /\ handed_over ended
         (snd (StartNewGames (env_now env) (env_ansi env) th sp)) sp'
    /\ Forall (fun g => Game.game_over (SelfplayGame.game_ g) = true) ended.
Proof.
  unfold Run_cycle.
  pose proof (StartNewGames_from_no_null (thread_id_ th) (env_now env)
                (env_ansi env) 0 (selfplay_games_ th) sp) as Hall.
  unfold StartNewGames.
  destruct (StartNewGames_from _ _ _ _ _ _) as [games1 sp1]. simpl in *.
  specialize (Hall ltac:(constructor)).
  unfold SelectLeaves. simpl.
  destruct (SelectLeaves_shards_no_null (env_fuel env)
              (length (searchers_ th)) (seq 0 (length (searchers_ th)))
              games1 cache (searchers_ th) Hall)
    as (sel & Esel & Hsel & _ & Hn & Hvalid).
  rewrite Esel. simpl.
  assert (Hspans : Forall (spans_in_range (length (sl_games sel)))
                          (sl_searchers sel)).
  { apply Forall_lookup. intros i ts Hts. apply (Hvalid i); [| exact Hts].
    left. apply elem_of_seq. apply lookup_lt_Some in Hts. lia. }
  assert (Hrest : forall model_name searchers',
             map TreeSearcher.inference_spans_ searchers'
             = map TreeSearcher.inference_spans_ (sl_searchers sel) ->
             exists th' sp' cache' ended,
               ('(th4, cache') ← ProcessInferences model_name (sl_cache sel)
                    {| selfplay_games_ := sl_games sel;
                       searchers_ := searchers';
                       thread_id_ := thread_id_ th |};
                '(th5, sp2) ← PlayMoves (env_now env) th4 sp1;
                Some (th5, sp2, cache')) = Some (th', sp', cache')
               /\ handed_over ended sp1 sp'
               /\ Forall (fun g => Game.game_over (SelfplayGame.game_ g) = true)
                         ended).
  { intros model_name searchers' Emap.
    assert (Hspans' : Forall (spans_in_range (length (sl_games sel)))
                             searchers').
    { eapply spans_in_range_ext; [exact Emap | exact Hspans]. }
    unfold ProcessInferences. simpl.
    destruct (ProcessInferences_searchers_no_null model_name searchers'
                (sl_games sel) (sl_cache sel) Hsel Hspans')
      as ([games4 cache4] & E4 & Hs4 & _).
    rewrite E4. simpl. simpl in Hs4.
    unfold PlayMoves. simpl.
    destruct (PlayMoves_slots_spec (env_now env) games4 sp1 Hs4)
      as (games5 & sp5 & ended & E5 & _ & Hh & Ho & _).
    rewrite E5. simpl. eexists _, sp5, cache4, ended.
    split_and!; [reflexivity | exact Hh | exact Ho]. }
  unfold RunInferences. simpl.
  match goal with |- context [match ?l with [] => _ | _ :: _ => _ end] =>
    destruct l as [|x inputs'] end.
  - apply Hrest. reflexivity.
  - destruct (env_RunMany env (x :: inputs')) as [outputs model_name].
    apply Hrest. simpl. apply fill_searchers_spans.
Qed.

(** A pass of the loop of [Run] pushes finished games on the queue and
    nothing else. *)
Lemma Run_cycle_queue env cache th sp :
  exists th' sp' cache' ended,
    Run_cycle env cache th sp = Some (th', sp', cache')
    /\ Selfplayer.output_queue_ sp'
       = Selfplayer.output_queue_ sp ++ map Some ended
    /\ Selfplayer.win_stats_ sp'
       = Selfplayer.win_stats_ sp
         ++ map (fun g => Game.game_over_reason (SelfplayGame.game_ g)) ended
    /\ Forall (fun g => Game.game_over (SelfplayGame.game_ g) = true) ended.
Proof.
  destruct (Run_cycle_spec env cache th sp)
    as (th' & sp' & cache' & ended & E & (Q & W & _) & Ho).
  exists th', sp', cache', ended.
  unfold StartNewGames in Q, W.
  destruct (StartNewGames_from_playing (thread_id_ th) (env_now env)
              (env_ansi env) 0 (selfplay_games_ th) sp)
    as (_ & _ & _ & Hq & Hw).
  destruct (StartNewGames_from _ _ _ _ _ _) as [games1 sp1]. simpl in *.
  rewrite Q, W, Hq, Hw. auto.
Qed.

Lemma playing_map_Some l : playing (map Some l) = l.
Proof.
  induction l as [|g l IH]; [reflexivity |].
  unfold playing in *. simpl. f_equal. exact IH.
Qed.

(** The loop of [Run] completes and pushes finished games only. *)
Lemma Run_queue (envs : list Env)
    (cache : InferenceCache) (th : SelfplayThread.t) (sp : Selfplayer.t) :
  Forall is_Some (Selfplayer.output_queue_ sp) ->
  Forall (fun g => Game.game_over (SelfplayGame.game_ g) = true)
         (playing (Selfplayer.output_queue_ sp)) ->
  exists th' sp' cache' ended,
    Run envs cache th sp = Some (th', sp', cache')
    /\ Selfplayer.output_queue_ sp'
       = Selfplayer.output_queue_ sp ++ map Some ended
    /\ Selfplayer.win_stats_ sp'
       = Selfplayer.win_stats_ sp
         ++ map (fun g => Game.game_over_reason (SelfplayGame.game_ g)) ended
    /\ Forall is_Some (Selfplayer.output_queue_ sp')
    /\ Forall (fun g => Game.game_over (SelfplayGame.game_ g) = true)
              (playing (Selfplayer.output_queue_ sp')).
Proof.
  revert cache th sp. induction envs as [|env envs IH];
    intros cache th sp Hs Ho; simpl.
  { exists th, sp, cache, []. simpl. rewrite !app_nil_r. split_and!; auto. }
  destruct (selfplay_games_ th) eqn:Egames.
  { exists th, sp, cache, []. simpl. rewrite !app_nil_r. split_and!; auto. }
  clear Egames.
  destruct (Run_cycle_queue env cache th sp)
    as (th1 & sp1 & cache1 & ended & E & Q & W & He).
  rewrite E. simpl.
  destruct (IH cache1 th1 sp1)
    as (th2 & sp2 & cache2 & ended' & E' & Q' & W' & Hs' & Ho').
  - rewrite Q. apply Forall_app. split; [exact Hs |].
    apply Forall_map. apply Forall_true. intros g. eexists. reflexivity.
  - rewrite Q, playing_app, playing_map_Some.
    apply Forall_app. split; assumption.
  - exists th2, sp2, cache2, (ended ++ ended').
    split_and!; [exact E' | | | exact Hs' | exact Ho'].
    + rewrite Q', Q, map_app, app_assoc. reflexivity.
    + rewrite W', W, map_app, app_assoc. reflexivity.
Qed.

(** What the output thread tells about the games it writes. *)
Definition comments_of (outs : list Output) : list (Z * string) :=
  omap (fun o => match o with
                 | AddComment_out game_id comment => Some (game_id, comment)
                 | _ => None
                 end) outs.

Definition examples_of (outs : list Output) : list (string * string) :=
  omap (fun o => match o with
                 | WriteGameExamples_out dir name => Some (dir, name)
                 | _ => None
                 end) outs.

Definition sgfs_of (outs : list Output) : list (string * string * bool) :=
  omap (fun o => match o with
                 | WriteSgf_out dir name full => Some (dir, name, full)
                 | _ => None
                 end) outs.

(** The directory the examples of a game go to. *)
Definition example_dir (ot : OutputThread.t) (g : SelfplayGame.t) : string :=
  if SelfplayGame.is_holdout (SelfplayGame.options_ g)
  then OutputThread.holdout_dir_ ot else OutputThread.output_dir_ ot.

Lemma WriteOutputs_spec verbose game_id now g ot :
  let outs := OutputThread.WriteOutputs verbose game_id now g ot in
  comments_of outs
  = [(game_id,
      "Inferences: [" +:+ StrJoin (SelfplayGame.models_used_ g) ", " +:+ "]")]
  /\ examples_of outs
     = (if bool_decide (example_dir ot g = "") then []
        else [(GetOutputDir now (example_dir ot g), GetOutputName game_id)])
  /\ sgfs_of outs
     = (if bool_decide (OutputThread.sgf_dir_ ot = "") then []
        else [(GetOutputDir now (JoinPath (OutputThread.sgf_dir_ ot) "clean"),
               GetOutputName game_id, false);
              (GetOutputDir now (JoinPath (OutputThread.sgf_dir_ ot) "full"),
               GetOutputName game_id, true)]).
Proof.
  unfold OutputThread.WriteOutputs, example_dir, comments_of, examples_of,
    sgfs_of.
  destruct verbose, (bool_decide (OutputThread.sgf_dir_ ot = "")),
    (bool_decide (_ = "")); simpl; split_and!; reflexivity.
Qed.

(** What the games written from [game_id] on leave, game by game. *)
Fixpoint written (clock : Z -> Z) (ot : OutputThread.t) (game_id : Z)
    (games : list SelfplayGame.t)
    : list (Z * string) * list (string * string)
      * list (string * string * bool) :=
  match games with
  | [] => ([], [], [])
  | g :: rest =>
      let '(comments, examples, sgfs) := written clock ot (game_id + 1) rest in
      ((game_id,
        "Inferences: [" +:+ StrJoin (SelfplayGame.models_used_ g) ", " +:+ "]")
       :: comments,
       (if bool_decide (example_dir ot g = "") then []
        else [(GetOutputDir (clock game_id) (example_dir ot g),
               GetOutputName game_id)]) ++ examples,
       (if bool_decide (OutputThread.sgf_dir_ ot = "") then []
        else [(GetOutputDir (clock game_id)
                 (JoinPath (OutputThread.sgf_dir_ ot) "clean"),
               GetOutputName game_id, false);
              (GetOutputDir (clock game_id)
                 (JoinPath (OutputThread.sgf_dir_ ot) "full"),
               GetOutputName game_id, true)]) ++ sgfs)
  end.

Lemma Run_from_cons verbose clock game_id g rest ot :
  OutputThread.Run_from verbose clock game_id (Some g :: rest) ot
  = (let r := OutputThread.Run_from verbose clock (game_id + 1) rest ot in
     {| OutputThread.outputs :=
          OutputThread.WriteOutputs verbose game_id (clock game_id) g ot
          ++ OutputThread.outputs r;
        OutputThread.unpopped := OutputThread.unpopped r;
        OutputThread.ended := OutputThread.ended r |}).
Proof. reflexivity. Qed.

Lemma Run_from_spec verbose clock ot games : forall game_id rest,
  let r := OutputThread.Run_from verbose clock game_id
             (map Some games ++ rest) ot in
  let r' := OutputThread.Run_from verbose clock
              (game_id + Z.of_nat (length games)) rest ot in
  let '(comments, examples, sgfs) := written clock ot game_id games in
  comments_of (OutputThread.outputs r)
  = comments ++ comments_of (OutputThread.outputs r')
  /\ examples_of (OutputThread.outputs r)
     = examples ++ examples_of (OutputThread.outputs r')
  /\ sgfs_of (OutputThread.outputs r)
     = sgfs ++ sgfs_of (OutputThread.outputs r')
  /\ OutputThread.unpopped r = OutputThread.unpopped r'
  /\ OutputThread.ended r = OutputThread.ended r'.
Proof.
  induction games as [|g games IH]; intros game_id rest.
  - simpl. rewrite Z.add_0_r. auto.
  - specialize (IH (game_id + 1) rest). cbv zeta in IH.
    cbn [map app length written]. rewrite Run_from_cons.
    cbn [OutputThread.outputs OutputThread.unpopped OutputThread.ended].
    replace (game_id + Z.of_nat (S (length games)))
      with (game_id + 1 + Z.of_nat (length games)) by lia.
    destruct (written clock ot (game_id + 1) games) as [[comments examples] sgfs].
    destruct IH as (C & X & S & U & E).
    destruct (WriteOutputs_spec verbose game_id (clock game_id) g ot)
      as (C0 & X0 & S0).
    unfold comments_of, examples_of, sgfs_of in *.
    rewrite !omap_app, C, X, S, C0, X0, S0, <- !app_assoc.
    auto.
Qed.

(** The run of the output thread on a queue with a null pointer in it. *)
Lemma Run_until_null_pointer verbose clock ot games rest :
  let stopped := OutputThread.Run verbose clock
                   (map Some games ++ None :: rest) ot in
  (comments_of (OutputThread.outputs stopped),
   examples_of (OutputThread.outputs stopped),
   sgfs_of (OutputThread.outputs stopped)) = written clock ot 0 games
  /\ OutputThread.unpopped stopped = rest
  /\ OutputThread.ended stopped = true.
Proof.
  unfold OutputThread.Run.
  pose proof (Run_from_spec verbose clock ot games 0 (None :: rest)) as Hs.
  simpl in Hs.
  destruct (written clock ot 0 games) as [[comments examples] sgfs].
  destruct Hs as (C & X & S & U & E).
  rewrite C, X, S, U, E. simpl. rewrite !app_nil_r. auto.
Qed.

Lemma written_comments_length clock ot games : forall game_id,
  length (fst (fst (written clock ot game_id games))) = length games.
Proof.
  induction games as [|g games IH]; intros game_id; simpl; [reflexivity |].
  specialize (IH (game_id + 1)).
  destruct (written clock ot (game_id + 1) games) as [[comments examples] sgfs].
  simpl in *. f_equal. exact IH.
Qed.

(** On a queue without a null pointer the check at the end of
    [Selfplayer::Run] passes. *)
Lemma Run_stop_no_null clock sp :
  Forall is_Some (Selfplayer.output_queue_ sp) ->
  exists outs,
    Selfplayer_Run_stop clock sp = Some outs
    /\ (comments_of outs, examples_of outs, sgfs_of outs)
       = written clock (OutputThread.new (Selfplayer.flags sp)) 0
                 (playing (Selfplayer.output_queue_ sp)).
Proof.
  intros Hall. unfold Selfplayer_Run_stop.
  pose proof (playing_all_Some _ Hall) as Eq. revert Eq.
  generalize (playing (Selfplayer.output_queue_ sp)). intros games ->.
  destruct (Run_until_null_pointer
              (FLAGS_verbose (Selfplayer.flags sp)) clock
              (OutputThread.new (Selfplayer.flags sp))
              games []) as (W & U & E).
  rewrite U, E. eexists. split; [reflexivity | exact W].
Qed.

(** X17. The loop of [Run] of a selfplay thread never fails, however
    many passes it makes, and it keeps the output queue in order: when
    the queue holds no null pointer and only games that are over, so it
    does afterwards, what was in the queue is still at its front, and the
    win statistics have grown by one entry for each game pushed.  The
    check that ends [Selfplayer::Run] then passes, the output thread
    having written one comment for each game of the queue. *)
Theorem Run_queues_only_finished_games (envs : list Env)
    (cache : InferenceCache) (th : SelfplayThread.t) (sp : Selfplayer.t)
    (clock : Z -> Z) :
  Forall is_Some (Selfplayer.output_queue_ sp) ->
  Forall (fun g => Game.game_over (SelfplayGame.game_ g) = true)
         (playing (Selfplayer.output_queue_ sp)) ->
  exists th' sp' cache' ended outs,
    Run envs cache th sp = Some (th', sp', cache')
    /\ Selfplayer.output_queue_ sp'
       = Selfplayer.output_queue_ sp ++ map Some ended
    /\ Selfplayer.win_stats_ sp'
       = Selfplayer.win_stats_ sp
         ++ map (fun g => Game.game_over_reason (SelfplayGame.game_ g)) ended
    /\ Forall (fun g => Game.game_over (SelfplayGame.game_ g) = true)
              (playing (Selfplayer.output_queue_ sp'))
    /\ Selfplayer_Run_stop clock sp' = Some outs
    /\ length (comments_of outs) = length (Selfplayer.output_queue_ sp').
Proof.
  intros Hs Ho.
  destruct (Run_queue envs cache th sp Hs Ho)
    as (th' & sp' & cache' & ended & E & Q & W & Hs' & Ho').
  destruct (Run_stop_no_null clock sp' Hs') as (outs & Eo & Ew).
  exists th', sp', cache', ended, outs.
  split_and!; [exact E | exact Q | exact W | exact Ho' | exact Eo |].
  apply (f_equal (fun w => length (fst (fst w)))) in Ew. simpl in Ew.
  rewrite Ew, written_comments_length.
  apply playing_length_all_Some. exact Hs'.
Qed.

(** X18. The output thread writes the games in the order they were
    pushed, numbering them from 0, and stops at the first null pointer,
    leaving what was pushed after it unpopped.  Each game gets exactly one
    comment, which lists the models it used; its training examples go to
    the holdout directory if it is a holdout game and to the output
    directory otherwise, and are not written when that directory is not
    set; its two SGF files, clean and full, are written exactly when the
    SGF directory is set.  On a queue without a null pointer the thread
    writes every game and does not end. *)
Theorem OutputThread_writes_games_in_order (verbose : bool) (clock : Z -> Z)
    (ot : OutputThread.t) (games : list SelfplayGame.t)
    (rest : list (option SelfplayGame.t)) :
  let stopped := OutputThread.Run verbose clock
                   (map Some games ++ None :: rest) ot in
  let waiting := OutputThread.Run verbose clock (map Some games) ot in
  (comments_of (OutputThread.outputs stopped),
   examples_of (OutputThread.outputs stopped),
   sgfs_of (OutputThread.outputs stopped)) = written clock ot 0 games
  /\ OutputThread.unpopped stopped = rest
  /\ OutputThread.ended stopped = true
  /\ comments_of (OutputThread.outputs waiting)
     = comments_of (OutputThread.outputs stopped)
  /\ OutputThread.ended waiting = false.
Proof.
  unfold OutputThread.Run.
  pose proof (Run_from_spec verbose clock ot games 0 (None :: rest)) as Hs.
  pose proof (Run_from_spec verbose clock ot games 0 []) as Hw.
  rewrite app_nil_r in Hw. simpl in Hs, Hw.
  destruct (written clock ot 0 games) as [[comments examples] sgfs].
  destruct Hs as (C & X & S & U & E). destruct Hw as (C' & _ & _ & _ & E').
  rewrite C, X, S, U, E, C', E'. simpl. rewrite !app_nil_r. auto.
Qed.

(** X19. Stopping the output thread at the end of [Selfplayer::Run]
    passes its check that the queue is empty exactly when no null pointer
    was pushed on the queue before; the output thread has then written
    every game of the queue, in order, numbered from 0. *)
Theorem Run_stop_checks_queue (clock : Z -> Z) (sp : Selfplayer.t) :
  (is_Some (Selfplayer_Run_stop clock sp)
   <-> Forall is_Some (Selfplayer.output_queue_ sp))
  /\ forall outs,
       Selfplayer_Run_stop clock sp = Some outs ->
       (comments_of outs, examples_of outs, sgfs_of outs)
       = written clock (OutputThread.new (Selfplayer.flags sp)) 0
                 (playing (Selfplayer.output_queue_ sp)).
Proof.
  unfold Selfplayer_Run_stop.
  set (verbose := FLAGS_verbose (Selfplayer.flags sp)).
  set (ot := OutputThread.new (Selfplayer.flags sp)).
  assert (Hcases :
    (exists games, Selfplayer.output_queue_ sp = map Some games)
    \/ (exists games rest,
           Selfplayer.output_queue_ sp = map Some games ++ None :: rest)).
  { induction (Selfplayer.output_queue_ sp) as [|slot queue IH].
    - left. exists []. reflexivity.
    - destruct slot as [g|]; [| right; exists [], queue; reflexivity].
      destruct IH as [(games & ->) | (games & rest & ->)].
      + left. exists (g :: games). reflexivity.
      + right. exists (g :: games), rest. reflexivity. }
  destruct Hcases as [(games & ->) | (games & rest & ->)].
  - destruct (Run_until_null_pointer verbose clock ot games [])
      as (W & U & E).
    rewrite playing_map_Some, U, E. split.
    + split; [| eexists; reflexivity].
      intros _. apply Forall_map. apply Forall_true.
      intros g. eexists. reflexivity.
    + intros outs Eo. injection Eo as <-. exact W.
  - rewrite <- app_assoc. simpl.
    destruct (Run_until_null_pointer verbose clock ot games
                (rest ++ [None])) as (W & U & E).
    rewrite U, E. split.
    + split.
      * destruct rest; simpl; intros [x Hx]; discriminate.
      * intros Hall. apply Forall_app in Hall. destruct Hall as [_ Hall].
        apply Forall_cons in Hall. destruct Hall as [[x Hx] _]. discriminate.
    + destruct rest; simpl; discriminate.
Qed.

End OutputProperties.

(** ** The claims on the line game *)

Import Line.
Import SelfplayGame.

Lemma Line_uniform_below_one (r : Random) : (fst (rnd_uniform r) < 1)%Q.
Proof.
  simpl. unfold Qlt. simpl.
  pose proof (Z.mod_pos_bound r 100). lia.
Qed.

(** C1 on a game at its start, whose root is queued with its virtual
    loss, and on a game whose search meets a finished position, which is
    incorporated as it is: nothing is queued and the tree holds no virtual
    loss. *)
Lemma virtual_loss_added_once_reverted_once_witness :
  let s := snd (SelectLeaves 10 empty_cache no_inferences fresh_game) in
  let t := SelectLeaves_enter empty_cache no_inferences deep_game in
  virtual_losses_added (ls_calls s) = map leaf (ls_inferences s)
  /\ virtual_losses_added (ls_calls s) = [0%nat]
  /\ tree_ (ls_game s) = apply_calls (ls_calls s) (tree_ fresh_game)
  /\ line_pending (tree_ (ls_game s)) = [0%nat]
  /\ SelectLeaf true (tree_ (ls_game t)) = (Some 4%nat, tree_ (ls_game t))
  /\ node_game_over (tree_ (ls_game t)) 4%nat
     || node_at_move_limit (tree_ (ls_game t)) 4%nat = true
  /\ ls_inferences (snd (SelectLeaves_body t)) = ls_inferences t
  /\ line_pending (tree_ (ls_game (snd (SelectLeaves_body t)))) = [].
Proof.
  assert (H1 : SelectLeaf true
                 (tree_ (ls_game (SelectLeaves_enter empty_cache no_inferences
                                    deep_game)))
               = (Some 4%nat,
                  tree_ (ls_game (SelectLeaves_enter empty_cache no_inferences
                                    deep_game)))) by (vm_compute; reflexivity).
  assert (H2 : node_game_over
                 (tree_ (ls_game (SelectLeaves_enter empty_cache no_inferences
                                    deep_game))) 4%nat
               || node_at_move_limit
                    (tree_ (ls_game (SelectLeaves_enter empty_cache
                                       no_inferences deep_game))) 4%nat
               = true) by (vm_compute; reflexivity).
  destruct (@virtual_loss_added_once_reverted_once random mcts cache 10
              empty_cache no_inferences fresh_game)
    as ((queued & I & _ & A & _ & T) & _ & E & _).
  destruct (E (SelectLeaves_enter empty_cache no_inferences deep_game) 4%nat
              (tree_ (ls_game (SelectLeaves_enter empty_cache no_inferences
                                 deep_game))) H1 H2) as [Hinf _].
  cbv zeta in *.
  split_and!; [| vm_compute; reflexivity | exact T | vm_compute; reflexivity
              | exact H1 | exact H2 | exact Hinf | vm_compute; reflexivity].
  rewrite A, I. reflexivity.
Defined.




(** C4 on a game that has made its one read: it plays, goes on, and sets
    the target from the visit count of the new root. *)
Lemma MaybePlayMove_sets_target_witness :
  fst (fst (MaybePlayMove 0 ready_game)) = true
  /\ Game.game_over (game_ (snd (fst (MaybePlayMove 0 ready_game)))) = false
  /\ - 2 ^ 31 <= root_N (fst (play_picked_move ready_game)) + 1 < 2 ^ 31
  /\ target_readouts_ (snd (fst (MaybePlayMove 0 ready_game)))
     = root_N (fst (play_picked_move ready_game)) + 1
  /\ MaybePlayMove 0 fresh_game = (false, fresh_game, []).
Proof.
  assert (H1 : fst (fst (MaybePlayMove 0 ready_game)) = true)
    by (vm_compute; reflexivity).
  assert (H2 : Game.game_over
                 (game_ (snd (fst (MaybePlayMove 0 ready_game)))) = false)
    by (vm_compute; reflexivity).
  assert (H3 : root_N fresh_game < target_readouts_ fresh_game)
    by (by vm_compute).
  assert (H4 : - 2 ^ 31 <= root_N (fst (play_picked_move ready_game)) + 1
               < 2 ^ 31)
    by (split; by vm_compute).
  split; [exact H1 |]. split; [exact H2 |]. split; [exact H4 |]. split.
  - exact (proj1 (proj2 (proj2 (@MaybePlayMove_sets_target random mcts 0
                                  ready_game) H1 H2)) H4).
  - exact (proj1 (@MaybePlayMove_sets_target random mcts 0 fresh_game) H3).
Defined.

(** C5 with [fastplay_frequency] 1: after move 0 the game is a fast
    play. *)
Lemma fastplay_schedule_witness :
  (fastplay_frequency (options 1 1 1) == 1)%Q
  /\ Game.game_over
       (game_ (run (ops_of_cycles 2 always_fast_game) always_fast_game))
     = false
  /\ Game.moves
       (game_ (run (ops_of_cycles 2 always_fast_game) always_fast_game))
     <> []
  /\ fastplay_ (run (ops_of_cycles 2 always_fast_game) always_fast_game)
     = true
  /\ fastplay_ always_fast_game = false.
Proof.
  assert (H1 : (fastplay_frequency (options 1 1 1) == 1)%Q) by reflexivity.
  assert (H2 : Game.game_over
                 (game_ (run (ops_of_cycles 2 always_fast_game)
                             always_fast_game)) = false)
    by (vm_compute; reflexivity).
  assert (H3 : Game.moves
                 (game_ (run (ops_of_cycles 2 always_fast_game)
                             always_fast_game)) <> []).
  { intros E. apply (f_equal length) in E. vm_compute in E. discriminate E. }
  destruct (@fastplay_schedule random mcts cache (options 1 1 1) "m" "m" (game_options true)
              (MctsTree_new kBlack tree_options) false 0 0 1
              (ops_of_cycles 2 always_fast_game))
    as (F0 & _ & _ & _ & Hfast).
  split_and!; [exact H1 | exact H2 | exact H3 | | exact F0].
  exact (Hfast H1 Line_uniform_below_one H2 H3).
Defined.

(** C7: a model that comes back after another one is recorded twice. *)
Lemma models_used_deduplicated_fails : ~ models_used_deduplicated fresh_game.
Proof.
  intros Hclaim.
  assert (Hne : "a" <> "") by discriminate.
  specialize (Hclaim [ProcessInferences_op "a" no_inferences; ProcessInferences_op "b" no_inferences]
                     "a" no_inferences Hne).
  vm_compute in Hclaim.
  apply NoDup_cons in Hclaim. destruct Hclaim as [Hnotin _].
  apply Hnotin. do 2 constructor.
Qed.

Lemma models_used_recorded_witness :
  "a" <> ""
  /\ last (models_used_
             (fst (ProcessInferences "a" no_inferences
                     (run [ProcessInferences_op "a" no_inferences;
                           ProcessInferences_op "b" no_inferences] fresh_game))))
     = Some "a".
Proof.
  assert (Hne : "a" <> "") by discriminate.
  split; [exact Hne |].
  destruct (@models_used_recorded random mcts cache (options 2 1 0)
              (Game.new "m" "m" (game_options true))
              (MctsTree_new kBlack tree_options) false 0 0 1
              [ProcessInferences_op "a" no_inferences; ProcessInferences_op "b" no_inferences]
              "a" no_inferences) as (Hrec & _).
  exact (proj1 (Hrec Hne)).
Defined.

(** C8 on a game that has read a lost root. *)
Lemma resignation_adds_no_move_witness :
  target_readouts_ lost_game <= root_N lost_game
  /\ ShouldResign lost_game = true
  /\ Game.moves (game_ (snd (fst (MaybePlayMove 7 lost_game))))
     = Game.moves (game_ lost_game)
  /\ Game.game_over (game_ (snd (fst (MaybePlayMove 7 lost_game)))) = true.
Proof.
  assert (H1 : target_readouts_ lost_game <= root_N lost_game)
    by (by vm_compute).
  assert (H2 : ShouldResign lost_game = true) by (vm_compute; reflexivity).
  destruct (@resignation_adds_no_move random mcts 7 lost_game H1 H2)
    as (_ & R & M & _).
  split_and!; [exact H1 | exact H2 | exact M |].
  unfold Game.game_over. rewrite R. reflexivity.
Defined.

(** C10 at the start of a game, which is not a fast play, and at the
    start of the second move of a game whose moves are fast plays from
    there on: in both the root is the leaf selected, the loop is left, and
    the flag is set for the slow move only. *)
Lemma root_selection_breaks_loop_witness :
  let slow := SelectLeaves_enter empty_cache no_inferences fresh_game in
  let fast := SelectLeaves_enter empty_cache no_inferences fast_game in
  fastplay_ (ls_game slow) = false
  /\ SelectLeaves_loop 5 slow = (true, snd (SelectLeaves_body slow))
  /\ inject_noise_before_next_read_
       (ls_game (snd (SelectLeaves_body slow))) = true
  /\ fastplay_ (ls_game fast) = true
  /\ SelectLeaves_loop 5 fast = (true, snd (SelectLeaves_body fast))
  /\ inject_noise_before_next_read_
       (ls_game (snd (SelectLeaves_body fast))) = false.
Proof.
  destruct (@root_selection_breaks_loop random mcts cache 4
              (SelectLeaves_enter empty_cache no_inferences fresh_game) 0%nat
              (tree_ fresh_game) eq_refl eq_refl eq_refl)
    as (_ & Eslow & _ & _ & Islow).
  destruct (@root_selection_breaks_loop random mcts cache 4
              (SelectLeaves_enter empty_cache no_inferences fast_game)
              1%nat (tree_ fast_game) eq_refl eq_refl eq_refl)
    as (_ & Efast & _ & _ & Ifast).
  split_and!; [reflexivity | exact Eslow | exact Islow
              | reflexivity | exact Efast | exact Ifast].
Defined.

(** ** The further properties on the line game *)

(** X1 on a run of three games on three threads that asks for four games
    a thread: one game a thread is left. *)
Lemma ParseFlags_clamps_games_per_thread_witness :
  FLAGS_concurrent_games_per_thread three_games = 4
  /\ FLAGS_concurrent_games_per_thread
       (Selfplayer.flags (orchestrator three_games)) <= 4
  /\ parallel_games (Selfplayer.flags (orchestrator three_games)) < 3 + 3
  /\ 1 <= FLAGS_concurrent_games_per_thread
            (Selfplayer.flags (orchestrator three_games)).
Proof.
  assert (H1 : Selfplayer.ParseFlags (unparsed three_games)
               = Some (orchestrator three_games)) by reflexivity.
  assert (H2 : FLAGS_run_forever (Selfplayer.flags (unparsed three_games))
               = false) by reflexivity.
  assert (H3 : 0 < FLAGS_selfplay_threads
                     (Selfplayer.flags (unparsed three_games)))
    by reflexivity.
  assert (H4 : FLAGS_num_games (Selfplayer.flags (unparsed three_games))
               + FLAGS_selfplay_threads
                   (Selfplayer.flags (unparsed three_games)) - 1 < 2 ^ 31)
    by reflexivity.
  destruct (ParseFlags_clamps_games_per_thread (unparsed three_games)
              (orchestrator three_games) H1 H2 H3 H4)
    as (_ & _ & _ & Hle & Hpar & Hone & _).
  split_and!; [reflexivity | exact Hle | exact Hpar |].
  apply Hone. by vm_compute.
Defined.


(** X3 on five calls made to an orchestrator with three games left. *)
Lemma StartNewGame_quota_witness :
  let r := StartNewGame_each (replicate 5 (false, 0, false))
             (orchestrator three_games) in
  Selfplayer.num_games_remaining_ (orchestrator three_games) = 3
  /\ Forall is_Some (take 3 (fst r))
  /\ drop 3 (fst r) = [None; None]
  /\ Selfplayer.num_games_remaining_ (snd r) = 0.
Proof.
  assert (H1 : FLAGS_run_forever (Selfplayer.flags (orchestrator three_games))
               = false) by reflexivity.
  assert (H2 : 0 <= Selfplayer.num_games_remaining_ (orchestrator three_games))
    by (by vm_compute).
  destruct (StartNewGame_quota (replicate 5 (false, 0, false))
              (orchestrator three_games) H1 H2) as (Hsome & Hnone & Hleft & _).
  split_and!; [reflexivity | exact Hsome | exact Hnone | exact Hleft].
Defined.

(** X4 on two calls made to an orchestrator that runs forever. *)
Lemma StartNewGame_run_forever_witness :
  let r := StartNewGame_each (replicate 2 (false, 0, false))
             (orchestrator forever) in
  Forall is_Some (fst r)
  /\ Selfplayer.num_games_remaining_ (snd r) = 0.
Proof.
  assert (H1 : FLAGS_run_forever (Selfplayer.flags (orchestrator forever))
               = true) by reflexivity.
  destruct (StartNewGame_run_forever (replicate 2 (false, 0, false))
              (orchestrator forever) H1) as (Hsome & _ & Hleft & _).
  split; [exact Hsome | exact Hleft].
Defined.

(** X5 on a game with resignation disabled whose root is judged lost:
    the evaluation is below the threshold, and the game does not
    resign. *)
Lemma resign_disabled_never_resigns_witness :
  let g := run (ops_of_cycles 2 stubborn_game) stubborn_game in
  Qlt_bool (node_Q_perspective (tree_ g) (root (tree_ g)))
           (Game.resign_threshold (Game.options (game_ g))) = true
  /\ ShouldResign g = false
  /\ resigned (game_ g) = false.
Proof.
  assert (H1 : Game.resign_enabled (Game.options (game_ stubborn_game))
               = false) by reflexivity.
  assert (H2 : resigned (game_ stubborn_game) = false) by reflexivity.
  destruct (resign_disabled_never_resigns (ops_of_cycles 2 stubborn_game)
              stubborn_game H1 H2) as (Hnot & Hshould).
  split_and!; [vm_compute; reflexivity | exact Hshould | exact Hnot].
Defined.

(** X6 on a game that has made its one read and is not in a fast play:
    the move it plays is trainable. *)
Lemma played_move_trainable_iff_slow_witness :
  exists m,
    Game.moves (game_ (snd (fst (MaybePlayMove 0 ready_game))))
    = Game.moves (game_ ready_game) ++ [m]
    /\ Game.trainable m = true.
Proof.
  assert (H1 : target_readouts_ ready_game <= root_N ready_game)
    by (by vm_compute).
  assert (H2 : ShouldResign ready_game = false) by (vm_compute; reflexivity).
  destruct (played_move_trainable_iff_slow 0 ready_game H1 H2)
    as (m & Hm & _ & _ & _ & _ & Ht).
  exists m. split; [exact Hm |].
  apply Ht. split; [vm_compute; reflexivity |].
  intros E. vm_compute in E. discriminate E.
Defined.

(** X9 on two games at their start. *)
Lemma Search_spans_tile_inferences_witness :
  exists r,
    TreeSearcher.Search 10 0 [Some fresh_game; Some fresh_game] empty_cache
    = Some r
    /\ spans_tile 0 (TreeSearcher.inference_spans_ (TreeSearcher.sr_searcher r))
         (length (TreeSearcher.inferences_ (TreeSearcher.sr_searcher r))).
Proof.
  assert (H1 : Forall is_Some [Some fresh_game; Some fresh_game]).
  { repeat constructor; eexists; reflexivity. }
  destruct (Search_spans_tile_inferences 10 0
              [Some fresh_game; Some fresh_game] empty_cache H1)
    as (r & E & Ht & _).
  exists r. split; [exact E | exact Ht].
Defined.

(** X10 on a thread whose searcher has searched one game, with a model
    that answers every input. *)
Lemma RunInferences_fills_outputs_witness :
  let th := {| SelfplayThread.selfplay_games_ := [Some fresh_game];
               SelfplayThread.searchers_ := [searched fresh_game];
               SelfplayThread.thread_id_ := 0 |} in
  let inputs := map input (TreeSearcher.inferences_ (searched fresh_game)) in
  inputs <> []
  /\ fst (SelfplayThread.RunInferences constant_model th) = "m"
  /\ map TreeSearcher.inference_spans_
       (SelfplayThread.searchers_
          (snd (SelfplayThread.RunInferences constant_model th)))
     = [TreeSearcher.inference_spans_ (searched fresh_game)].
Proof.
  set (th := {| SelfplayThread.selfplay_games_ := [Some fresh_game];
                SelfplayThread.searchers_ := [searched fresh_game];
                SelfplayThread.thread_id_ := 0 |}).
  set (inputs := map input
                   (concat (map TreeSearcher.inferences_
                              (SelfplayThread.searchers_ th)))).
  assert (H1 : length (fst (constant_model inputs)) = length inputs)
    by apply length_map.
  assert (H2 : inputs <> []).
  { intros E. apply (f_equal length) in E. vm_compute in E. discriminate E. }
  destruct (RunInferences_fills_outputs constant_model th H1)
    as (_ & Hrun & _ & _ & _ & Hspans & _).
  destruct (Hrun H2) as [Hname _].
  split_and!; [| exact Hname | exact Hspans].
  intros E. apply (f_equal length) in E. vm_compute in E. discriminate E.
Defined.

(** X11 on the same searcher and the game it searched. *)
Lemma ProcessInferences_merges_all_witness :
  let g := ls_game (snd (SelectLeaves 100 empty_cache no_inferences fresh_game)) in
  exists games' cache',
    SelfplayThread.ProcessInferences_searchers "m" [searched fresh_game]
      [Some g] empty_cache = Some (games', cache')
    /\ cache' = SelfplayThread.merge_inferences
                  (TreeSearcher.inferences_ (searched fresh_game) ++ [])
                  empty_cache
    /\ length games' = 1%nat.
Proof.
  set (g := ls_game (snd (SelectLeaves 100 empty_cache no_inferences fresh_game))).
  assert (H1 : Forall is_Some [Some g]).
  { repeat constructor; eexists; reflexivity. }
  assert (H2 : Forall (spans_in_range (length [Some g])) [searched fresh_game]).
  { repeat constructor. }
  destruct (ProcessInferences_merges_all "m" [searched fresh_game] [Some g]
              empty_cache H1 H2) as (games' & cache' & E & Hc & Hl & _).
  exists games', cache'. split_and!; [exact E | exact Hc | exact Hl].
Defined.

(** X14 on a thread with one game playing between two null slots, once
    the three games of the run have been started. *)
Lemma StartNewGames_when_no_game_left_witness :
  let r := SelfplayThread.StartNewGames 0 false
             (thread [None; Some fresh_game; None]) exhausted in
  snd r = exhausted
  /\ SelfplayThread.selfplay_games_ (fst r) ≡ₚ [Some fresh_game].
Proof.
  assert (H1 : FLAGS_run_forever (Selfplayer.flags exhausted) = false)
    by reflexivity.
  assert (H2 : Selfplayer.num_games_remaining_ exhausted = 0)
    by (vm_compute; reflexivity).
  destruct (StartNewGames_when_no_game_left 0 false
              (thread [None; Some fresh_game; None]) exhausted H1 H2)
    as (Hsp & Hgames & _).
  split; [exact Hsp | exact Hgames].
Defined.

(** On the line, [RevertVirtualLoss] takes one entry of its leaf away. *)
Lemma remove_first_one (x : nat) (l : list nat) :
  x ∈ l -> x :: remove_first x l ≡ₚ l.
Proof.
  induction l as [|y l IH]; intros Hin; [inversion Hin |].
  simpl. destruct (Nat.eqb_spec x y) as [-> | Hne]; [reflexivity |].
  apply elem_of_cons in Hin. destruct Hin as [-> | Hin]; [contradiction |].
  rewrite Permutation_swap, (IH Hin). reflexivity.
Qed.

Lemma line_pending_RevertVirtualLoss (node : nat) (tree : Tree)
    (rest : list nat) :
  line_pending tree ≡ₚ node :: rest ->
  line_pending (RevertVirtualLoss node tree) ≡ₚ rest.
Proof.
  intros P. simpl. apply (Permutation_cons_inv (a := node)).
  rewrite remove_first_one; [exact P |].
  rewrite P. left.
Qed.

(** X12 on the line, where the leaves with a virtual loss are those of
    [line_pending]: a search over a game at its start and a game that has
    read its root leaves a virtual loss on a leaf of each, and processing
    the spans takes both away. *)
Lemma virtual_losses_balance_witness :
  exists r games',
    TreeSearcher.Search 10 1 [Some fresh_game; Some expanded_game]
      empty_cache = Some r
    /\ map (fun g => line_pending (tree_ g))
           (playing (TreeSearcher.sr_games r)) = [[0%nat]; [1%nat]]
    /\ SelfplayThread.process_spans "m"
         (fst (SelfplayThread.fill_outputs
                 (TreeSearcher.inferences_ (TreeSearcher.sr_searcher r)) []))
         (TreeSearcher.inference_spans_ (TreeSearcher.sr_searcher r))
         ([None] ++ TreeSearcher.sr_games r ++ [])
       = Some ([None] ++ games' ++ [])
    /\ outstanding line_pending games' ≡ₚ [].
Proof.
  assert (Hall : Forall is_Some [Some fresh_game; Some expanded_game]).
  { repeat constructor; eexists; reflexivity. }
  destruct (@virtual_losses_balance random mcts cache line_pending
              ltac:(reflexivity) line_pending_RevertVirtualLoss
              ltac:(intros a t; simpl; destruct (existsb _ _); reflexivity)
              ltac:(reflexivity) ltac:(reflexivity) ltac:(reflexivity)
              10%nat empty_cache [] "m" [None]
              [Some fresh_game; Some expanded_game] [] Hall)
    as (r & games' & E & _ & Ep & _ & Ho).
  assert (C : option_map
                (fun r => map (fun g => line_pending (tree_ g))
                              (playing (TreeSearcher.sr_games r)))
                (TreeSearcher.Search 10 1
                   [Some fresh_game; Some expanded_game] empty_cache)
              = Some [[0%nat]; [1%nat]]) by (vm_compute; reflexivity).
  change (length [None]) with 1%nat in E.
  rewrite E in C. injection C as C.
  exists r, games'. split_and!; [exact E | exact C | exact Ep |].
  rewrite Ho. vm_compute. reflexivity.
Defined.

(** X16 on a thread with a game at its start and a game that resigns at
    its next call: the first stays in its slot, the second leaves a null
    pointer there and is pushed on the output queue. *)
Lemma PlayMoves_hands_over_finished_games_witness :
  ends 7 fresh_game = false
  /\ ends 7 lost_game = true
  /\ exists th' sp',
       SelfplayThread.PlayMoves 7 (thread [Some fresh_game; Some lost_game])
         (orchestrator three_games) = Some (th', sp')
       /\ SelfplayThread.selfplay_games_ th'
          = [Some (moved 7 fresh_game); None]
       /\ Selfplayer.output_queue_ sp'
          = Selfplayer.output_queue_ (orchestrator three_games)
            ++ [Some (moved 7 lost_game)]
       /\ Game.game_over (game_ (moved 7 lost_game)) = true.
Proof.
  assert (E1 : ends 7 fresh_game = false) by (vm_compute; reflexivity).
  assert (E2 : ends 7 lost_game = true) by (vm_compute; reflexivity).
  assert (Hall : Forall is_Some
                   (SelfplayThread.selfplay_games_
                      (thread [Some fresh_game; Some lost_game]))).
  { repeat constructor; eexists; reflexivity. }
  destruct (PlayMoves_hands_over_finished_games 7
              (thread [Some fresh_game; Some lost_game])
              (orchestrator three_games) Hall)
    as (th' & sp' & E & Hs & _ & _ & _ & Hh & Ho & _).
  change (playing (SelfplayThread.selfplay_games_
                     (thread [Some fresh_game; Some lost_game])))
    with [fresh_game; lost_game] in Hs, Hh, Ho.
  cbn [map] in Hs. rewrite !omap_head, E1, E2 in Hh, Ho.
  rewrite E1, E2 in Hs.
  change (omap _ []) with (@nil SelfplayGame.t) in Hh, Ho.
  destruct Hh as (Hq & _).
  split; [exact E1 |]. split; [exact E2 |].
  exists th', sp'.
  split_and!; [exact E | exact Hs | exact Hq |].
  apply Forall_cons in Ho. apply Ho.
Defined.


(** X17 on the first thread of a run of three games, for forty passes of
    its loop. *)
Lemma Run_queues_only_finished_games_witness :
  exists th' sp' cache' outs,
    SelfplayThread.Run (replicate 40 env) empty_cache
      (SelfplayThread.new 0 (Selfplayer.flags (orchestrator three_games)))
      (orchestrator three_games) = Some (th', sp', cache')
    /\ Forall (fun g => Game.game_over (game_ g) = true)
              (playing (Selfplayer.output_queue_ sp'))
    /\ Selfplayer_Run_stop (fun _ => 0) sp' = Some outs
    /\ length (comments_of outs) = length (Selfplayer.output_queue_ sp').
Proof.
  assert (H1 : Forall is_Some
                 (Selfplayer.output_queue_ (orchestrator three_games)))
    by constructor.
  assert (H2 : Forall (fun g => Game.game_over (game_ g) = true)
                 (playing (Selfplayer.output_queue_ (orchestrator three_games))))
    by constructor.
  destruct (Run_queues_only_finished_games (replicate 40 env) empty_cache
              (SelfplayThread.new 0 (Selfplayer.flags (orchestrator three_games)))
              (orchestrator three_games) (fun _ => 0) H1 H2)
    as (th' & sp' & cache' & ended & outs & E & _ & _ & Ho & Es & Hc).
  exists th', sp', cache', outs.
  split_and!; [exact E | exact Ho | exact Es | exact Hc].
Defined.
